(** * RubikDetector post-processing: a shallow embedding of
      [RubikPiWrapper/src/rubik_python_wrapper.cpp]

    The C++ translation unit is embedded function by function.  [int] values
    are integers of [Z]; [float] values are IEEE-754 binary32 numbers taken
    from the Standard Library's executable specification [SpecFloat] at
    precision 24 and maximal exponent 128, [double] values the same at
    precision 53 and maximal exponent 1024; raw tensor memory is a list of
    bytes; [std::vector] is a list indexed with stdpp's lookup and insert. *)

From Stdlib Require Import ZArith QArith Lia List Bool.
From Stdlib Require Import Sorting.Sorted Sorting.Permutation.
From Stdlib Require Import Floats.SpecFloat.
From stdpp Require Import base list sorting.

Local Open Scope Z_scope.

(** ** binary32 and binary64 arithmetic *)

Module F32.

Definition prec : Z := 24.
Definition emax : Z := 128.

Definition t := spec_float.

(** [static_cast<float>(n)] for an [int] n: round to nearest, ties to even. *)
Definition of_int (n : Z) : t := binary_normalize prec emax n 0 false.

(** [static_cast<float>(d)] for a [double] d. *)
Definition of_double (d : spec_float) : t :=
  match d with
  | S754_finite s m e => binary_round prec emax s m e
  | _ => d
  end.

Definition mul : t -> t -> t := SFmul prec emax.
Definition sub : t -> t -> t := SFsub prec emax.
Definition div : t -> t -> t := SFdiv prec emax.

Definition zero : t := S754_zero false.

(** The comparison operators of C++ on two operands of the same
    floating-point type; every one of them is false as soon as an operand is
    a NaN. *)
Definition lt (a b : t) : bool := SFltb a b.
Definition gt (a b : t) : bool := SFltb b a.
Definition ge (a b : t) : bool := SFleb b a.
Definition le (a b : t) : bool := SFleb a b.

(** The conversion of a [float] to [double], which is exact: the same number
    with the mantissa and the exponent of the wider format. *)
Definition to_double (x : t) : spec_float :=
  match x with
  | S754_finite s m e => binary_round 53 1024 s m e
  | _ => x
  end.

Definition is_nan (a : t) : bool :=
  match a with S754_nan => true | _ => false end.

(** [std::min(a, b)] is [(b < a) ? b : a] and [std::max(a, b)] is
    [(a < b) ? b : a]. *)
Definition std_min (a b : t) : t := if lt b a then b else a.
Definition std_max (a b : t) : t := if lt a b then b else a.

(** The integer part of [m * 2^e], towards zero, for a positive mantissa. *)
Definition trunc_mag (m : positive) (e : Z) : Z :=
  match e with
  | Zneg p => Z.shiftr (Zpos m) (Zpos p)
  | _ => Z.shiftl (Zpos m) e
  end.

(** [static_cast<int>(x)]: truncation towards zero.  The conversion of a
    NaN, an infinity or a value outside the range of [int] is undefined in
    C++; the model yields the mathematical integer part for every finite
    value and 0 for NaN and the infinities. *)
Definition to_int (x : t) : Z :=
  match x with
  | S754_finite s m e => if s then - trunc_mag m e else trunc_mag m e
  | _ => 0
  end.

(** [std::round(x)]: nearest integer, halfway cases away from zero. *)
Definition round (x : t) : t :=
  match x with
  | S754_finite s m e =>
      match e with
      | Zneg p =>
          let q := Z.shiftr (Zpos m) (Zpos p) in
          let half := Z.testbit (Zpos m) (Zpos p - 1) in
          let n := if half then q + 1 else q in
          binary_normalize prec emax (if s then - n else n) 0 s
      | _ => x
      end
  | _ => x
  end.

(** The value stored in the 32 bits [w] of a [float] object. *)
Definition of_bits (w : Z) : t :=
  let s := Z.testbit w 31 in
  let ex := Z.land (Z.shiftr w 23) 255 in
  let mant := Z.land w (Z.ones 23) in
  if ex =? 255 then (if mant =? 0 then S754_infinity s else S754_nan)
  else if ex =? 0 then
    match mant with
    | Zpos m => S754_finite s m (-149)
    | _ => S754_zero s
    end
  else
    match Z.lor mant (Z.shiftl 1 23) with
    | Zpos m => S754_finite s m (ex - 150)
    | _ => S754_zero s
    end.

(** The rational number denoted by a finite value (0 for the others). *)
Definition to_Q (x : t) : Q :=
  match x with
  | S754_finite s m e =>
      let mag := match e with
                 | Zneg p => Qmake (Zpos m) (2 ^ p)
                 | _ => inject_Z (Zpos m * 2 ^ e)
                 end in
      if s then Qopp mag else mag
  | _ => 0%Q
  end.

End F32.

Module F64.
Definition prec : Z := 53.
Definition emax : Z := 1024.
Definition of_int (n : Z) : spec_float := binary_normalize prec emax n 0 false.
Definition div : spec_float -> spec_float -> spec_float := SFdiv prec emax.
Definition lt (a b : spec_float) : bool := SFltb a b.
End F64.

(** ** Tensor storage and the dequantizer *)

(** Modelled from the spec: the [TfLiteType] enumeration of the TensorFlow
    Lite C header, which is not among the sources.  The spec distinguishes
    8-bit unsigned quantized storage, real-valued (float) storage and "any
    other storage kind"; [kTfLiteOther n] stands for the enumerator with
    number [n] among the remaining ones. *)
Inductive TfLiteType : Type :=
  | kTfLiteUInt8
  | kTfLiteFloat32
  | kTfLiteOther (n : Z).

(** Raw tensor memory: the bytes behind a [void *], each in 0..255. *)
Definition buffer := list Z.

(** [static_cast<uint8_t*>(data)[idx]].  A read past the end of the buffer
    is undefined in the source; the model reads 0 there. *)
Definition load_u8 (data : buffer) (idx : Z) : Z :=
  default 0 (data !! Z.to_nat idx).

(** [static_cast<float*>(data)[idx]]: four bytes, least significant first. *)
Definition load_f32 (data : buffer) (idx : Z) : F32.t :=
  F32.of_bits (load_u8 data (4 * idx)
               + Z.shiftl (load_u8 data (4 * idx + 1)) 8
               + Z.shiftl (load_u8 data (4 * idx + 2)) 16
               + Z.shiftl (load_u8 data (4 * idx + 3)) 24).

Definition get_dequant_value (data : buffer) (tensor_type : TfLiteType)
    (idx : Z) (zero_point scale : F32.t) : F32.t :=
  match tensor_type with
  | kTfLiteUInt8 =>
      F32.mul (F32.sub (F32.of_int (load_u8 data idx)) zero_point) scale
  | kTfLiteFloat32 => load_f32 data idx
  | kTfLiteOther _ => F32.zero
  end.

(** The decimal literal [n / 10^k] as a binary32 value; it is the nearest
    one whenever [n] and [10^k] are representable. *)
Definition f32_decimal (n : Z) (k : Z) : F32.t :=
  F32.div (F32.of_int n) (F32.of_int (10 ^ k)).

Definition f64_decimal (n : Z) (k : Z) : spec_float :=
  F64.div (F64.of_int n) (F64.of_int (10 ^ k)).

(** ** Boxes, detections and intersection over union *)

Record BoxRect : Type := mkBoxRect {
  left : Z;
  right : Z;
  top : Z;
  bottom : Z
}.

Record DetectionResult : Type := mkDetectionResult {
  id : Z;
  box : BoxRect;
  confidence : F32.t
}.

(** [int] is 32 bits wide.  Signed overflow is undefined in C++; the model
    writes out the two's complement wrap-around of the compiled code. *)
Definition wrap32 (z : Z) : Z := (z + 2 ^ 31) mod 2 ^ 32 - 2 ^ 31.

Definition int_sub (a b : Z) : Z := wrap32 (a - b).
Definition int_add (a b : Z) : Z := wrap32 (a + b).
Definition int_mul (a b : Z) : Z := wrap32 (a * b).

Definition calculateIoU (box1 box2 : BoxRect) : F32.t :=
  let x1 := Z.max (left box1) (left box2) in
  let y1 := Z.max (top box1) (top box2) in
  let x2 := Z.min (right box1) (right box2) in
  let y2 := Z.min (bottom box1) (bottom box2) in
  if (x2 <=? x1) || (y2 <=? y1) then F32.zero
  else
    let intersectionArea := int_mul (int_sub x2 x1) (int_sub y2 y1) in
    let area1 :=
      int_mul (int_sub (right box1) (left box1))
              (int_sub (bottom box1) (top box1)) in
    let area2 :=
      int_mul (int_sub (right box2) (left box2))
              (int_sub (bottom box2) (top box2)) in
    F32.div (F32.of_int intersectionArea)
            (F32.of_int (int_sub (int_add area1 area2) intersectionArea)).

(** ** Non-maximum suppression *)

(** The comparator handed to [std::sort]. *)
Definition comp (a b : DetectionResult) : bool :=
  F32.gt (confidence a) (confidence b).

(** The inner loop body at index [j], for the accepted candidate
    [currentBox]. *)
Definition nms_inner_body (candidates : list DetectionResult)
    (nmsThreshold : F32.t) (currentBox : DetectionResult)
    (suppressed : list bool) (j : nat) : list bool :=
  match candidates !! j, suppressed !! j with
  | Some cj, Some sj =>
      if sj || negb (id cj =? id currentBox) then suppressed
      else if F32.gt (calculateIoU (box currentBox) (box cj)) nmsThreshold
           then <[j := true]> suppressed
           else suppressed
  | _, _ => suppressed
  end.

(** The outer loop body at index [i]; the state is the pair of [results]
    and [suppressed]. *)
Definition nms_outer_body (candidates : list DetectionResult)
    (nmsThreshold : F32.t) (st : list DetectionResult * list bool)
    (i : nat) : list DetectionResult * list bool :=
  match candidates !! i, st.2 !! i with
  | Some ci, Some false =>
      (st.1 ++ [ci],
       foldl (nms_inner_body candidates nmsThreshold ci) st.2
             (seq (S i) (length candidates - S i)))
  | _, _ => st
  end.

(** The two nested loops over the sorted vector. *)
Definition nms_loops (candidates : list DetectionResult)
    (nmsThreshold : F32.t) : list DetectionResult :=
  (foldl (nms_outer_body candidates nmsThreshold)
         ([], replicate (length candidates) false)
         (seq 0 (length candidates))).1.

(** [optimizedNMS].  [std_sort] is the C++ library's [std::sort] with the
    comparator [comp], a parameter here: the theorems hold for every
    function that meets the contract of the C++ standard, and
    [libstdcxx_sort] below is the function of a build with g++.  The source
    sorts the caller's vector in place; [detect], the only caller, does not
    read it afterwards. *)
Definition optimizedNMS (std_sort : list DetectionResult -> list DetectionResult)
    (candidates : list DetectionResult) (nmsThreshold : F32.t)
    : list DetectionResult :=
  match candidates with
  | [] => []
  | _ => nms_loops (std_sort candidates) nmsThreshold
  end.

(** *** The same loops by recursion on the vector *)

(** Whether the accepted candidate [c] suppresses the later candidate [d]. *)
Definition suppresses (nmsThreshold : F32.t) (c d : DetectionResult) : bool :=
  (id d =? id c) && F32.gt (calculateIoU (box c) (box d)) nmsThreshold.

Fixpoint nms_rec (nmsThreshold : F32.t) (cs : list DetectionResult)
    (ss : list bool) : list DetectionResult :=
  match cs, ss with
  | c :: cs', s :: ss' =>
      if s then nms_rec nmsThreshold cs' ss'
      else c :: nms_rec nmsThreshold cs'
                  (zip_with (fun d s => s || suppresses nmsThreshold c d) cs' ss')
  | _, _ => []
  end.

(** Greedy selection without flags: keep the head, drop what it suppresses. *)
Fixpoint nms_keep_fuel (fuel : nat) (nmsThreshold : F32.t)
    (cs : list DetectionResult) : list DetectionResult :=
  match fuel, cs with
  | S fuel', c :: cs' =>
      c :: nms_keep_fuel fuel' nmsThreshold
             (List.filter (fun d => negb (suppresses nmsThreshold c d)) cs')
  | _, _ => []
  end.

Definition nms_keep (nmsThreshold : F32.t) (cs : list DetectionResult)
    : list DetectionResult :=
  nms_keep_fuel (length cs) nmsThreshold cs.


(** The candidates of [cs] whose flag in [ss] is still false. *)
Fixpoint unsuppressed (cs : list DetectionResult) (ss : list bool)
    : list DetectionResult :=
  match cs, ss with
  | c :: cs', s :: ss' =>
      if s then unsuppressed cs' ss' else c :: unsuppressed cs' ss'
  | _, _ => []
  end.

(** *** [std::sort] *)

(** Candidates whose confidence is a number.  On these the comparator is a
    strict weak ordering, which [std::sort] requires. *)
Definition no_nan (l : list DetectionResult) : Prop :=
  Forall (fun d => F32.is_nan (confidence d) = false) l.

(** What the C++ standard promises of [std::sort(first, last, comp)]: the
    range is permuted, and afterwards [comp] applied to a later and an
    earlier element, in this order, is false.  The order of equivalent
    elements is left open. *)
Definition std_sort_contract
    (std_sort : list DetectionResult -> list DetectionResult) : Prop :=
  forall l, no_nan l ->
    l ≡ₚ std_sort l /\ StronglySorted (fun a b => comp b a = false) (std_sort l).

(** Two sorting functions that meet the contract: insertion sort that keeps
    equivalent elements in their order, and insertion sort that reverses
    them. *)
Fixpoint insert_before_ties (x : DetectionResult) (l : list DetectionResult)
    : list DetectionResult :=
  match l with
  | [] => [x]
  | y :: l' => if comp y x then y :: insert_before_ties x l' else x :: l
  end.

Definition stable_sort (l : list DetectionResult) : list DetectionResult :=
  foldr insert_before_ties [] l.

Fixpoint insert_after_ties (x : DetectionResult) (l : list DetectionResult)
    : list DetectionResult :=
  match l with
  | [] => [x]
  | y :: l' => if comp x y then x :: l else y :: insert_after_ties x l'
  end.

Definition tie_reversing_sort (l : list DetectionResult) : list DetectionResult :=
  foldr insert_after_ties [] l.

(** *** [std::sort] of GNU libstdc++ *)

(** The source is built with g++, whose library implements [std::sort] in
    [bits/stl_algo.h] and [bits/stl_heap.h] as an introsort: quicksort with a
    median-of-three pivot on ranges of more than 16 elements, heap sort when
    the recursion gets too deep, and an insertion sort at the end.  The
    vector is a list, an iterator is an index into it.  The unguarded loops
    leave the vector only when [comp] is not a strict weak ordering; a
    comparison with an element outside the vector is false here, which ends
    the loop.  Every [while] loop has the length of the vector as its fuel
    and cannot use it up, since each round moves an index by at least one
    place within the vector. *)
Module libstdcxx.
Section sort.
Context {A : Type} (comp : A -> A -> bool).

Definition at_iter (v : list A) (i : Z) : option A :=
  if i <? 0 then None else v !! Z.to_nat i.

Definition assign (v : list A) (i : Z) (x : option A) : list A :=
  match x with
  | Some x => if i <? 0 then v else <[Z.to_nat i := x]> v
  | None => v
  end.

(** [comp] on two elements read through iterators, or on a held value
    and an element. *)
Definition comp_opt (x y : option A) : bool :=
  match x, y with
  | Some x, Some y => comp x y
  | _, _ => false
  end.

Definition comp_iter (v : list A) (i j : Z) : bool :=
  comp_opt (at_iter v i) (at_iter v j).

Definition iter_swap (v : list A) (i j : Z) : list A :=
  assign (assign v i (at_iter v j)) j (at_iter v i).

Definition move_median_to_first (v : list A) (result a b c : Z) : list A :=
  if comp_iter v a b then
    if comp_iter v b c then iter_swap v result b
    else if comp_iter v a c then iter_swap v result c
    else iter_swap v result a
  else if comp_iter v a c then iter_swap v result a
  else if comp_iter v b c then iter_swap v result c
  else iter_swap v result b.

(** [while (comp(first, pivot)) ++first;] *)
Fixpoint partition_up (fuel : nat) (v : list A) (first pivot : Z) : Z :=
  match fuel with
  | O => first
  | S fuel =>
      if comp_iter v first pivot then partition_up fuel v (first + 1) pivot
      else first
  end.

(** [while (comp(pivot, last)) --last;] *)
Fixpoint partition_down (fuel : nat) (v : list A) (last pivot : Z) : Z :=
  match fuel with
  | O => last
  | S fuel =>
      if comp_iter v pivot last then partition_down fuel v (last - 1) pivot
      else last
  end.

(** [__unguarded_partition]: the vector after the swaps and the cut. *)
Fixpoint unguarded_partition (fuel : nat) (v : list A) (first last pivot : Z)
    : list A * Z :=
  match fuel with
  | O => (v, first)
  | S fuel =>
      let first := partition_up (length v) v first pivot in
      let last := last - 1 in
      let last := partition_down (length v) v last pivot in
      if negb (first <? last) then (v, first)
      else unguarded_partition fuel (iter_swap v first last) (first + 1) last pivot
  end.

Definition unguarded_partition_pivot (v : list A) (first last : Z)
    : list A * Z :=
  let mid := first + Z.quot (last - first) 2 in
  let v := move_median_to_first v first (first + 1) mid (last - 1) in
  unguarded_partition (length v) v (first + 1) last first.

(** [__push_heap]; [value] is held outside the vector. *)
Fixpoint push_heap (fuel : nat) (v : list A) (first holeIndex topIndex : Z)
    (value : option A) : list A :=
  let parent := Z.quot (holeIndex - 1) 2 in
  match fuel with
  | O => assign v (first + holeIndex) value
  | S fuel =>
      if (topIndex <? holeIndex) && comp_opt (at_iter v (first + parent)) value
      then push_heap fuel
             (assign v (first + holeIndex) (at_iter v (first + parent)))
             first parent topIndex value
      else assign v (first + holeIndex) value
  end.

(** The [while] loop of [__adjust_heap]: the vector, [holeIndex] and
    [secondChild] after it. *)
Fixpoint adjust_heap_loop (fuel : nat) (v : list A)
    (first holeIndex secondChild len : Z) : list A * Z * Z :=
  match fuel with
  | O => (v, holeIndex, secondChild)
  | S fuel =>
      if secondChild <? Z.quot (len - 1) 2 then
        let secondChild := 2 * (secondChild + 1) in
        let secondChild :=
          if comp_iter v (first + secondChild) (first + (secondChild - 1))
          then secondChild - 1 else secondChild in
        let v := assign v (first + holeIndex) (at_iter v (first + secondChild)) in
        adjust_heap_loop fuel v first secondChild secondChild len
      else (v, holeIndex, secondChild)
  end.

Definition adjust_heap (v : list A) (first holeIndex len : Z)
    (value : option A) : list A :=
  let topIndex := holeIndex in
  let '(v, holeIndex, secondChild) :=
    adjust_heap_loop (length v) v first holeIndex holeIndex len in
  let '(v, holeIndex) :=
    if (Z.land len 1 =? 0) && (secondChild =? Z.quot (len - 2) 2) then
      let secondChild := 2 * (secondChild + 1) in
      (assign v (first + holeIndex) (at_iter v (first + (secondChild - 1))),
       secondChild - 1)
    else (v, holeIndex) in
  push_heap (length v) v first holeIndex topIndex value.

Definition pop_heap (v : list A) (first last result : Z) : list A :=
  let value := at_iter v result in
  let v := assign v result (at_iter v first) in
  adjust_heap v first 0 (last - first) value.

(** The [while (true)] loop of [__make_heap], from [parent] down to 0. *)
Fixpoint make_heap_loop (fuel : nat) (v : list A) (first parent len : Z)
    : list A :=
  match fuel with
  | O => v
  | S fuel =>
      let value := at_iter v (first + parent) in
      let v := adjust_heap v first parent len value in
      if parent =? 0 then v else make_heap_loop fuel v first (parent - 1) len
  end.

Definition make_heap (v : list A) (first last : Z) : list A :=
  if last - first <? 2 then v
  else
    let len := last - first in
    make_heap_loop (length v) v first (Z.quot (len - 2) 2) len.

(** [for (i = middle; i < last; ++i) if (comp(i, first)) __pop_heap(...)]. *)
Definition heap_select (v : list A) (first middle last : Z) : list A :=
  foldl (fun v i => if comp_iter v i first then pop_heap v first middle i else v)
        (make_heap v first middle) (seqZ middle (last - middle)).

Fixpoint sort_heap (fuel : nat) (v : list A) (first last : Z) : list A :=
  match fuel with
  | O => v
  | S fuel =>
      if last - first >? 1 then
        let last := last - 1 in
        sort_heap fuel (pop_heap v first last last) first last
      else v
  end.

Definition partial_sort (v : list A) (first middle last : Z) : list A :=
  sort_heap (length v) (heap_select v first middle last) first middle.

Definition S_threshold : Z := 16.

(** [__introsort_loop]: one unit of fuel for every round of the [while]
    loop and every recursive call, each of which lowers [depth_limit]. *)
Fixpoint introsort_loop (fuel : nat) (v : list A) (first last depth_limit : Z)
    : list A :=
  match fuel with
  | O => v
  | S fuel =>
      if last - first >? S_threshold then
        if depth_limit =? 0 then partial_sort v first last last
        else
          let depth_limit := depth_limit - 1 in
          let '(v, cut) := unguarded_partition_pivot v first last in
          let v := introsort_loop fuel v cut last depth_limit in
          introsort_loop fuel v first cut depth_limit
      else v
  end.

(** [__unguarded_linear_insert(last)]: the [while] loop with [val] held
    outside the vector, then the final assignment. *)
Fixpoint unguarded_linear_insert_loop (fuel : nat) (v : list A) (last : Z)
    (val : option A) : list A :=
  match fuel with
  | O => assign v last val
  | S fuel =>
      let next := last - 1 in
      if comp_opt val (at_iter v next)
      then unguarded_linear_insert_loop fuel (assign v last (at_iter v next))
             next val
      else assign v last val
  end.

Definition unguarded_linear_insert (v : list A) (last : Z) : list A :=
  unguarded_linear_insert_loop (length v) v last (at_iter v last).

(** [std::move_backward(first, i, i + 1)]: the elements from [first] up to
    [i - 1] move one place to the back, the last of them first. *)
Definition move_backward (v : list A) (first i : Z) : list A :=
  foldl (fun v k => assign v (i - k) (at_iter v (i - k - 1)))
        v (seqZ 0 (i - first)).

Definition insertion_sort_body (first : Z) (v : list A) (i : Z) : list A :=
  if comp_iter v i first then
    let val := at_iter v i in
    assign (move_backward v first i) first val
  else unguarded_linear_insert v i.

Definition insertion_sort (v : list A) (first last : Z) : list A :=
  if first =? last then v
  else foldl (insertion_sort_body first) v (seqZ (first + 1) (last - (first + 1))).

Definition unguarded_insertion_sort (v : list A) (first last : Z) : list A :=
  foldl unguarded_linear_insert v (seqZ first (last - first)).

Definition final_insertion_sort (v : list A) (first last : Z) : list A :=
  if last - first >? S_threshold then
    unguarded_insertion_sort
      (insertion_sort v first (first + S_threshold))
      (first + S_threshold) last
  else insertion_sort v first last.

(** [std::sort(v.begin(), v.end(), comp)]; [std::__lg] is the binary
    logarithm rounded down. *)
Definition sort (v : list A) : list A :=
  let first := 0 in
  let last := Z.of_nat (length v) in
  if first =? last then v
  else
    let depth_limit := Z.log2 (last - first) * 2 in
    let v := introsort_loop (S (Z.to_nat depth_limit)) v first last depth_limit in
    final_insertion_sort v first last.

End sort.
End libstdcxx.

(** [std::sort] as [optimizedNMS] calls it in a build with g++. *)
Definition libstdcxx_sort (l : list DetectionResult) : list DetectionResult :=
  libstdcxx.sort comp l.

(** The position of a floating-point number in the order of the comparison
    operators, as a triple compared lexicographically. *)
Definition rank (x : spec_float) : Z * Z * Z :=
  match x with
  | S754_nan => (0, 0, 0)
  | S754_zero _ => (0, 0, 0)
  | S754_infinity true => (-2, 0, 0)
  | S754_infinity false => (2, 0, 0)
  | S754_finite true m e => (-1, - e, Zneg m)
  | S754_finite false m e => (1, e, Zpos m)
  end.

Definition lex_compare (a b : Z * Z * Z) : comparison :=
  match a.1.1 ?= b.1.1 with
  | Eq => match a.1.2 ?= b.1.2 with
          | Eq => a.2 ?= b.2
          | c => c
          end
  | c => c
  end.

(** ** Tensor geometry *)

Record TfLiteQuantizationParams : Type := mkQuantizationParams {
  scale : F32.t;
  zero_point : Z
}.

Record TfLiteTensor : Type := mkTensor {
  tensor_type : TfLiteType;
  tensor_dims : list Z;
  tensor_params : TfLiteQuantizationParams;
  tensor_data : buffer
}.

(** [TfLiteTensorDim(tensor, i)]; 0 stands for the undefined read past the
    last dimension. *)
Definition TfLiteTensorDim (tensor : TfLiteTensor) (i : nat) : Z :=
  default 0 (tensor_dims tensor !! i).

Definition TfLiteTensorByteSize (tensor : TfLiteTensor) : Z :=
  Z.of_nat (length (tensor_data tensor)).

(** The three [int] objects behind the out-parameters [w], [h] and [c];
    [None] is an object that has not been written yet.  Both callers pass the
    addresses of uninitialised locals, so the null tests of the source always
    succeed. *)
Record image_dims : Type := mkImageDims {
  dim_w : option Z;
  dim_h : option Z;
  dim_c : option Z
}.

Definition uninitialised : image_dims := mkImageDims None None None.

(** The [for] loop of [tensor_image_dims] over the remaining dimensions:
    the final [cursor], or [None] for the early [return false], and in both
    cases the objects as the loop leaves them. *)
Fixpoint tensor_image_dims_loop (dims : list Z) (cursor : Z) (o : image_dims)
    : option Z * image_dims :=
  match dims with
  | [] => (Some cursor, o)
  | dim :: rest =>
      if dim =? 0 then (None, o)
      else if dim =? 1 then tensor_image_dims_loop rest cursor o
      else
        match cursor with
        | 0 => tensor_image_dims_loop rest (cursor + 1)
                 (mkImageDims (Some dim) (dim_h o) (dim_c o))
        | 1 => tensor_image_dims_loop rest (cursor + 1)
                 (mkImageDims (dim_w o) (Some dim) (dim_c o))
        | 2 => tensor_image_dims_loop rest (cursor + 1)
                 (mkImageDims (dim_w o) (dim_h o) (Some dim))
        | _ => (None, o)
        end
  end.

(** [tensor_image_dims]: the returned [bool] and the three objects after the
    call, also when it returns [false]. *)
Definition tensor_image_dims (tensor : TfLiteTensor) (o : image_dims)
    : bool * image_dims :=
  match tensor_image_dims_loop (tensor_dims tensor) 0 o with
  | (None, o1) => (false, o1)
  | (Some cursor, o1) =>
      if cursor <? 2 then (false, o1)
      else
        let o2 := if cursor =? 2
                  then mkImageDims (dim_w o1) (dim_h o1) (Some 1) else o1 in
        if default 0 (dim_c o2) >? 4 then (false, o2) else (true, o2)
  end.

(** The dimensions other than 1, in their order. *)
Definition non_singleton (dims : list Z) : list Z :=
  List.filter (fun dim => negb (dim =? 1)) dims.

(** The channel count that the scan resolves: the third non-singleton
    dimension, and 1 when there are only two. *)
Definition resolved_channels (dims : list Z) : Z :=
  match non_singleton dims with
  | [_; _; ch] => ch
  | _ => 1
  end.

(** The write of the [switch] for the value [cursor] had before its
    increment. *)
Definition write_dim (cursor dim : Z) (o : image_dims) : image_dims :=
  match cursor with
  | 0 => mkImageDims (Some dim) (dim_h o) (dim_c o)
  | 1 => mkImageDims (dim_w o) (Some dim) (dim_c o)
  | 2 => mkImageDims (dim_w o) (dim_h o) (Some dim)
  | _ => o
  end.

Fixpoint write_dims (cursor : Z) (ns : list Z) (o : image_dims) : image_dims :=
  match ns with
  | [] => o
  | dim :: ns' => write_dims (cursor + 1) ns' (write_dim cursor dim o)
  end.

(** ** Images and the letterbox *)

(** The element type of a [cv::Mat]; only 8-bit unsigned elements occur. *)
Inductive MatType : Type := CV_8UC (cn : Z).

Definition CV_8UC3 : MatType := CV_8UC 3.

Definition mat_channels (ty : MatType) : Z := match ty with CV_8UC cn => cn end.

(** A [cv::Mat]: its size, its element type and the byte at each row,
    column and channel. *)
Record Mat : Type := mkMat {
  rows : Z;
  cols : Z;
  mat_type : MatType;
  mat_at : Z -> Z -> Z -> Z
}.

(** The bytes behind [m.data] of a continuous matrix, row after row. *)
Definition mat_bytes (m : Mat) : buffer :=
  r ← seqZ 0 (rows m);
  c ← seqZ 0 (cols m);
  k ← seqZ 0 (mat_channels (mat_type m));
  [mat_at m r c k].

(** [cv::Mat(h, w, type, ptr)]: a matrix header over foreign memory. *)
Definition mat_of_buffer (h w : Z) (ty : MatType) (ptr : buffer) : Mat :=
  mkMat h w ty (fun r c k => load_u8 ptr ((r * w + c) * mat_channels ty + k)).

(** OpenCV is not among the sources.  Its functions check their arguments
    with [CV_Assert], and a failed assertion throws a [cv::Exception] with the
    code [StsAssert]; none of the callers here catches it. *)
Inductive cv_Exception : Type := StsAssert.

(** [m.empty()]: no row or no column.  A negative size, which only the
    narrowing of a dimension of 2^31 or more to [int] can produce, is
    rejected by the same assertions. *)
Definition mat_empty (m : Mat) : bool := (rows m <=? 0) || (cols m <=? 0).

(** [cv::Mat::zeros(cv::Size(w, h), type)]; a negative size fails the
    assertion of [cv::Mat::create]. *)
Definition mat_zeros (w h : Z) (ty : MatType) : Mat :=
  mkMat h w ty (fun _ _ _ => 0).

Definition Mat_zeros (w h : Z) (ty : MatType) : cv_Exception + Mat :=
  if (w <? 0) || (h <? 0) then inl StsAssert else inr (mat_zeros w h ty).

(** The pixels of [cv::cvtColor(src, dst, cv::COLOR_BGR2RGB)]: the first and
    the third channel change places. *)
Definition cvtColor_BGR2RGB (src : Mat) : Mat :=
  mkMat (rows src) (cols src) (mat_type src)
        (fun r c k => mat_at src r c (2 - k)).

(** [cv::cvtColor(src, dst, cv::COLOR_BGR2RGB)], which asserts that the
    source is not empty. *)
Definition cvtColor (src : Mat) : cv_Exception + Mat :=
  if mat_empty src then inl StsAssert else inr (cvtColor_BGR2RGB src).

(** [cv::resize(src, dst, cv::Size(w, h))]: it asserts that neither the
    source nor the requested size is empty.  The interpolation that yields
    the [w] columns and [h] rows of [dst] is the parameter [cv_resize]. *)
Definition resize_to (cv_resize : Mat -> Z -> Z -> Mat) (src : Mat) (w h : Z)
    : cv_Exception + Mat :=
  if mat_empty src || (w <=? 0) || (h <=? 0) then inl StsAssert
  else inr (cv_resize src w h).

(** The pixels of [src.copyTo(dst(cv::Rect(x, y, w, h)))]. *)
Definition copyTo_roi (src dst : Mat) (x y w h : Z) : Mat :=
  mkMat (rows dst) (cols dst) (mat_type dst)
        (fun r c k =>
           if (y <=? r) && (r <? y + h) && (x <=? c) && (c <? x + w)
           then mat_at src (r - y) (c - x) k
           else mat_at dst r c k).

(** [dst(cv::Rect(x, y, w, h))] asserts that the rectangle lies within
    [dst]. *)
Definition roi_within (dst : Mat) (x y w h : Z) : bool :=
  (0 <=? x) && (0 <=? w) && (x + w <=? cols dst)
  && (0 <=? y) && (0 <=? h) && (y + h <=? rows dst).

(** [src.copyTo(dst(cv::Rect(x, y, w, h)))]. *)
Definition copyTo (src dst : Mat) (x y w h : Z) : cv_Exception + Mat :=
  if roi_within dst x y w h then inr (copyTo_roi src dst x y w h)
  else inl StsAssert.

(** The numbers [letterbox] computes before it touches any pixel. *)
Record letterbox_geometry : Type := mkGeometry {
  lb_scale : F32.t;
  lb_new_w : Z;
  lb_new_h : Z;
  lb_top : Z;
  lb_left : Z
}.

Definition letterbox_geom (original_h original_w target_size : Z)
    : letterbox_geometry :=
  let scale :=
    F32.div (F32.of_int target_size) (F32.of_int (Z.max original_h original_w)) in
  let new_w := F32.to_int (F32.mul (F32.of_int original_w) scale) in
  let new_h := F32.to_int (F32.mul (F32.of_int original_h) scale) in
  let top := Z.quot (target_size - new_h) 2 in
  let left := Z.quot (target_size - new_w) 2 in
  mkGeometry scale new_w new_h top left.

(** Whether row [r] and column [c] of the canvas lie in the rectangle that
    receives the resized image. *)
Definition in_roi (g : letterbox_geometry) (r c : Z) : bool :=
  (lb_top g <=? r) && (r <? lb_top g + lb_new_h g)
  && (lb_left g <=? c) && (c <? lb_left g + lb_new_w g).

(** [letterbox]: the resize, the canvas and the copy, in the order of the
    source; the first assertion of OpenCV that fails ends the call. *)
Definition letterbox (cv_resize : Mat -> Z -> Z -> Mat) (img : Mat)
    (target_size : Z) : cv_Exception + Mat :=
  let g := letterbox_geom (rows img) (cols img) target_size in
  match resize_to cv_resize img (lb_new_w g) (lb_new_h g) with
  | inl e => inl e
  | inr resized =>
      match Mat_zeros target_size target_size (mat_type img) with
      | inl e => inl e
      | inr output =>
          copyTo resized output (lb_left g) (lb_top g) (lb_new_w g) (lb_new_h g)
      end
  end.

(** The images and target sizes on which an assertion of OpenCV fails in
    [letterbox]: an empty image or an empty scaled size in [cv::resize], a
    negative canvas size, or a rectangle that leaves the canvas. *)
Definition letterbox_throws (original_h original_w target_size : Z) : bool :=
  let g := letterbox_geom original_h original_w target_size in
  (original_h <=? 0) || (original_w <=? 0)
  || (lb_new_w g <=? 0) || (lb_new_h g <=? 0)
  || (target_size <? 0)
  || negb ((0 <=? lb_left g) && (lb_left g + lb_new_w g <=? target_size)
           && (0 <=? lb_top g) && (lb_top g + lb_new_h g <=? target_size)).

(** The geometry in the words of the specification, which rounds the
    scaled sizes to the nearest integer. *)
Definition spec_letterbox_new_size (original_h original_w target_size : Z)
    : Z * Z :=
  let scale :=
    F32.div (F32.of_int target_size) (F32.of_int (Z.max original_h original_w)) in
  (F32.to_int (F32.round (F32.mul (F32.of_int original_w) scale)),
   F32.to_int (F32.round (F32.mul (F32.of_int original_h) scale))).

(** ** The detector *)

(** [py::buffer_info] of the image argument: its shape and its bytes. *)
Record buffer_info : Type := mkBufferInfo {
  shape : list Z;
  ptr : buffer
}.

Definition ndim (buf : buffer_info) : Z := Z.of_nat (length (shape buf)).

(** The part of a [TfLiteInterpreter] that [detect] uses: the input tensor
    0 and [TfLiteInterpreterInvoke], which maps the filled input tensor to
    the output tensors 0, 1 and 2, or fails. *)
Record TfLiteInterpreter : Type := mkInterpreter {
  input_tensor : TfLiteTensor;
  invoke : TfLiteTensor -> option (TfLiteTensor * TfLiteTensor * TfLiteTensor)
}.

(** The exceptions that leave [detect]: the three [std::runtime_error]s it
    throws itself and the [cv::Exception] of an OpenCV call. *)
Inductive detect_error : Type :=
  | Image_must_be_3_dimensional
  | Invalid_input_tensor_shape
  | Interpreter_invocation_failed
  | OpenCV_error (e : cv_Exception).

(** [std::memcpy(dst, src, n)] into the memory of a tensor.  Copying more
    bytes than [src] holds is undefined in the source; the model reads 0
    past the end, as [load_u8] does. *)
Definition memcpy (dst src : buffer) (n : Z) : buffer :=
  (load_u8 src <$> seqZ 0 n) ++ drop (Z.to_nat n) dst.

(** Lines 270 to 279 of [detect]: colour conversion, letterbox and the copy
    into the input tensor.  The result is the input tensor after the copy,
    unless OpenCV throws before. *)
Definition detect_fill_input (cv_resize : Mat -> Z -> Z -> Mat)
    (input : TfLiteTensor) (buf_ptr : buffer) (img_h img_w in_w in_h : Z)
    : cv_Exception + TfLiteTensor :=
  let img_mat := mat_of_buffer img_h img_w CV_8UC3 buf_ptr in
  match cvtColor img_mat with
  | inl e => inl e
  | inr rgb =>
      match (if negb (img_w =? in_w) || negb (img_h =? in_h)
             then letterbox cv_resize img_mat in_w
             else inr img_mat) with
      | inl e => inl e
      | inr img_mat =>
          inr (mkTensor (tensor_type input) (tensor_dims input)
                 (tensor_params input)
                 (memcpy (tensor_data input) (mat_bytes rgb)
                    (TfLiteTensorByteSize input)))
      end
  end.

(** One coordinate of a box: dequantize, then clamp into [0, bound]. *)
Definition dequant_coord (raw_u8 : Z) (boxesParams : TfLiteQuantizationParams)
    : F32.t :=
  get_dequant_value [raw_u8] kTfLiteUInt8 0
    (F32.of_int (zero_point boxesParams)) (scale boxesParams).

Definition clamp (x : F32.t) (bound : Z) : F32.t :=
  F32.std_max F32.zero (F32.std_min x (F32.of_int bound)).

(** The body of the candidate loop at index [i]. *)
Definition detect_candidate_body (boxesTensor scoresTensor classesTensor : TfLiteTensor)
    (img_w img_h : Z) (box_threshold : spec_float)
    (candidateResults : list DetectionResult) (i : Z) : list DetectionResult :=
  let boxesParams := tensor_params boxesTensor in
  let scoresParams := tensor_params scoresTensor in
  let boxesData := tensor_data boxesTensor in
  let scoresData := tensor_data scoresTensor in
  let classesData := tensor_data classesTensor in
  let score := get_dequant_value scoresData kTfLiteUInt8 i
                 (F32.of_int (zero_point scoresParams)) (scale scoresParams) in
  if F64.lt (F32.to_double score) box_threshold then candidateResults
  else
    let classId := load_u8 classesData i in
    let raw_x_1_u8 := load_u8 boxesData (i * 4 + 0) in
    let raw_y_1_u8 := load_u8 boxesData (i * 4 + 1) in
    let raw_x_2_u8 := load_u8 boxesData (i * 4 + 2) in
    let raw_y_2_u8 := load_u8 boxesData (i * 4 + 3) in
    let x1 := dequant_coord raw_x_1_u8 boxesParams in
    let y1 := dequant_coord raw_y_1_u8 boxesParams in
    let x2 := dequant_coord raw_x_2_u8 boxesParams in
    let y2 := dequant_coord raw_y_2_u8 boxesParams in
    let clamped_x1 := clamp x1 img_w in
    let clamped_y1 := clamp y1 img_h in
    let clamped_x2 := clamp x2 img_w in
    let clamped_y2 := clamp y2 img_h in
    if F32.ge clamped_x1 clamped_x2 || F32.ge clamped_y1 clamped_y2
    then candidateResults
    else
      let box :=
        {| left := F32.to_int (F32.round clamped_x1);
           top := F32.to_int (F32.round clamped_y1);
           right := F32.to_int (F32.round clamped_x2);
           bottom := F32.to_int (F32.round clamped_y2) |} in
      candidateResults ++ [mkDetectionResult classId box score].

(** The candidate loop, [i] from 0 to [numBoxes - 1]. *)
Definition detect_candidates (boxesTensor scoresTensor classesTensor : TfLiteTensor)
    (img_w img_h : Z) (box_threshold : spec_float) : list DetectionResult :=
  let numBoxes := TfLiteTensorDim boxesTensor 1 in
  foldl (detect_candidate_body boxesTensor scoresTensor classesTensor
           img_w img_h box_threshold)
        [] (seqZ 0 numBoxes).

(** [RubikDetector::detect].  [box_threshold] and [nms_threshold] are
    [double]s; the dimensions of the image are narrowed to [int]. *)
Definition detect (std_sort : list DetectionResult -> list DetectionResult)
    (cv_resize : Mat -> Z -> Z -> Mat) (interpreter : TfLiteInterpreter)
    (image : buffer_info) (box_threshold nms_threshold : spec_float)
    : detect_error + list DetectionResult :=
  match shape image with
  | [shape_0; shape_1; shape_2] =>
      let img_h := wrap32 shape_0 in
      let img_w := wrap32 shape_1 in
      let img_c := wrap32 shape_2 in
      let input := input_tensor interpreter in
      match tensor_image_dims input uninitialised with
      | (true, {| dim_w := Some in_w; dim_h := Some in_h; dim_c := Some in_c |}) =>
          match detect_fill_input cv_resize input (ptr image)
                  img_h img_w in_w in_h with
          | inl e => inl (OpenCV_error e)
          | inr input =>
              match invoke interpreter input with
              | None => inl Interpreter_invocation_failed
              | Some (boxesTensor, scoresTensor, classesTensor) =>
                  let candidateResults :=
                    detect_candidates boxesTensor scoresTensor classesTensor
                      img_w img_h box_threshold in
                  inr (optimizedNMS std_sort candidateResults
                         (F32.of_double nms_threshold))
              end
          end
      | _ => inl Invalid_input_tensor_shape
      end
  | _ => inl Image_must_be_3_dimensional
  end.

(** The candidate loop in the words of the specification: every value is
    decoded according to the storage kind of the tensor it is read from. *)
Definition spec_candidate_body (boxesTensor scoresTensor classesTensor : TfLiteTensor)
    (img_w img_h : Z) (box_threshold : spec_float)
    (candidateResults : list DetectionResult) (i : Z) : list DetectionResult :=
  let boxesParams := tensor_params boxesTensor in
  let scoresParams := tensor_params scoresTensor in
  let coord k :=
    get_dequant_value (tensor_data boxesTensor) (tensor_type boxesTensor)
      (i * 4 + k) (F32.of_int (zero_point boxesParams)) (scale boxesParams) in
  let score :=
    get_dequant_value (tensor_data scoresTensor) (tensor_type scoresTensor) i
      (F32.of_int (zero_point scoresParams)) (scale scoresParams) in
  if F64.lt (F32.to_double score) box_threshold then candidateResults
  else
    let classId := load_u8 (tensor_data classesTensor) i in
    let clamped_x1 := clamp (coord 0) img_w in
    let clamped_y1 := clamp (coord 1) img_h in
    let clamped_x2 := clamp (coord 2) img_w in
    let clamped_y2 := clamp (coord 3) img_h in
    if F32.ge clamped_x1 clamped_x2 || F32.ge clamped_y1 clamped_y2
    then candidateResults
    else
      let box :=
        {| left := F32.to_int (F32.round clamped_x1);
           top := F32.to_int (F32.round clamped_y1);
           right := F32.to_int (F32.round clamped_x2);
           bottom := F32.to_int (F32.round clamped_y2) |} in
      candidateResults ++ [mkDetectionResult classId box score].

Definition spec_candidates (boxesTensor scoresTensor classesTensor : TfLiteTensor)
    (img_w img_h : Z) (box_threshold : spec_float) : list DetectionResult :=
  foldl (spec_candidate_body boxesTensor scoresTensor classesTensor
           img_w img_h box_threshold)
        [] (seqZ 0 (TfLiteTensorDim boxesTensor 1)).


(** ** Concrete inputs *)

(** The thresholds that [detect] takes by default. *)
Definition default_box_threshold : spec_float := f64_decimal 5 1.
Definition default_nms_threshold : spec_float := f64_decimal 45 2.

(** Two detections on the same box, of classes 1 and 2, with the same
    confidence 0.5. *)
Definition tie_a : DetectionResult :=
  mkDetectionResult 1 (mkBoxRect 0 10 0 10) (f32_decimal 5 1).
Definition tie_b : DetectionResult :=
  mkDetectionResult 2 (mkBoxRect 0 10 0 10) (f32_decimal 5 1).

(** Seventeen detections of the classes 0 to 16 on the same box, all with
    the confidence 0.5. *)
Definition seventeen_ties : list DetectionResult :=
  (fun k => mkDetectionResult k (mkBoxRect 0 10 0 10) (f32_decimal 5 1))
    <$> seqZ 0 17.


(** Three detections of decreasing confidence: the second lies inside the
    first (intersection over union 0.7) and has its class, the third is of
    another class. *)
Definition lone_class_4 : DetectionResult :=
  mkDetectionResult 4 (mkBoxRect 0 10 0 10) (f32_decimal 5 1).

Definition three_candidates : list DetectionResult :=
  [ mkDetectionResult 3 (mkBoxRect 0 10 0 7) (f32_decimal 6 1);
    lone_class_4;
    mkDetectionResult 3 (mkBoxRect 0 10 0 10) (f32_decimal 9 1) ].

(** The same tensor declared with another storage kind. *)
Definition with_type (ty : TfLiteType) (t : TfLiteTensor) : TfLiteTensor :=
  mkTensor ty (tensor_dims t) (tensor_params t) (tensor_data t).

(** An interpreter whose invocation succeeds with the given output tensors. *)
Definition interpreter_with (input : TfLiteTensor)
    (outputs : TfLiteTensor * TfLiteTensor * TfLiteTensor) : TfLiteInterpreter :=
  mkInterpreter input (fun _ => Some outputs).

(** A quantized model input of 4 by 4 pixels with 3 channels, and images of
    4 by 4 and of 2 rows by 8 columns whose bytes are all 255. *)
Definition input_4x4 : TfLiteTensor :=
  mkTensor kTfLiteUInt8 [1; 4; 4; 3]
           (mkQuantizationParams (f32_decimal 392157 8) 0) (replicate 48 0).

Definition image_4x4 : buffer_info := mkBufferInfo [4; 4; 3] (replicate 48 255).
Definition image_2x8 : buffer_info := mkBufferInfo [2; 8; 3] (replicate 48 255).

(** A model input of 640 by 640 pixels and an image of one row and 1000
    columns, whose scaled height 0.64 truncates to 0. *)
Definition input_640x640 : TfLiteTensor :=
  mkTensor kTfLiteUInt8 [1; 640; 640; 3]
           (mkQuantizationParams (f32_decimal 392157 8) 0) [].

Definition image_1x1000 : buffer_info :=
  mkBufferInfo [1; 1000; 3] (replicate 3000 255).

(** A resize that repeats the nearest pixel above and to the left. *)
Definition nearest_resize (src : Mat) (w h : Z) : Mat :=
  mkMat h w (mat_type src)
        (fun r c k => mat_at src (r * rows src / h) (c * cols src / w) k).

(** Quantized outputs with one box: score 255/256, class 7, and the
    coordinates 1.0, 1.0, 1.25, 1.25 at a scale of a quarter pixel. *)
Definition thin_boxes : TfLiteTensor :=
  mkTensor kTfLiteUInt8 [1; 1; 4]
           (mkQuantizationParams (f32_decimal 25 2) 0) [4; 4; 5; 5].
Definition thin_scores : TfLiteTensor :=
  mkTensor kTfLiteUInt8 [1; 1]
           (mkQuantizationParams (f32_decimal 390625 8) 0) [255].
Definition thin_classes : TfLiteTensor :=
  mkTensor kTfLiteUInt8 [1; 1] (mkQuantizationParams F32.zero 0) [7].

(** Float outputs with one box: the score 0.9, the coordinates 1.0, 1.0,
    3.0, 3.0 and the class 0.0, each as the four bytes of a [float]; a
    tensor that is not quantized carries scale 0 and zero point 0. *)
Definition float_boxes : TfLiteTensor :=
  mkTensor kTfLiteFloat32 [1; 1; 4] (mkQuantizationParams F32.zero 0)
           [0; 0; 128; 63;  0; 0; 128; 63;  0; 0; 64; 64;  0; 0; 64; 64].
Definition float_scores : TfLiteTensor :=
  mkTensor kTfLiteFloat32 [1; 1] (mkQuantizationParams F32.zero 0)
           [102; 102; 102; 63].
Definition float_classes : TfLiteTensor :=
  mkTensor kTfLiteFloat32 [1; 1] (mkQuantizationParams F32.zero 0)
           [0; 0; 0; 0].

(** ** The other members of [RubikDetector] *)

(** The [std::runtime_error] thrown by [get_input_shape]. *)
Inductive shape_error : Type := Failed_to_get_input_dimensions.

(** [RubikDetector::get_input_shape]: the tuple is built in the order
    [h], [w], [c]. *)
Definition get_input_shape (interpreter : TfLiteInterpreter)
    : shape_error + (Z * Z * Z) :=
  match tensor_image_dims (input_tensor interpreter) uninitialised with
  | (true, {| dim_w := Some w; dim_h := Some h; dim_c := Some c |}) =>
      inr (h, w, c)
  | _ => inl Failed_to_get_input_dimensions
  end.

(** The input tensor as [detect] hands it to [TfLiteInterpreterInvoke], when
    the two checks before the copy pass and OpenCV throws nothing. *)
Definition detect_invoked_input (cv_resize : Mat -> Z -> Z -> Mat)
    (interpreter : TfLiteInterpreter) (image : buffer_info)
    : option TfLiteTensor :=
  match shape image with
  | [shape_0; shape_1; shape_2] =>
      match tensor_image_dims (input_tensor interpreter) uninitialised with
      | (true, {| dim_w := Some in_w; dim_h := Some in_h; dim_c := Some in_c |}) =>
          match detect_fill_input cv_resize (input_tensor interpreter)
                  (ptr image) (wrap32 shape_0) (wrap32 shape_1) in_w in_h with
          | inr input => Some input
          | inl _ => None
          end
      | _ => None
      end
  | _ => None
  end.

(** Whether an OpenCV call of [detect] throws for an image of [img_h] rows
    and [img_w] columns and a model input of [in_w] by [in_h]: the colour
    conversion of an empty image, or the letterbox of an image of another
    size than the input. *)
Definition detect_opencv_throws (img_h img_w in_w in_h : Z) : bool :=
  (img_h <=? 0) || (img_w <=? 0)
  || ((negb (img_w =? in_w) || negb (img_h =? in_h))
      && letterbox_throws img_h img_w in_w).

(** What one round of the candidate loop appends: nothing or one
    detection. *)
Definition detect_emit (boxesTensor scoresTensor classesTensor : TfLiteTensor)
    (img_w img_h : Z) (box_threshold : spec_float) (i : Z)
    : list DetectionResult :=
  detect_candidate_body boxesTensor scoresTensor classesTensor
    img_w img_h box_threshold [] i.

(** Memory whose elements are bytes. *)
Definition bytes_ok (data : buffer) : Prop :=
  Forall (fun b => 0 <= b < 256) data.

(** A detection of class 3 with the confidence 0.9, a detection of class 3
    on a box apart from it, and a detection whose confidence is a NaN. *)
Definition best_class_3 : DetectionResult :=
  mkDetectionResult 3 (mkBoxRect 0 10 0 10) (f32_decimal 9 1).
Definition far_class_3 : DetectionResult :=
  mkDetectionResult 3 (mkBoxRect 20 30 0 10) (f32_decimal 5 1).
Definition nan_candidate : DetectionResult :=
  mkDetectionResult 0 (mkBoxRect 0 1 0 1) S754_nan.

(** Quantized outputs with two boxes of class 7 that touch in one corner:
    the coordinates 0, 0, 2, 2 with the score 200/256 and 2, 2, 4, 4 with
    the score 255/256. *)
Definition pair_boxes : TfLiteTensor :=
  mkTensor kTfLiteUInt8 [1; 2; 4]
           (mkQuantizationParams (f32_decimal 25 2) 0)
           [0; 0; 8; 8; 8; 8; 16; 16].
Definition pair_scores : TfLiteTensor :=
  mkTensor kTfLiteUInt8 [1; 2]
           (mkQuantizationParams (f32_decimal 390625 8) 0) [200; 255].
Definition pair_classes : TfLiteTensor :=
  mkTensor kTfLiteUInt8 [1; 2] (mkQuantizationParams F32.zero 0) [7; 7].

(** A box inside the square from 0 to [B] in both directions. *)
Definition box_within (B : Z) (a : BoxRect) : Prop :=
  0 <= left a /\ right a <= B /\ 0 <= top a /\ bottom a <= B.

(** ** Signs and NaNs of rounded results *)

(** The results that are neither a NaN nor negative. *)
Definition nonneg_float (x : spec_float) : Prop :=
  match x with
  | S754_nan => False
  | S754_zero _ => True
  | S754_infinity s | S754_finite s _ _ => s = false
  end.

(** A scale that is a finite number. *)
Definition finite_scale (params : TfLiteQuantizationParams) : Prop :=
  match scale params with
  | S754_finite _ _ _ => True
  | _ => False
  end.

(** Output tensors as a quantized model yields them: the scores and the
    class ids are bytes and the scale of the scores is a finite number. *)
Definition quantized_outputs (interpreter : TfLiteInterpreter) : Prop :=
  forall t b s c,
    invoke interpreter t = Some (b, s, c) ->
    bytes_ok (tensor_data s) /\ bytes_ok (tensor_data c)
    /\ finite_scale (tensor_params s).

(** ** Numbers of the binary32 format *)

(** A finite value whose mantissa and exponent are those of the binary32
    format. *)
Definition canonical32 (x : spec_float) : Prop :=
  match x with
  | S754_finite _ m e => canonical_mantissa F32.prec F32.emax m e = true
  | _ => True
  end.

(** The scale of the boxes tensor is a binary32 value, as every [float]
    object is. *)
Definition binary32_box_scale (interpreter : TfLiteInterpreter) : Prop :=
  forall t b s c,
    invoke interpreter t = Some (b, s, c) ->
    canonical32 (scale (tensor_params b)).

(** * Properties *)

(** ** Subsequences and pairwise relations *)

Section list_facts.
Context {A : Type}.

Lemma Forall_sublist (P : A -> Prop) (l k : list A) :
  l `sublist_of` k -> Forall P k -> Forall P l.
Proof.
  intros Hsub Hk. apply Forall_forall. intros x Hx.
  rewrite Forall_forall in Hk. eapply Hk, elem_of_sublist; eassumption.
Qed.

Lemma StronglySorted_sublist (R : A -> A -> Prop) (l k : list A) :
  l `sublist_of` k -> StronglySorted R k -> StronglySorted R l.
Proof.
  induction 1 as [|x l k Hsub IH|x l k Hsub IH]; intros Hk.
  - constructor.
  - apply StronglySorted_cons in Hk as [Hx Hk].
    constructor; [auto | eapply Forall_sublist; eassumption].
  - apply StronglySorted_cons in Hk as [_ Hk]. auto.
Qed.

Lemma StronglySorted_Permutation (R : A -> A -> Prop) (l k : list A) :
  (forall x y, R x y -> R y x) ->
  l ≡ₚ k -> StronglySorted R l -> StronglySorted R k.
Proof.
  intros Hsym. induction 1 as [|x l k Hp IH|x y l|l k m _ IH1 _ IH2]; intros Hl.
  - constructor.
  - apply StronglySorted_cons in Hl as [Hx Hl].
    constructor; [auto | by rewrite <- Hp].
  - apply StronglySorted_cons in Hl as [Hy Hl].
    apply StronglySorted_cons in Hl as [Hx Hl].
    apply Forall_cons in Hy as [Hyx Hy].
    repeat constructor; auto.
  - auto.
Qed.

End list_facts.

(** ** The nested loops compute the greedy selection *)

Section nms_refinement.
Variable thr : F32.t.

Lemma nms_inner_loop cands c : forall post pre sp ss,
  cands = pre ++ post ->
  length sp = length pre ->
  length ss = length post ->
  foldl (nms_inner_body cands thr c) (sp ++ ss)
        (seq (length pre) (length post))
  = sp ++ zip_with (fun d s => s || suppresses thr c d) post ss.
Proof.
  induction post as [|d post IH]; intros pre sp ss Hc Hsp Hss.
  - destruct ss; [reflexivity | discriminate].
  - destruct ss as [|s ss]; [discriminate|].
    cbn [length seq foldl zip_with].
    assert (Hd : cands !! length pre = Some d)
      by (subst cands; apply list_lookup_middle; reflexivity).
    assert (Hs : (sp ++ s :: ss) !! length pre = Some s)
      by (apply list_lookup_middle; congruence).
    assert (Hstep : nms_inner_body cands thr c (sp ++ s :: ss) (length pre)
                    = sp ++ (s || suppresses thr c d) :: ss).
    { unfold nms_inner_body, suppresses. rewrite Hd, Hs.
      destruct s; cbn [orb]; [reflexivity|].
      destruct (id d =? id c); cbn [negb andb]; [|reflexivity].
      destruct (F32.gt _ _); [|reflexivity].
      rewrite <- Hsp.
      rewrite <- (Nat.add_0_r (length sp)), insert_app_r. reflexivity. }
    rewrite Hstep.
    specialize (IH (pre ++ [d]) (sp ++ [s || suppresses thr c d]) ss).
    rewrite !length_app in IH. cbn [length] in IH.
    rewrite !Nat.add_1_r in IH. rewrite <- !app_assoc in IH.
    apply IH; [assumption | congruence | simpl in Hss; lia].
Qed.

Lemma nms_outer_loop cands : forall post pre sp ss res,
  cands = pre ++ post ->
  length sp = length pre ->
  length ss = length post ->
  (foldl (nms_outer_body cands thr) (res, sp ++ ss)
         (seq (length pre) (length post))).1
  = res ++ nms_rec thr post ss.
Proof.
  induction post as [|c post IH]; intros pre sp ss res Hc Hsp Hss.
  - destruct ss; [|discriminate]. simpl. symmetry. apply app_nil_r.
  - destruct ss as [|s ss]; [discriminate|].
    cbn [length seq foldl nms_rec].
    assert (Hd : cands !! length pre = Some c)
      by (subst cands; apply list_lookup_middle; reflexivity).
    assert (Hs : (sp ++ s :: ss) !! length pre = Some s)
      by (apply list_lookup_middle; congruence).
    assert (Hlen : (length cands - S (length pre))%nat = length post).
    { subst cands. rewrite length_app. simpl. lia. }
    unfold nms_outer_body at 2. cbn [fst snd]. rewrite Hd, Hs.
    destruct s.
    + specialize (IH (pre ++ [c]) (sp ++ [true]) ss res).
      rewrite !length_app in IH. cbn [length] in IH.
      rewrite !Nat.add_1_r in IH. rewrite <- !app_assoc in IH.
      apply IH; [assumption | congruence | simpl in Hss; lia].
    + rewrite Hlen.
      pose proof (nms_inner_loop cands c post (pre ++ [c]) (sp ++ [false]) ss)
        as Hin.
      rewrite !length_app in Hin. cbn [length] in Hin.
      rewrite !Nat.add_1_r in Hin. rewrite <- !app_assoc in Hin.
      cbn [app] in Hin.
      rewrite Hin; [| assumption | congruence | simpl in Hss; lia].
      specialize (IH (pre ++ [c]) (sp ++ [false])
                    (zip_with (fun d s => s || suppresses thr c d) post ss)
                    (res ++ [c])).
      rewrite !length_app in IH. cbn [length] in IH.
      rewrite !Nat.add_1_r in IH. rewrite <- !app_assoc in IH.
      cbn [app] in IH.
      rewrite IH; [reflexivity | assumption | congruence |].
      rewrite length_zip_with. simpl in Hss. lia.
Qed.

Lemma nms_loops_rec cands :
  nms_loops cands thr = nms_rec thr cands (replicate (length cands) false).
Proof.
  unfold nms_loops.
  apply (nms_outer_loop cands cands [] [] (replicate (length cands) false) []);
    [reflexivity | reflexivity | apply length_replicate].
Qed.

Lemma unsuppressed_zip_with c : forall cs ss,
  unsuppressed cs (zip_with (fun d s => s || suppresses thr c d) cs ss)
  = List.filter (fun d => negb (suppresses thr c d)) (unsuppressed cs ss).
Proof.
  induction cs as [|d cs IH]; intros [|s ss]; try reflexivity.
  cbn [zip_with unsuppressed]. destruct s; cbn [orb].
  - apply IH.
  - cbn [List.filter]. destruct (suppresses thr c d); cbn [negb].
    + apply IH.
    + f_equal. apply IH.
Qed.

Lemma unsuppressed_all_false cs :
  unsuppressed cs (replicate (length cs) false) = cs.
Proof. induction cs as [|c cs IH]; simpl; congruence. Qed.

Lemma nms_rec_keep_fuel : forall cs ss n,
  (length (unsuppressed cs ss) <= n)%nat ->
  nms_rec thr cs ss = nms_keep_fuel n thr (unsuppressed cs ss).
Proof.
  induction cs as [|c cs IH]; intros ss n Hn.
  - destruct n; reflexivity.
  - destruct ss as [|s ss]; [destruct n; reflexivity|].
    cbn [nms_rec unsuppressed] in *. destruct s.
    + apply IH, Hn.
    + destruct n as [|n]; [simpl in Hn; lia|].
      cbn [nms_keep_fuel]. f_equal.
      rewrite <- unsuppressed_zip_with. apply IH.
      rewrite unsuppressed_zip_with.
      etransitivity; [apply List.filter_length_le|]. simpl in Hn. lia.
Qed.

Lemma nms_keep_fuel_irrel : forall n m cs,
  (length cs <= n)%nat -> (length cs <= m)%nat ->
  nms_keep_fuel n thr cs = nms_keep_fuel m thr cs.
Proof.
  induction n as [|n IH]; intros m cs Hn Hm.
  - destruct cs; [|simpl in Hn; lia]. destruct m; reflexivity.
  - destruct cs as [|c cs]; [destruct m; reflexivity|].
    destruct m as [|m]; [simpl in Hm; lia|].
    cbn [nms_keep_fuel]. f_equal. simpl in Hn, Hm.
    pose proof (List.filter_length_le
                  (fun d => negb (suppresses thr c d)) cs).
    apply IH; lia.
Qed.

Lemma nms_keep_cons c cs :
  nms_keep thr (c :: cs)
  = c :: nms_keep thr (List.filter (fun d => negb (suppresses thr c d)) cs).
Proof.
  unfold nms_keep. cbn [length nms_keep_fuel]. f_equal.
  pose proof (List.filter_length_le (fun d => negb (suppresses thr c d)) cs).
  apply nms_keep_fuel_irrel; lia.
Qed.

Lemma nms_loops_keep cands : nms_loops cands thr = nms_keep thr cands.
Proof.
  rewrite nms_loops_rec.
  rewrite (nms_rec_keep_fuel _ _ (length cands));
    rewrite unsuppressed_all_false; [reflexivity | lia].
Qed.

(** Induction along the recursion of [nms_keep]. *)
Lemma nms_keep_ind (P : list DetectionResult -> list DetectionResult -> Prop) :
  P [] [] ->
  (forall c cs,
      let cs' := List.filter (fun d => negb (suppresses thr c d)) cs in
      P cs' (nms_keep thr cs') -> P (c :: cs) (c :: nms_keep thr cs')) ->
  forall cs, P cs (nms_keep thr cs).
Proof.
  intros Hnil Hcons cs.
  remember (length cs) as n eqn:Hn.
  assert (Hle : (length cs <= n)%nat) by lia. clear Hn.
  revert cs Hle. induction n as [|n IH]; intros cs Hle.
  - destruct cs; [exact Hnil | simpl in Hle; lia].
  - destruct cs as [|c cs]; [exact Hnil|].
    rewrite nms_keep_cons. apply Hcons. apply IH.
    pose proof (List.filter_length_le (fun d => negb (suppresses thr c d)) cs).
    simpl in Hle. lia.
Qed.

Lemma filter_sublist (f : DetectionResult -> bool) cs :
  List.filter f cs `sublist_of` cs.
Proof.
  induction cs as [|c cs IH]; simpl; [constructor|].
  destruct (f c); by constructor.
Qed.

Lemma nms_keep_sublist cs : nms_keep thr cs `sublist_of` cs.
Proof.
  apply (nms_keep_ind (fun cs out => out `sublist_of` cs)).
  - constructor.
  - intros c cs0 cs' IH. constructor.
    etransitivity; [exact IH | apply filter_sublist].
Qed.

Lemma filter_Forall (f : DetectionResult -> bool) cs :
  Forall (fun d => f d = true) (List.filter f cs).
Proof.
  apply List.Forall_forall. intros d Hd.
  apply List.filter_In in Hd. tauto.
Qed.

(** No accepted candidate suppresses a later accepted one. *)
Lemma nms_keep_unsuppressed cs :
  StronglySorted (fun a b => suppresses thr a b = false) (nms_keep thr cs).
Proof.
  apply (nms_keep_ind
           (fun _ out => StronglySorted (fun a b => suppresses thr a b = false) out)).
  - constructor.
  - intros c cs0 cs' IH. constructor; [exact IH|].
    eapply Forall_impl.
    + eapply Forall_sublist; [apply nms_keep_sublist|].
      apply (filter_Forall (fun d => negb (suppresses thr c d))).
    + intros d Hd. simpl in Hd. by apply negb_true_iff in Hd.
Qed.

Lemma filter_id (f : DetectionResult -> bool) cs :
  Forall (fun d => f d = true) cs -> List.filter f cs = cs.
Proof.
  induction 1 as [|c cs Hc _ IH]; simpl; [reflexivity|].
  rewrite Hc. congruence.
Qed.

(** A vector in which no candidate suppresses a later one is returned
    whole. *)
Lemma nms_keep_fixed cs :
  StronglySorted (fun a b => suppresses thr a b = false) cs ->
  nms_keep thr cs = cs.
Proof.
  induction 1 as [|c cs Hs IH Hc].
  - reflexivity.
  - rewrite nms_keep_cons, filter_id; [congruence|].
    eapply Forall_impl; [exact Hc|].
    intros d Hd. simpl in Hd. by rewrite Hd.
Qed.

End nms_refinement.

(** ** The order of binary32 numbers *)

Section float_order.

Lemma SFcompare_rank a b :
  F32.is_nan a = false -> F32.is_nan b = false ->
  SFcompare a b = Some (lex_compare (rank a) (rank b)).
Proof.
  destruct a as [sa|sa| |sa ma ea], b as [sb|sb| |sb mb eb];
    try discriminate; intros _ _;
    try (destruct sa; reflexivity); try (destruct sb; reflexivity);
    try (destruct sa, sb; reflexivity).
  destruct sa, sb; try reflexivity.
  unfold SFcompare, rank, lex_compare; cbn [fst snd].
  rewrite Z.compare_opp, (Z.compare_antisym ea eb). cbn [Z.compare].
  destruct (ea ?= eb); reflexivity.
Qed.

Ltac lex_solve :=
  unfold lex_compare; cbn [fst snd];
  repeat match goal with
         | |- context [?x ?= ?y] =>
             destruct (Z.compare_spec x y); try discriminate; try lia
         | H : context [?x ?= ?y] |- _ =>
             destruct (Z.compare_spec x y); try discriminate; try lia
         end;
  try reflexivity; try discriminate.

Lemma lex_compare_antisym a b : lex_compare b a = CompOpp (lex_compare a b).
Proof. destruct a as [[a1 a2] a3], b as [[b1 b2] b3]. lex_solve. Qed.

Lemma lex_compare_not_lt_trans a b c :
  lex_compare a b <> Lt -> lex_compare b c <> Lt -> lex_compare a c <> Lt.
Proof.
  destruct a as [[a1 a2] a3], b as [[b1 b2] b3], c as [[c1 c2] c3].
  unfold lex_compare; cbn [fst snd]. intros H1 H2 H3.
  destruct (Z.compare_spec a1 b1), (Z.compare_spec b1 c1),
    (Z.compare_spec a1 c1); try congruence; try lia;
  destruct (Z.compare_spec a2 b2), (Z.compare_spec b2 c2),
    (Z.compare_spec a2 c2); try congruence; try lia;
  destruct (Z.compare_spec a3 b3), (Z.compare_spec b3 c3),
    (Z.compare_spec a3 c3); try congruence; lia.
Qed.

Lemma gt_asym a b : F32.gt a b = true -> F32.gt b a = false.
Proof.
  unfold F32.gt, SFltb. intros H.
  destruct (F32.is_nan a) eqn:Ha; [by destruct a, b|].
  destruct (F32.is_nan b) eqn:Hb; [by destruct b|].
  rewrite SFcompare_rank in H |- * by assumption.
  rewrite lex_compare_antisym. by destruct (lex_compare (rank b) (rank a)).
Qed.

Lemma not_gt_trans a b c :
  F32.is_nan a = false -> F32.is_nan b = false -> F32.is_nan c = false ->
  F32.gt b a = false -> F32.gt c b = false -> F32.gt c a = false.
Proof.
  unfold F32.gt, SFltb. intros Ha Hb Hc.
  rewrite !SFcompare_rank by assumption. intros H1 H2.
  pose proof (lex_compare_not_lt_trans (rank a) (rank b) (rank c)) as Ht.
  destruct (lex_compare (rank a) (rank b)); try discriminate;
    destruct (lex_compare (rank b) (rank c)); try discriminate;
    destruct (lex_compare (rank a) (rank c)); try reflexivity;
    exfalso; apply Ht; congruence.
Qed.

Lemma not_gt_le a b :
  F32.is_nan a = false -> F32.is_nan b = false ->
  F32.gt b a = false -> F32.le b a = true.
Proof.
  unfold F32.gt, F32.le, SFltb, SFleb. intros Ha Hb.
  rewrite !SFcompare_rank by assumption.
  rewrite (lex_compare_antisym (rank a) (rank b)).
  by destruct (lex_compare (rank a) (rank b)).
Qed.

Lemma not_gt_both_eq a b :
  F32.is_nan a = false -> F32.is_nan b = false ->
  F32.gt a b = false -> F32.gt b a = false -> SFeqb a b = true.
Proof.
  unfold F32.gt, SFltb, SFeqb. intros Ha Hb.
  rewrite !SFcompare_rank by assumption.
  rewrite (lex_compare_antisym (rank a) (rank b)).
  by destruct (lex_compare (rank a) (rank b)).
Qed.

Lemma le_refl a : F32.is_nan a = false -> F32.le a a = true.
Proof.
  intros Ha. apply not_gt_le; try assumption.
  destruct (F32.gt a a) eqn:H; [|reflexivity].
  pose proof (gt_asym _ _ H). congruence.
Qed.

End float_order.

(** ** Intersection over union is symmetric *)

Lemma calculateIoU_sym box1 box2 :
  calculateIoU box1 box2 = calculateIoU box2 box1.
Proof.
  unfold calculateIoU, int_add.
  rewrite (Z.max_comm (left box1)), (Z.max_comm (top box1)),
    (Z.min_comm (right box1)), (Z.min_comm (bottom box1)).
  destruct (_ || _); [reflexivity|].
  do 4 f_equal. apply Z.add_comm.
Qed.

Lemma suppresses_sym thr c d : suppresses thr c d = suppresses thr d c.
Proof.
  unfold suppresses. by rewrite Z.eqb_sym, calculateIoU_sym.
Qed.

(** ** The two insertion sorts meet the contract of [std::sort] *)

Section sorts.

Lemma insert_before_ties_perm x l : x :: l ≡ₚ insert_before_ties x l.
Proof.
  induction l as [|y l IH]; simpl; [reflexivity|].
  destruct (comp y x); [|reflexivity].
  rewrite <- IH. apply perm_swap.
Qed.

Lemma insert_after_ties_perm x l : x :: l ≡ₚ insert_after_ties x l.
Proof.
  induction l as [|y l IH]; simpl; [reflexivity|].
  destruct (comp x y); [reflexivity|].
  rewrite <- IH. apply perm_swap.
Qed.

Lemma stable_sort_perm l : l ≡ₚ stable_sort l.
Proof.
  induction l as [|x l IH]; simpl; [reflexivity|].
  rewrite <- insert_before_ties_perm. by constructor.
Qed.

Lemma tie_reversing_sort_perm l : l ≡ₚ tie_reversing_sort l.
Proof.
  induction l as [|x l IH]; simpl; [reflexivity|].
  rewrite <- insert_after_ties_perm. by constructor.
Qed.

Local Abbreviation sorted := (StronglySorted (fun a b => comp b a = false)).

Lemma sorted_cons_weaken x y l :
  F32.is_nan (confidence x) = false -> no_nan (y :: l) ->
  comp y x = false -> Forall (fun b => comp b y = false) l ->
  Forall (fun b => comp b x = false) (y :: l).
Proof.
  intros Hx Hyl Hyx Hl. apply Forall_cons in Hyl as [Hy Hnn].
  constructor; [assumption|].
  rewrite Forall_forall in Hl, Hnn |- *. intros z Hz.
  unfold comp in *. eapply (not_gt_trans _ (confidence y)); eauto.
Qed.

Lemma insert_before_ties_sorted x l :
  no_nan (x :: l) -> sorted l -> sorted (insert_before_ties x l).
Proof.
  intros Hnn Hl. apply Forall_cons in Hnn as [Hx Hnn].
  induction Hl as [|y l Hl IH Hy]; simpl; [by repeat constructor|].
  destruct (comp y x) eqn:Hyx.
  - constructor.
    + apply IH. by apply Forall_cons in Hnn as [_ ?].
    + rewrite <- insert_before_ties_perm. constructor; [|assumption].
      by apply gt_asym.
  - constructor; [by constructor|].
    by apply sorted_cons_weaken.
Qed.

Lemma insert_after_ties_sorted x l :
  no_nan (x :: l) -> sorted l -> sorted (insert_after_ties x l).
Proof.
  intros Hnn Hl. apply Forall_cons in Hnn as [Hx Hnn].
  induction Hl as [|y l Hl IH Hy]; simpl; [by repeat constructor|].
  destruct (comp x y) eqn:Hxy.
  - constructor; [by constructor|].
    apply sorted_cons_weaken; try assumption. by apply gt_asym.
  - constructor.
    + apply IH. by apply Forall_cons in Hnn as [_ ?].
    + rewrite <- insert_after_ties_perm. by constructor.
Qed.

Lemma stable_sort_contract : std_sort_contract stable_sort.
Proof.
  intros l Hnn. split; [apply stable_sort_perm|].
  induction l as [|x l IH]; simpl; [constructor|].
  pose proof Hnn as Hnn'. apply Forall_cons in Hnn' as [Hx Hl].
  apply insert_before_ties_sorted; [|by apply IH].
  constructor; [assumption|]. unfold no_nan. by rewrite <- stable_sort_perm.
Qed.

Lemma tie_reversing_sort_contract : std_sort_contract tie_reversing_sort.
Proof.
  intros l Hnn. split; [apply tie_reversing_sort_perm|].
  induction l as [|x l IH]; simpl; [constructor|].
  pose proof Hnn as Hnn'. apply Forall_cons in Hnn' as [Hx Hl].
  apply insert_after_ties_sorted; [|by apply IH].
  constructor; [assumption|].
  unfold no_nan. by rewrite <- tie_reversing_sort_perm.
Qed.

End sorts.

(** ** Non-maximum suppression under the contract of [std::sort] *)

Section nms_properties.
Variable std_sort : list DetectionResult -> list DetectionResult.
Hypothesis std_sort_ok : std_sort_contract std_sort.
Variable thr : F32.t.

Lemma optimizedNMS_keep l :
  no_nan l -> optimizedNMS std_sort l thr = nms_keep thr (std_sort l).
Proof.
  intros Hnn. destruct l as [|d l].
  - destruct (std_sort_ok [] Hnn) as [Hp _].
    apply Permutation_nil in Hp. by rewrite Hp.
  - apply nms_loops_keep.
Qed.

Lemma optimizedNMS_sublist l :
  no_nan l -> optimizedNMS std_sort l thr `sublist_of` std_sort l.
Proof. intros Hnn. rewrite optimizedNMS_keep by done. apply nms_keep_sublist. Qed.

Lemma no_nan_sorted l : no_nan l -> no_nan (std_sort l).
Proof.
  intros Hnn. destruct (std_sort_ok l Hnn) as [Hp _].
  unfold no_nan. by rewrite <- Hp.
Qed.

Lemma no_nan_optimizedNMS l : no_nan l -> no_nan (optimizedNMS std_sort l thr).
Proof.
  intros Hnn. eapply Forall_sublist; [by apply optimizedNMS_sublist|].
  by apply no_nan_sorted.
Qed.

Lemma elem_of_optimizedNMS l d :
  no_nan l -> d ∈ optimizedNMS std_sort l thr -> d ∈ l.
Proof.
  intros Hnn Hd. destruct (std_sort_ok l Hnn) as [Hp _].
  rewrite Hp. eapply elem_of_sublist; [exact Hd|]. by apply optimizedNMS_sublist.
Qed.

Lemma optimizedNMS_sorted l :
  no_nan l ->
  StronglySorted (fun a b => comp b a = false) (optimizedNMS std_sort l thr).
Proof.
  intros Hnn. eapply StronglySorted_sublist; [by apply optimizedNMS_sublist|].
  by destruct (std_sort_ok l Hnn).
Qed.

(** Applied to its own result, the function returns that result sorted
    once more. *)
Lemma optimizedNMS_twice l :
  no_nan l ->
  optimizedNMS std_sort (optimizedNMS std_sort l thr) thr
  = std_sort (optimizedNMS std_sort l thr).
Proof.
  intros Hnn. pose proof (no_nan_optimizedNMS l Hnn) as Hout.
  rewrite (optimizedNMS_keep _ Hout).
  apply nms_keep_fixed.
  destruct (std_sort_ok _ Hout) as [Hp _].
  eapply StronglySorted_Permutation; [|exact Hp|].
  - intros x y Hxy. by rewrite suppresses_sym.
  - rewrite (optimizedNMS_keep l Hnn). apply nms_keep_unsuppressed.
Qed.

End nms_properties.

Section class_filter.
Variable thr : F32.t.
Variable k : Z.




End class_filter.

Lemma StronglySorted_lookup {A} (R : A -> A -> Prop) (l : list A) i j a b :
  StronglySorted R l -> (i < j)%nat ->
  l !! i = Some a -> l !! j = Some b -> R a b.
Proof.
  intros Hl. revert i j. induction Hl as [|x l Hl IH Hx]; intros i j Hij Hi Hj.
  - discriminate.
  - destruct j as [|j]; [lia|]. destruct i as [|i]; simpl in *.
    + injection Hi as ->. rewrite Forall_forall in Hx.
      apply Hx. eapply list_elem_of_lookup_2, Hj.
    + eapply IH; [|eassumption..]. lia.
Qed.

(** ** The claims on non-maximum suppression *)

Lemma elem_of_filter_iff (f : DetectionResult -> bool) l d :
  d ∈ List.filter f l <-> d ∈ l /\ f d = true.
Proof. rewrite !list_elem_of_In. apply List.filter_In. Qed.

Lemma nms_keep_complete thr (R : DetectionResult -> DetectionResult -> Prop) cs :
  StronglySorted R cs ->
  forall d, d ∈ cs ->
    d ∈ nms_keep thr cs
    \/ exists c, c ∈ nms_keep thr cs /\ suppresses thr c d = true /\ R c d.
Proof.
  apply (nms_keep_ind thr
           (fun cs out =>
              StronglySorted R cs ->
              forall d, d ∈ cs ->
                d ∈ out \/ exists c, c ∈ out /\ suppresses thr c d = true /\ R c d)).
  - intros _ d Hd. by apply elem_of_nil in Hd.
  - intros c cs0 cs' IH Hs d Hd.
    apply StronglySorted_cons in Hs as [Hc Hs].
    apply elem_of_cons in Hd as [->|Hd]; [left; by left|].
    destruct (suppresses thr c d) eqn:Hsup.
    + right. exists c. split; [by left|]. split; [exact Hsup|].
      rewrite Forall_forall in Hc. by apply Hc.
    + destruct (IH (StronglySorted_sublist R _ _ (filter_sublist _ _) Hs) d)
        as [Hin|(c' & Hc' & Hs' & Hr')].
      * subst cs'. apply elem_of_filter_iff. by rewrite Hsup.
      * left. by right.
      * right. exists c'. split; [by right|]. by split.
Qed.





(** The scenario of two overlapping candidates of class 3 with the
    confidences 0.9 and 0.6 and an intersection over union of 0.7: at the
    threshold 0.45 only the candidate of confidence 0.9 is kept of that
    class, next to the candidate of class 4. *)
Example nms_two_overlapping_candidates :
  calculateIoU (mkBoxRect 0 10 0 10) (mkBoxRect 0 10 0 7) = f32_decimal 7 1
  /\ optimizedNMS stable_sort three_candidates
       (F32.of_double default_nms_threshold)
     = [mkDetectionResult 3 (mkBoxRect 0 10 0 10) (f32_decimal 9 1);
        mkDetectionResult 4 (mkBoxRect 0 10 0 10) (f32_decimal 5 1)].
Proof. split; vm_compute; reflexivity. Qed.

(** C9.  For every [std::sort] that meets its contract, every candidate
    list whose confidences are numbers and every threshold, the result of
    [optimizedNMS] is a subsequence of the sorted candidates, its
    confidences are non-increasing from the front to the back, and its
    first element has the highest confidence of all candidates. *)
Theorem nms_confidence_non_increasing std_sort l thr :
  std_sort_contract std_sort -> no_nan l ->
  let results := optimizedNMS std_sort l thr in
  results `sublist_of` std_sort l
  /\ (forall i j a b, (i <= j)%nat ->
        results !! i = Some a -> results !! j = Some b ->
        F32.le (confidence b) (confidence a) = true)
  /\ (l <> [] ->
      exists r rest, results = r :: rest
        /\ forall d, d ∈ l -> F32.le (confidence d) (confidence r) = true).
Proof.
  intros Hsort Hnn results.
  pose proof (optimizedNMS_sublist _ Hsort thr l Hnn) as Hsub.
  pose proof (no_nan_optimizedNMS _ Hsort thr l Hnn) as Hout.
  pose proof (optimizedNMS_sorted _ Hsort thr l Hnn) as Hsorted.
  fold results in Hsub, Hout, Hsorted.
  split; [exact Hsub|]. split.
  - intros i j a b Hij Hi Hj.
    assert (Ha : F32.is_nan (confidence a) = false).
    { unfold no_nan in Hout. rewrite Forall_forall in Hout.
      eapply Hout, list_elem_of_lookup_2, Hi. }
    assert (Hb : F32.is_nan (confidence b) = false).
    { unfold no_nan in Hout. rewrite Forall_forall in Hout.
      eapply Hout, list_elem_of_lookup_2, Hj. }
    destruct (decide (i = j)) as [->|Hne].
    + assert (a = b) as -> by congruence. by apply le_refl.
    + apply not_gt_le; try assumption.
      apply (StronglySorted_lookup _ results i j a b Hsorted); [lia|done..].
  - intros Hne. destruct (Hsort l Hnn) as [Hp Hs].
    pose proof (no_nan_sorted _ Hsort l Hnn) as Hnns.
    subst results. rewrite (optimizedNMS_keep _ Hsort) by assumption.
    destruct (std_sort l) as [|c cs] eqn:E.
    { apply Permutation_nil_r in Hp. contradiction. }
    rewrite nms_keep_cons. eexists _, _. split; [reflexivity|].
    intros d Hd. rewrite Hp in Hd.
    apply StronglySorted_cons in Hs as [Hc _].
    unfold no_nan in Hnns. rewrite Forall_forall in Hc, Hnns.
    apply not_gt_le; [apply Hnns; by left | by apply Hnns |].
    apply elem_of_cons in Hd as [->|Hd].
    + destruct (F32.gt (confidence c) (confidence c)) eqn:Hg; [|reflexivity].
      pose proof (gt_asym _ _ Hg). congruence.
    + by apply Hc.
Qed.

Lemma nms_confidence_non_increasing_witness :
  let results :=
    optimizedNMS stable_sort three_candidates
      (F32.of_double default_nms_threshold) in
  results `sublist_of` stable_sort three_candidates
  /\ (forall i j a b, (i <= j)%nat ->
        results !! i = Some a -> results !! j = Some b ->
        F32.le (confidence b) (confidence a) = true)
  /\ (three_candidates <> [] ->
      exists r rest, results = r :: rest
        /\ forall d, d ∈ three_candidates ->
             F32.le (confidence d) (confidence r) = true).
Proof.
  apply (nms_confidence_non_increasing stable_sort three_candidates
           (F32.of_double default_nms_threshold)).
  - apply stable_sort_contract.
  - repeat constructor.
Defined.

(** C10, as stated, fails: for seventeen detections of equal confidence
    and of different classes, none of which suppresses another, the
    [std::sort] of libstdc++ exchanges equivalent elements in its partition
    step, which it takes on more than 16 elements.  The first application
    returns the seventeen detections in the order of the classes 8, 16, 15,
    ..., the second application returns them in the order 9, 1, 2, ... *)
Lemma nms_idempotence_counterexample :
  let thr := F32.of_double default_nms_threshold in
  let once := optimizedNMS libstdcxx_sort seventeen_ties thr in
  let twice := optimizedNMS libstdcxx_sort once thr in
  no_nan seventeen_ties
  /\ id <$> seventeen_ties
     = [0; 1; 2; 3; 4; 5; 6; 7; 8; 9; 10; 11; 12; 13; 14; 15; 16]
  /\ id <$> once
     = [8; 16; 15; 14; 13; 12; 11; 10; 9; 0; 7; 6; 5; 4; 3; 2; 1]
  /\ id <$> twice
     = [9; 1; 2; 3; 4; 5; 6; 7; 0; 8; 10; 11; 12; 13; 14; 15; 16]
  /\ twice <> once.
Proof.
  cbv zeta. split; [repeat constructor|].
  split; [vm_compute; reflexivity|].
  split; [vm_compute; reflexivity|].
  split; [vm_compute; reflexivity|].
  intros H. apply (f_equal (fmap id)) in H. vm_compute in H. discriminate.
Qed.

(** The contract of the C++ standard allows more: a sort that puts
    equivalent elements in the opposite order meets it, and with it two
    tied detections already come back in another order. *)
Lemma std_sort_contract_leaves_ties_open :
  std_sort_contract tie_reversing_sort
  /\ no_nan [tie_a; tie_b]
  /\ optimizedNMS tie_reversing_sort
       (optimizedNMS tie_reversing_sort [tie_a; tie_b]
          (F32.of_double default_nms_threshold))
       (F32.of_double default_nms_threshold)
     <> optimizedNMS tie_reversing_sort [tie_a; tie_b]
          (F32.of_double default_nms_threshold).
Proof.
  split; [apply tie_reversing_sort_contract|].
  split; [repeat constructor|].
  vm_compute. discriminate.
Qed.

(** C10, amended.  For every [std::sort] that meets its contract, every
    candidate list whose confidences are numbers and every threshold, a
    second application of [optimizedNMS] suppresses nothing: it returns the
    first result sorted once more, which is a permutation of it; and it
    returns the first result unchanged when candidates of equal confidence
    are equal, so that the sort has no ties to reorder. *)
Theorem nms_idempotent_up_to_ties std_sort l thr :
  std_sort_contract std_sort -> no_nan l ->
  let results := optimizedNMS std_sort l thr in
  optimizedNMS std_sort results thr = std_sort results
  /\ optimizedNMS std_sort results thr ≡ₚ results
  /\ ((forall a b, a ∈ l -> b ∈ l ->
         SFeqb (confidence a) (confidence b) = true -> a = b) ->
      optimizedNMS std_sort results thr = results).
Proof.
  intros Hsort Hnn results.
  pose proof (no_nan_optimizedNMS _ Hsort thr l Hnn) as Hout.
  pose proof (optimizedNMS_twice _ Hsort thr l Hnn) as Htwice.
  fold results in Hout, Htwice.
  destruct (Hsort results Hout) as [Hp Hs].
  split; [exact Htwice|]. split; [by rewrite Htwice|].
  intros Hdistinct. rewrite Htwice. symmetry.
  apply (StronglySorted_unique_strong (fun a b => comp b a = false));
    [| by apply optimizedNMS_sorted | exact Hs | exact Hp].
  intros x1 x2 Hx1 Hx2 H12 H21.
  assert (Hx2' : x2 ∈ results) by (by rewrite Hp).
  unfold no_nan in Hout. rewrite Forall_forall in Hout.
  apply Hdistinct; [by eapply elem_of_optimizedNMS..|].
  apply not_gt_both_eq; auto.
Qed.

Lemma three_candidates_distinct a b :
  a ∈ three_candidates -> b ∈ three_candidates ->
  SFeqb (confidence a) (confidence b) = true -> a = b.
Proof.
  unfold three_candidates. rewrite !elem_of_cons, !elem_of_nil.
  intros [->|[->|[->|[]]]] [->|[->|[->|[]]]]; vm_compute;
    try reflexivity; discriminate.
Qed.

Lemma nms_idempotent_up_to_ties_witness :
  let results :=
    optimizedNMS stable_sort three_candidates
      (F32.of_double default_nms_threshold) in
  optimizedNMS stable_sort results (F32.of_double default_nms_threshold)
  = stable_sort results
  /\ optimizedNMS stable_sort results (F32.of_double default_nms_threshold)
     ≡ₚ results
  /\ optimizedNMS stable_sort results (F32.of_double default_nms_threshold)
     = results.
Proof.
  destruct (nms_idempotent_up_to_ties stable_sort three_candidates
              (F32.of_double default_nms_threshold))
    as (H1 & H2 & H3).
  - apply stable_sort_contract.
  - repeat constructor.
  - split; [exact H1|]. split; [exact H2|].
    apply H3, three_candidates_distinct.
Defined.

(** ** Tensor geometry *)

Lemma tensor_image_dims_loop_spec dims : forall cursor o,
  0 <= cursor <= 3 ->
  match tensor_image_dims_loop dims cursor o with
  | (None, _) =>
      0 ∈ dims \/ cursor + Z.of_nat (length (non_singleton dims)) > 3
  | (Some cursor', o') =>
      (0 ∉ dims)
      /\ cursor' = cursor + Z.of_nat (length (non_singleton dims))
      /\ cursor' <= 3
      /\ o' = write_dims cursor (non_singleton dims) o
  end.
Proof.
  induction dims as [|dim rest IH]; intros cursor o Hc.
  - simpl. rewrite elem_of_nil. repeat split; lia.
  - cbn [tensor_image_dims_loop non_singleton List.filter].
    destruct (dim =? 0) eqn:H0.
    { apply Z.eqb_eq in H0. subst dim. left. by left. }
    apply Z.eqb_neq in H0.
    destruct (dim =? 1) eqn:H1; cbn [negb].
    + specialize (IH cursor o Hc). fold (non_singleton rest).
      destruct (tensor_image_dims_loop rest cursor o) as [[c'|] o'].
      * rewrite not_elem_of_cons. intuition.
      * rewrite elem_of_cons. intuition.
    + fold (non_singleton rest). cbn [length write_dims].
      assert (Hcases : cursor = 0 \/ cursor = 1 \/ cursor = 2 \/ cursor = 3) by lia.
      destruct Hcases as [->|[->|[->| ->]]];
        cbn [Z.add Pos.add Pos.succ]; try (right; lia);
        match goal with
        | |- context [tensor_image_dims_loop rest ?c ?o1] =>
            specialize (IH c o1 ltac:(lia));
            destruct (tensor_image_dims_loop rest c o1) as [[c'|] o']
        end;
        rewrite ?not_elem_of_cons, ?elem_of_cons; unfold write_dim;
        intuition lia.
Qed.

(** C7.  The scan skips the dimensions equal to 1 and assigns the first
    non-singleton dimension to the width, the second to the height and the
    third to the channels.  It fails exactly when a dimension is 0, when
    there are more than three or fewer than two non-singleton dimensions, or
    when the resolved channel count exceeds 4; on success the three objects
    hold the first and the second non-singleton dimension and the resolved
    channel count, which is 1 when there are exactly two non-singleton
    dimensions, whatever the objects held before. *)
Theorem tensor_image_dims_correct tensor o :
  let dims := tensor_dims tensor in
  let ns := non_singleton dims in
  ((tensor_image_dims tensor o).1 = false <->
     0 ∈ dims \/ (length ns > 3)%nat \/ (length ns < 2)%nat
     \/ resolved_channels dims > 4)
  /\ ((tensor_image_dims tensor o).1 = true ->
      exists w h rest,
        ns = w :: h :: rest
        /\ (tensor_image_dims tensor o).2
           = mkImageDims (Some w) (Some h) (Some (resolved_channels dims))
        /\ (length ns = 2%nat -> resolved_channels dims = 1)
        /\ (forall ch, rest = [ch] -> resolved_channels dims = ch)).
Proof.
  intros dims ns. unfold tensor_image_dims. fold dims.
  pose proof (tensor_image_dims_loop_spec dims 0 o ltac:(lia)) as Hloop.
  fold ns in Hloop. unfold resolved_channels. fold dims. fold ns.
  destruct (tensor_image_dims_loop dims 0 o) as [[cursor|] o1].
  - destruct Hloop as (Hz & Hcur & Hle & Ho1).
    destruct ns as [|a [|b [|c [|e ns']]]]; cbn [length] in *;
      try lia; subst cursor o1; simpl.
    + split; [split; [intros _; lia | reflexivity]|discriminate].
    + split; [split; [intros _; lia | reflexivity]|discriminate].
    + split.
      * split; [discriminate|]. intros [?|[?|[?|?]]]; [done|lia..].
      * intros _. exists a, b, []. repeat split; try reflexivity. discriminate.
    + destruct (c >? 4) eqn:Hc; simpl.
      * split; [split; [intros _; lia | reflexivity]|discriminate].
      * split.
        -- split; [discriminate|]. intros [?|[?|[?|?]]]; [done|lia..].
        -- intros _. exists a, b, [c]. repeat split; try reflexivity.
           ++ discriminate.
           ++ congruence.
  - cbn [fst snd]. split; [|discriminate].
    split; [intros _|reflexivity].
    destruct Hloop as [?|?]; [by left|right; left; lia].
Qed.

(** ** The dequantizer *)

(** C5.  For 8-bit unsigned storage the dequantizer returns
    [(raw_value - zero_point) * scale] in binary32 arithmetic; for float
    storage it returns the stored value, whatever zero point and scale are;
    for every other storage kind it returns exactly 0.  With zero point 128
    and scale 0.00392157, the raw value 128 gives 0.0 and the raw value 255
    gives 0.498 up to a thousandth; the four bytes of the [float] 0.9 are
    returned as 0.9. *)
Theorem get_dequant_value_correct data idx zp sc zp' sc' n :
  get_dequant_value data kTfLiteUInt8 idx zp sc
  = F32.mul (F32.sub (F32.of_int (load_u8 data idx)) zp) sc
  /\ get_dequant_value data kTfLiteFloat32 idx zp sc = load_f32 data idx
  /\ get_dequant_value data kTfLiteFloat32 idx zp sc
     = get_dequant_value data kTfLiteFloat32 idx zp' sc'
  /\ get_dequant_value data (kTfLiteOther n) idx zp sc = S754_zero false
  /\ get_dequant_value [128; 255] kTfLiteUInt8 0
       (F32.of_int 128) (f32_decimal 392157 8) = S754_zero false
  /\ Qlt (497 # 1000)
         (F32.to_Q (get_dequant_value [128; 255] kTfLiteUInt8 1
                      (F32.of_int 128) (f32_decimal 392157 8)))
  /\ Qlt (F32.to_Q (get_dequant_value [128; 255] kTfLiteUInt8 1
                      (F32.of_int 128) (f32_decimal 392157 8)))
         (499 # 1000)
  /\ get_dequant_value [102; 102; 102; 63] kTfLiteFloat32 0 zp sc
     = f32_decimal 9 1.
Proof.
  repeat split; try reflexivity.
Qed.

(** ** The letterbox *)

Lemma to_int_truncates x :
  F32.to_int x = Z.quot (Qnum (F32.to_Q x)) (Zpos (Qden (F32.to_Q x))).
Proof.
  assert (Hmag : forall m e,
             F32.trunc_mag m e
             = Z.quot (Qnum (match e with
                             | Zneg p => Qmake (Zpos m) (2 ^ p)
                             | _ => inject_Z (Zpos m * 2 ^ e)
                             end))
                      (Zpos (Qden (match e with
                                   | Zneg p => Qmake (Zpos m) (2 ^ p)
                                   | _ => inject_Z (Zpos m * 2 ^ e)
                                   end)))).
  { intros m [|p|p]; unfold F32.trunc_mag; cbn [Qnum Qden inject_Z].
    - rewrite Z.quot_1_r. apply Z.shiftl_mul_pow2. lia.
    - rewrite Z.quot_1_r. apply Z.shiftl_mul_pow2. lia.
    - rewrite Z.shiftr_div_pow2 by lia.
      rewrite Pos2Z.inj_pow. symmetry. apply Z.quot_div_nonneg; lia. }
  destruct x as [s|s| |s m e]; try reflexivity.
  unfold F32.to_int, F32.to_Q. rewrite Hmag.
  destruct s; [|reflexivity].
  destruct e; cbn [Qopp Qnum Qden inject_Z]; by rewrite Z.quot_opp_l.
Qed.

(** What [letterbox] does on every image: it throws on the inputs of
    [letterbox_throws] and otherwise returns the canvas with the resized
    image pasted. *)
Lemma letterbox_outcome cv_resize img target_size :
  let g := letterbox_geom (rows img) (cols img) target_size in
  letterbox cv_resize img target_size
  = if letterbox_throws (rows img) (cols img) target_size
    then inl StsAssert
    else inr (copyTo_roi (cv_resize img (lb_new_w g) (lb_new_h g))
                (mat_zeros target_size target_size (mat_type img))
                (lb_left g) (lb_top g) (lb_new_w g) (lb_new_h g)).
Proof.
  cbv zeta. unfold letterbox, letterbox_throws, resize_to, mat_empty,
    Mat_zeros, copyTo, roi_within.
  set (g := letterbox_geom (rows img) (cols img) target_size).
  destruct (rows img <=? 0); [reflexivity|].
  destruct (cols img <=? 0); [reflexivity|].
  destruct (lb_new_w g <=? 0) eqn:Hw; [reflexivity|].
  destruct (lb_new_h g <=? 0) eqn:Hh; [reflexivity|].
  cbn [orb]. rewrite orb_diag.
  destruct (target_size <? 0); [reflexivity|].
  cbn [orb rows cols mat_zeros].
  replace (0 <=? lb_new_w g) with true by lia.
  replace (0 <=? lb_new_h g) with true by lia.
  rewrite !andb_true_r.
  by destruct ((0 <=? lb_left g) && (lb_left g + lb_new_w g <=? target_size)
               && (0 <=? lb_top g) && (lb_top g + lb_new_h g <=? target_size)).
Qed.

(** C4.  For an image of one row and 1000 columns and the target size 640
    the scaled height 0.64 is truncated to 0 and [cv::resize] throws:
    [letterbox] returns no image, alone and within [detect].  Whenever
    [letterbox] returns with the target size 640, which it does exactly
    outside the inputs of [letterbox_throws], the result has 640 rows and
    640 columns and the element type of the image, and every element
    outside the rectangle that receives the resized image is zero.  For an
    image of 320 rows and 640 columns the scale is 1.0, the resized image
    has 640 columns and 320 rows, the top margin is 160 and the left margin
    is 0. *)
Theorem letterbox_shape_fails_on_thin_image std_sort cv_resize img invoke_fn
    box_threshold nms_threshold :
  let g := letterbox_geom (rows img) (cols img) 640 in
  (lb_new_w (letterbox_geom 1 1000 640), lb_new_h (letterbox_geom 1 1000 640))
  = (640, 0)
  /\ letterbox cv_resize (mat_of_buffer 1 1000 CV_8UC3 (ptr image_1x1000)) 640
     = inl StsAssert
  /\ detect std_sort cv_resize (mkInterpreter input_640x640 invoke_fn)
       image_1x1000 box_threshold nms_threshold
     = inl (OpenCV_error StsAssert)
  /\ (letterbox cv_resize img 640 = inl StsAssert <->
      letterbox_throws (rows img) (cols img) 640 = true)
  /\ (forall output, letterbox cv_resize img 640 = inr output ->
      letterbox_throws (rows img) (cols img) 640 = false
      /\ rows output = 640 /\ cols output = 640
      /\ mat_type output = mat_type img
      /\ forall r c k,
           mat_at output r c k
           = (if in_roi g r c
              then mat_at (cv_resize img (lb_new_w g) (lb_new_h g))
                          (r - lb_top g) (c - lb_left g) k
              else 0))
  /\ letterbox_geom 320 640 640 = mkGeometry (F32.of_int 1) 640 320 160 0
  /\ letterbox_throws 320 640 640 = false.
Proof.
  cbv zeta. split; [vm_compute; reflexivity|].
  split; [rewrite letterbox_outcome; vm_compute; reflexivity|].
  split; [vm_compute; reflexivity|].
  rewrite letterbox_outcome.
  destruct (letterbox_throws (rows img) (cols img) 640).
  - split; [done|]. split; [done|]. split; vm_compute; reflexivity.
  - split; [done|]. split; [|split; vm_compute; reflexivity].
    intros output [= <-]. repeat split.
Qed.

(** C3, as stated, fails: for an image of 334 rows and 1000 columns and the
    target size 640 the scaled height is 213.76; the source resizes to 213
    rows, the nearest integer is 214. *)
Lemma letterbox_rounding_counterexample :
  let g := letterbox_geom 334 1000 640 in
  (lb_new_w g, lb_new_h g) = (640, 213)
  /\ spec_letterbox_new_size 334 1000 640 = (640, 214)
  /\ (lb_new_w g, lb_new_h g) <> spec_letterbox_new_size 334 1000 640
  /\ lb_top g = 213.
Proof. vm_compute. repeat split; discriminate. Qed.

(** C3, amended.  For every image of height h and width w and every target
    size on which no assertion of OpenCV fails (the image is not empty, both
    scaled sizes are at least 1 after the truncation and the rectangle of
    the resized image lies within the canvas), [letterbox] resizes the image
    to the width [w * scale] and the height [h * scale], each truncated
    towards zero, with [scale = target_size / max(h, w)] in binary32
    arithmetic, and pastes the resized image onto a zero-filled canvas of
    [target_size] rows and columns at the top margin
    [(target_size - new_height) / 2] and the left margin
    [(target_size - new_width) / 2]. *)
Theorem letterbox_truncates cv_resize img target_size :
  let h := rows img in
  let w := cols img in
  let scale := F32.div (F32.of_int target_size) (F32.of_int (Z.max h w)) in
  let scaled_w := F32.to_Q (F32.mul (F32.of_int w) scale) in
  let scaled_h := F32.to_Q (F32.mul (F32.of_int h) scale) in
  let g := letterbox_geom h w target_size in
  letterbox_throws h w target_size = false ->
  lb_scale g = scale
  /\ lb_new_w g = Z.quot (Qnum scaled_w) (Zpos (Qden scaled_w))
  /\ lb_new_h g = Z.quot (Qnum scaled_h) (Zpos (Qden scaled_h))
  /\ lb_top g = Z.quot (target_size - lb_new_h g) 2
  /\ lb_left g = Z.quot (target_size - lb_new_w g) 2
  /\ 0 < h /\ 0 < w /\ 0 < lb_new_w g /\ 0 < lb_new_h g
  /\ 0 <= lb_left g /\ lb_left g + lb_new_w g <= target_size
  /\ 0 <= lb_top g /\ lb_top g + lb_new_h g <= target_size
  /\ exists output,
       letterbox cv_resize img target_size = inr output
       /\ rows output = target_size /\ cols output = target_size
       /\ forall r c k,
            mat_at output r c k
            = (if (lb_top g <=? r) && (r <? lb_top g + lb_new_h g)
                  && (lb_left g <=? c) && (c <? lb_left g + lb_new_w g)
               then mat_at (cv_resize img (lb_new_w g) (lb_new_h g))
                           (r - lb_top g) (c - lb_left g) k
               else 0).
Proof.
  cbv zeta. intros Hok.
  split; [reflexivity|].
  split; [apply to_int_truncates|].
  split; [apply to_int_truncates|].
  split; [reflexivity|]. split; [reflexivity|].
  pose proof Hok as Hgeom. unfold letterbox_throws in Hgeom.
  repeat (apply orb_false_iff in Hgeom as [Hgeom ?]).
  match goal with H : negb _ = false |- _ =>
    apply negb_false_iff in H;
    repeat (apply andb_true_iff in H as [H ?]) end.
  repeat (split; [lia|]).
  eexists. rewrite letterbox_outcome, Hok. split; [reflexivity|].
  repeat split.
Qed.

Lemma letterbox_truncates_witness :
  let img := mat_of_buffer 334 1000 CV_8UC3 [] in
  let g := letterbox_geom 334 1000 640 in
  lb_scale g = F32.div (F32.of_int 640) (F32.of_int 1000)
  /\ lb_new_w g = 640 /\ lb_new_h g = 213
  /\ lb_top g = 213 /\ lb_left g = 0
  /\ exists output,
       letterbox nearest_resize img 640 = inr output
       /\ rows output = 640 /\ cols output = 640.
Proof.
  cbv zeta.
  destruct (letterbox_truncates nearest_resize
              (mat_of_buffer 334 1000 CV_8UC3 []) 640)
    as (Hs & _ & _ & _ & _ & _ & _ & _ & _ & _ & _ & _ & _ & out & Ho & Hr & Hc & _).
  - vm_compute. reflexivity.
  - split; [exact Hs|].
    split; [vm_compute; reflexivity|]. split; [vm_compute; reflexivity|].
    split; [vm_compute; reflexivity|]. split; [vm_compute; reflexivity|].
    exists out. by split.
Defined.

(** ** The detector *)

(** What lines 270 to 279 of [detect] do on every image: an OpenCV call
    throws on the inputs of [detect_opencv_throws]; otherwise the tensor is
    filled from the colour-converted image. *)
Lemma detect_fill_input_outcome cv_resize input buf_ptr img_h img_w in_w in_h :
  detect_fill_input cv_resize input buf_ptr img_h img_w in_w in_h
  = if detect_opencv_throws img_h img_w in_w in_h then inl StsAssert
    else inr (mkTensor (tensor_type input) (tensor_dims input)
                (tensor_params input)
                (memcpy (tensor_data input)
                   (mat_bytes (cvtColor_BGR2RGB
                                 (mat_of_buffer img_h img_w CV_8UC3 buf_ptr)))
                   (TfLiteTensorByteSize input))).
Proof.
  unfold detect_fill_input, detect_opencv_throws, cvtColor, mat_empty.
  cbn [rows cols mat_of_buffer].
  destruct ((img_h <=? 0) || (img_w <=? 0)); [reflexivity|]. cbn [orb].
  destruct (negb (img_w =? in_w) || negb (img_h =? in_h)); [|reflexivity].
  rewrite letterbox_outcome. cbn [rows cols mat_of_buffer andb].
  by destruct (letterbox_throws img_h img_w in_w).
Qed.

(** C1.  The source fills the input tensor from the colour-converted image
    and never from the result of [letterbox], which it computes and drops.
    For the image of 2 rows and 8 columns and the model input of 4 by 4 the
    tensor receives the 48 bytes of the unscaled image, all 255, whereas the
    letterboxed image begins with a zero margin, whatever [cv::resize]
    returns. *)
Theorem detect_input_not_letterboxed std_sort cv_resize invoke_fn
    input buf_ptr img_h img_w in_w in_h box_threshold nms_threshold :
  (forall filled,
     detect_fill_input cv_resize input buf_ptr img_h img_w in_w in_h
     = inr filled ->
     tensor_data filled
     = memcpy (tensor_data input)
         (mat_bytes (cvtColor_BGR2RGB (mat_of_buffer img_h img_w CV_8UC3 buf_ptr)))
         (TfLiteTensorByteSize input))
  /\ exists filled letterboxed_rgb letterboxed,
       let img_mat := mat_of_buffer 2 8 CV_8UC3 (ptr image_2x8) in
       let written := tensor_data filled in
       detect_fill_input cv_resize input_4x4 (ptr image_2x8) 2 8 4 4
       = inr filled
       /\ detect std_sort cv_resize (mkInterpreter input_4x4 invoke_fn) image_2x8
            box_threshold nms_threshold
          = match invoke_fn filled with
            | None => inl Interpreter_invocation_failed
            | Some (boxesTensor, scoresTensor, classesTensor) =>
                inr (optimizedNMS std_sort
                       (detect_candidates boxesTensor scoresTensor classesTensor
                          8 2 box_threshold)
                       (F32.of_double nms_threshold))
            end
       /\ letterbox cv_resize (cvtColor_BGR2RGB img_mat) 4 = inr letterboxed_rgb
       /\ letterbox cv_resize img_mat 4 = inr letterboxed
       /\ written = replicate 48 255
       /\ written <> mat_bytes letterboxed_rgb
       /\ written <> mat_bytes (cvtColor_BGR2RGB letterboxed).
Proof.
  split.
  { intros filled. rewrite detect_fill_input_outcome.
    destruct (detect_opencv_throws img_h img_w in_w in_h); [discriminate|].
    by intros [= <-]. }
  eexists _, _, _. cbv zeta.
  split; [rewrite detect_fill_input_outcome; vm_compute; reflexivity|].
  split; [reflexivity|].
  split; [rewrite letterbox_outcome; vm_compute; reflexivity|].
  split; [rewrite letterbox_outcome; vm_compute; reflexivity|].
  split; [vm_compute; reflexivity|].
  split; intros H; apply (f_equal (fun l => l !! 0%nat)) in H;
    vm_compute in H; discriminate.
Qed.

(** C2.  The source tests the clamped coordinates before it rounds them.
    For the quantized box with the coordinates 1.0, 1.0, 1.25, 1.25 the test
    passes and [detect] returns a detection whose box has left = right = 1
    and top = bottom = 1. *)
Theorem detect_emits_zero_area_box cv_resize :
  let boxesParams := tensor_params thin_boxes in
  F32.ge (clamp (dequant_coord 4 boxesParams) 4)
         (clamp (dequant_coord 5 boxesParams) 4) = false
  /\ detect stable_sort cv_resize
       (interpreter_with input_4x4 (thin_boxes, thin_scores, thin_classes))
       image_4x4 default_box_threshold default_nms_threshold
     = inr [mkDetectionResult 7 (mkBoxRect 1 1 1 1)
              (S754_finite false 16711680 (-24))].
Proof. split; vm_compute; reflexivity. Qed.

(** C6.  The source decodes every score and every coordinate as an 8-bit
    unsigned quantized value: the result of the candidate loop does not
    depend on the storage kind of the output tensors.  For float output
    tensors that hold one box of score 0.9, [detect] returns no detection,
    whereas decoding by the storage kind yields that box with the
    confidence 0.9. *)
Theorem detect_ignores_storage_kind cv_resize ty1 ty2 ty3 b s c w h t :
  detect_candidates (with_type ty1 b) (with_type ty2 s) (with_type ty3 c) w h t
  = detect_candidates b s c w h t
  /\ detect stable_sort cv_resize
       (interpreter_with input_4x4 (float_boxes, float_scores, float_classes))
       image_4x4 default_box_threshold default_nms_threshold
     = inr []
  /\ spec_candidates float_boxes float_scores float_classes 4 4
       default_box_threshold
     = [mkDetectionResult 0 (mkBoxRect 1 3 1 3) (f32_decimal 9 1)].
Proof.
  split; [reflexivity|]. split; vm_compute; reflexivity.
Qed.

(** * Further properties of the source *)

(** ** Intersection over union *)

(** X1.  [calculateIoU] does not depend on the order of its two boxes, and
    neither does the test by which one detection suppresses another. *)
Theorem calculateIoU_symmetric thr (c d : DetectionResult) :
  calculateIoU (box c) (box d) = calculateIoU (box d) (box c)
  /\ suppresses thr c d = suppresses thr d c.
Proof. split; [apply calculateIoU_sym | apply suppresses_sym]. Qed.

(** X2.  [calculateIoU] is exactly 0 as soon as the two boxes share no
    interior point: when one lies beside, above or below the other, when
    they only touch along an edge, or when one of them is empty or
    inverted. *)
Theorem calculateIoU_no_overlap (a b : BoxRect) :
  right a <= left b \/ right b <= left a
  \/ bottom a <= top b \/ bottom b <= top a
  \/ right a <= left a \/ right b <= left b
  \/ bottom a <= top a \/ bottom b <= top b ->
  calculateIoU a b = S754_zero false.
Proof.
  intros H. unfold calculateIoU.
  assert (Hc : (Z.min (right a) (right b) <=? Z.max (left a) (left b))
               || (Z.min (bottom a) (bottom b) <=? Z.max (top a) (top b))
               = true).
  { apply orb_true_iff. rewrite !Z.leb_le. lia. }
  by rewrite Hc.
Qed.

Lemma calculateIoU_no_overlap_witness :
  calculateIoU (mkBoxRect 0 10 0 10) (mkBoxRect 10 20 0 10) = S754_zero false.
Proof. apply calculateIoU_no_overlap. simpl. lia. Defined.

Lemma div_eucl_shift m :
  Z.div_eucl (Z.shiftl (Zpos m) 24) (Zpos m) = (16777216, 0).
Proof.
  pose proof (Z.div_eucl_eq (Z.shiftl (Zpos m) 24) (Zpos m) ltac:(lia)) as He.
  pose proof (Z.mod_pos_bound (Z.shiftl (Zpos m) 24) (Zpos m) ltac:(lia)) as Hb.
  unfold Z.modulo, Z.div in *.
  destruct (Z.div_eucl (Z.shiftl (Zpos m) 24) (Zpos m)) as [q r].
  rewrite Z.shiftl_mul_pow2 in He by lia.
  assert (q = 16777216) by nia. subst q. f_equal. lia.
Qed.

Lemma SFdiv_self s m e :
  F32.div (S754_finite s m e) (S754_finite s m e) = S754_finite false 8388608 (-23).
Proof.
  unfold F32.div, SFdiv, SFdiv_core_binary.
  rewrite !Z.sub_diag.
  change (Z.min (fexp F32.prec F32.emax 0) 0) with (-24).
  change (0 - -24) with 24. cbv iota.
  change (IntDef.Z.div_eucl (Z.shiftl (Zpos m) 24) (Zpos m))
    with (Z.div_eucl (Z.shiftl (Zpos m) 24) (Zpos m)).
  rewrite div_eucl_shift. unfold new_location.
  destruct (Z.even (Zpos m)), s; reflexivity.
Qed.

Lemma digits2_pos_size p : digits2_pos p = Pos.size p.
Proof. induction p; simpl; congruence. Qed.

Lemma digits2_pos_iter p k :
  Zpos (digits2_pos (Pos.iter xO p k)) = Zpos (digits2_pos p) + Zpos k.
Proof.
  induction k as [|k IH] using Pos.peano_ind.
  - simpl. lia.
  - rewrite Pos.iter_succ. cbn [digits2_pos]. lia.
Qed.

Lemma iter_xO_mul p k : Zpos (Pos.iter xO p k) = Zpos p * 2 ^ Zpos k.
Proof.
  induction k as [|k IH] using Pos.peano_ind.
  - simpl. lia.
  - rewrite Pos.iter_succ, Pos2Z.inj_xO, IH, Pos2Z.inj_succ, Z.pow_succ_r by lia.
    lia.
Qed.

Lemma digits_small p : Zpos p < 2 ^ 24 -> Zpos (digits2_pos p) <= 24.
Proof.
  intros Hp. rewrite digits2_pos_size.
  pose proof (Pos.size_le p) as Hle.
  destruct (Z.le_gt_cases (Zpos (Pos.size p)) 24) as [|Hgt]; [assumption|].
  exfalso.
  apply Pos2Z.pos_le_pos in Hle. rewrite Pos2Z.inj_pow, Pos2Z.inj_xO in Hle.
  pose proof (Z.pow_le_mono_r 2 25 (Zpos (Pos.size p)) ltac:(lia) ltac:(lia)).
  change ((2 * 1) ^ Z.pos (Pos.size p)) with (2 ^ Z.pos (Pos.size p)) in Hle.
  lia.
Qed.

(** A mantissa and an exponent that are already in the binary32 format are
    left alone by the rounding. *)
Lemma binary_round_aux_canonical s m e :
  bounded F32.prec F32.emax m e = true ->
  binary_round_aux F32.prec F32.emax s (Zpos m) e loc_Exact = S754_finite s m e.
Proof.
  unfold bounded, canonical_mantissa. intros H.
  apply andb_true_iff in H as [Hc Hb]. apply Z.eqb_eq in Hc.
  unfold binary_round_aux, shr_fexp. cbn [Zdigits2 shr_record_of_loc].
  rewrite Hc, Z.sub_diag. cbn [shr shr_m loc_of_shr_record round_nearest_even].
  cbn [Zdigits2]. rewrite Hc, Z.sub_diag. cbn [shr shr_m].
  by rewrite Hb.
Qed.

(** The conversion of a positive [int] below 2^24 is exact. *)
Lemma of_int_small n :
  0 < n < 2 ^ 24 ->
  exists m e,
    F32.of_int n = S754_finite false m e
    /\ bounded F32.prec F32.emax m e = true
    /\ -23 <= e <= 0 /\ Zpos m = n * 2 ^ (- e).
Proof.
  intros Hn. destruct n as [|p|p]; try lia.
  pose proof (digits_small p ltac:(lia)) as Hd.
  unfold F32.of_int, binary_normalize, binary_round, shl_align.
  assert (Hf : fexp F32.prec F32.emax (Zpos (digits2_pos p) + 0)
               = Zpos (digits2_pos p) - 24).
  { unfold fexp, emin, F32.prec, F32.emax. lia. }
  rewrite Hf, Z.sub_0_r.
  destruct (Zpos (digits2_pos p) - 24) as [|k|k] eqn:Hk; try lia.
  - exists p, 0. split; [|split; [|split]]; [| |lia|simpl; lia].
    + apply binary_round_aux_canonical.
      unfold bounded, canonical_mantissa. rewrite Hf. reflexivity.
    + unfold bounded, canonical_mantissa. rewrite Hf. reflexivity.
  - assert (Hb : bounded F32.prec F32.emax (Pos.iter xO p k) (Zneg k) = true).
    { unfold bounded, canonical_mantissa.
      apply andb_true_iff. split.
      - apply Z.eqb_eq. rewrite digits2_pos_iter.
        unfold fexp, emin, F32.prec, F32.emax. lia.
      - apply Z.leb_le. unfold F32.prec, F32.emax. lia. }
    exists (Pos.iter xO p k), (Zneg k). split; [|split; [|split]].
    + by apply binary_round_aux_canonical.
    + exact Hb.
    + lia.
    + rewrite iter_xO_mul. reflexivity.
Qed.

Lemma wrap32_small z : - 2 ^ 31 <= z < 2 ^ 31 -> wrap32 z = z.
Proof.
  intros Hz. unfold wrap32.
  rewrite Z.mod_small by lia. lia.
Qed.

(** X3.  A box that is not degenerate and whose area is below 2^24 pixels
    has intersection over union exactly 1.0 with itself; a detection
    therefore suppresses an identical detection at every threshold
    below 1.0. *)
Theorem calculateIoU_self thr (d : DetectionResult) :
  left (box d) < right (box d) ->
  top (box d) < bottom (box d) ->
  (right (box d) - left (box d)) * (bottom (box d) - top (box d)) < 2 ^ 24 ->
  calculateIoU (box d) (box d) = F32.of_int 1
  /\ (F32.lt thr (F32.of_int 1) = true -> suppresses thr d d = true).
Proof.
  intros Hw Hh Harea.
  assert (Hiou : calculateIoU (box d) (box d) = F32.of_int 1).
  { unfold calculateIoU. rewrite !Z.max_id, !Z.min_id.
    assert (Hc : (right (box d) <=? left (box d))
                 || (bottom (box d) <=? top (box d)) = false).
    { apply orb_false_iff. rewrite !Z.leb_gt. lia. }
    rewrite Hc.
    set (w := right (box d) - left (box d)) in *.
    set (h := bottom (box d) - top (box d)) in *.
    assert (Hwb : 0 < w < 2 ^ 24) by nia.
    assert (Hhb : 0 < h < 2 ^ 24) by nia.
    unfold int_sub, int_mul, int_add. fold w h.
    rewrite (wrap32_small w), (wrap32_small h) by lia.
    rewrite (wrap32_small (w * h)) by nia.
    rewrite (wrap32_small (w * h + w * h)) by nia.
    replace (w * h + w * h - w * h) with (w * h) by lia.
    rewrite (wrap32_small (w * h)) by nia.
    destruct (of_int_small (w * h) ltac:(nia)) as (m & e & -> & _).
    apply SFdiv_self. }
  split; [exact Hiou|].
  intros Hthr. unfold suppresses. rewrite Z.eqb_refl, Hiou. exact Hthr.
Qed.

Lemma calculateIoU_self_witness :
  calculateIoU (box lone_class_4) (box lone_class_4) = F32.of_int 1
  /\ (F32.lt (F32.of_double default_nms_threshold) (F32.of_int 1) = true ->
      suppresses (F32.of_double default_nms_threshold)
        lone_class_4 lone_class_4 = true).
Proof.
  apply (calculateIoU_self (F32.of_double default_nms_threshold) lone_class_4);
    vm_compute; reflexivity.
Defined.

Lemma gt_trans a b c :
  F32.gt a b = true -> F32.gt b c = true -> F32.gt a c = true.
Proof.
  unfold F32.gt, SFltb. intros H1 H2.
  destruct (F32.is_nan a) eqn:Ha; [by destruct a, b|].
  destruct (F32.is_nan b) eqn:Hb; [by destruct b, c|].
  destruct (F32.is_nan c) eqn:Hc; [by destruct c|].
  rewrite SFcompare_rank in H1, H2 |- * by assumption.
  destruct (rank a) as [[a1 a2] a3], (rank b) as [[b1 b2] b3],
    (rank c) as [[c1 c2] c3].
  unfold lex_compare in *; cbn [fst snd] in *.
  destruct (Z.compare_spec b1 a1), (Z.compare_spec c1 b1),
    (Z.compare_spec c1 a1); try discriminate; try lia; try reflexivity;
  destruct (Z.compare_spec b2 a2), (Z.compare_spec c2 b2),
    (Z.compare_spec c2 a2); try discriminate; try lia; try reflexivity;
  destruct (Z.compare_spec b3 a3), (Z.compare_spec c3 b3),
    (Z.compare_spec c3 a3); try discriminate; try lia; reflexivity.
Qed.

(** ** The comparator of the sort *)

(** X4.  On candidates whose confidences are numbers the comparator given
    to [std::sort] is a strict weak ordering: it is irreflexive and
    transitive, and being unordered by it is transitive as well.  A
    candidate [n] whose confidence is a NaN is unordered with every
    candidate, so that this last property fails as soon as two candidates
    of different confidence stand next to it. *)
Theorem comp_strict_weak_ordering (a b c n : DetectionResult) :
  no_nan [a; b; c] ->
  F32.is_nan (confidence n) = true ->
  comp a a = false
  /\ (comp a b = true -> comp b c = true -> comp a c = true)
  /\ (comp a b = false /\ comp b a = false ->
      comp b c = false /\ comp c b = false ->
      comp a c = false /\ comp c a = false)
  /\ (comp a n = false /\ comp n a = false)
  /\ (comp a c = true ->
      (comp a n = false /\ comp n a = false)
      /\ (comp n c = false /\ comp c n = false)
      /\ ~ (comp a c = false /\ comp c a = false)).
Proof.
  intros Hnn Hn.
  apply Forall_cons in Hnn as [Ha Hnn].
  apply Forall_cons in Hnn as [Hb Hnn].
  apply Forall_cons in Hnn as [Hc _].
  assert (Hnan : forall x, comp x n = false /\ comp n x = false).
  { intros x. unfold comp, F32.gt, SFltb.
    destruct (confidence n); try discriminate.
    by destruct (confidence x). }
  unfold comp in *. repeat split; try apply Hnan.
  - destruct (F32.gt (confidence a) (confidence a)) eqn:H; [|reflexivity].
    pose proof (gt_asym _ _ H). congruence.
  - apply gt_trans.
  - destruct H as [H1 H2], H0 as [H3 H4].
    eapply (not_gt_trans _ (confidence b)); eauto.
  - destruct H as [H1 H2], H0 as [H3 H4].
    eapply (not_gt_trans _ (confidence b)); eauto.
  - intros [H1 _]. congruence.
Qed.

Lemma comp_strict_weak_ordering_witness :
  comp best_class_3 best_class_3 = false
  /\ (comp best_class_3 lone_class_4 = true ->
      comp lone_class_4 tie_b = true -> comp best_class_3 tie_b = true)
  /\ (comp best_class_3 lone_class_4 = false
      /\ comp lone_class_4 best_class_3 = false ->
      comp lone_class_4 tie_b = false /\ comp tie_b lone_class_4 = false ->
      comp best_class_3 tie_b = false /\ comp tie_b best_class_3 = false)
  /\ (comp best_class_3 nan_candidate = false
      /\ comp nan_candidate best_class_3 = false)
  /\ (comp best_class_3 nan_candidate = false
      /\ comp nan_candidate best_class_3 = false)
  /\ (comp nan_candidate tie_b = false /\ comp tie_b nan_candidate = false)
  /\ ~ (comp best_class_3 tie_b = false /\ comp tie_b best_class_3 = false).
Proof.
  destruct (comp_strict_weak_ordering best_class_3 lone_class_4 tie_b
              nan_candidate)
    as (H1 & H2 & H3 & H4 & H5).
  - repeat constructor.
  - reflexivity.
  - destruct (H5 eq_refl) as (H5a & H5b & H5c).
    exact (conj H1 (conj H2 (conj H3 (conj H4 (conj H5a (conj H5b H5c)))))).
Defined.

(** ** What non-maximum suppression returns *)

Lemma StronglySorted_of_lookup {A} (R : A -> A -> Prop) (l : list A) :
  (forall i j a b, (i < j)%nat -> l !! i = Some a -> l !! j = Some b -> R a b) ->
  StronglySorted R l.
Proof.
  induction l as [|x l IH]; intros H; constructor.
  - apply IH. intros i j a b Hij Hi Hj.
    apply (H (S i) (S j) a b); [lia|done..].
  - apply Forall_forall. intros y Hy.
    apply list_elem_of_lookup_1 in Hy as [j Hj].
    apply (H 0%nat (S j) x y); [lia|done..].
Qed.

(** X5.  [optimizedNMS] only selects: every detection it returns is one of
    the candidates and is returned at most as often as it occurs among
    them, so the result is never longer than the candidate list; and it
    returns the empty list only for the empty candidate list. *)
Theorem nms_selects_candidates std_sort l thr :
  std_sort_contract std_sort -> no_nan l ->
  let results := optimizedNMS std_sort l thr in
  results ⊆+ l
  /\ (forall d, d ∈ results -> d ∈ l)
  /\ (length results <= length l)%nat
  /\ (results = [] <-> l = []).
Proof.
  intros Hsort Hnn results.
  destruct (Hsort l Hnn) as [Hp _].
  assert (Hsub : results ⊆+ l).
  { apply submseteq_sublist_l. exists (std_sort l).
    split; [by apply optimizedNMS_sublist | by symmetry]. }
  split; [exact Hsub|]. split; [|split].
  - intros d Hd. by eapply elem_of_submseteq.
  - by apply submseteq_length.
  - subst results. split.
    + intros Hr. destruct l as [|c l]; [reflexivity|exfalso].
      rewrite (optimizedNMS_keep _ Hsort) in Hr by assumption.
      destruct (std_sort (c :: l)) as [|c' l'].
      * by apply Permutation_nil_r in Hp.
      * rewrite nms_keep_cons in Hr. discriminate.
    + intros ->. reflexivity.
Qed.

Lemma nms_selects_candidates_witness :
  let results :=
    optimizedNMS stable_sort three_candidates
      (F32.of_double default_nms_threshold) in
  results ⊆+ three_candidates
  /\ (forall d, d ∈ results -> d ∈ three_candidates)
  /\ (length results <= length three_candidates)%nat
  /\ (results = [] <-> three_candidates = []).
Proof.
  apply (nms_selects_candidates stable_sort three_candidates
           (F32.of_double default_nms_threshold)).
  - apply stable_sort_contract.
  - repeat constructor.
Defined.

(** X6.  No two detections that [optimizedNMS] returns at different
    positions have the same class and an intersection over union above the
    threshold. *)
Theorem nms_results_separated std_sort l thr i j a b :
  std_sort_contract std_sort -> no_nan l ->
  i <> j ->
  optimizedNMS std_sort l thr !! i = Some a ->
  optimizedNMS std_sort l thr !! j = Some b ->
  id a = id b ->
  F32.gt (calculateIoU (box a) (box b)) thr = false.
Proof.
  intros Hsort Hnn Hij Hi Hj Hid.
  rewrite (optimizedNMS_keep _ Hsort) in Hi, Hj by assumption.
  pose proof (nms_keep_unsuppressed thr (std_sort l)) as Hs.
  assert (Hlt : forall i j a b, (i < j)%nat ->
            nms_keep thr (std_sort l) !! i = Some a ->
            nms_keep thr (std_sort l) !! j = Some b ->
            suppresses thr a b = false).
  { intros i' j' a' b' Hlt Hi' Hj'.
    by apply (StronglySorted_lookup _ _ i' j' a' b' Hs). }
  assert (Hsup : suppresses thr a b = false).
  { destruct (Nat.lt_total i j) as [Hlt'|[->|Hlt']]; [eauto|done|].
    rewrite suppresses_sym. eauto. }
  unfold suppresses in Hsup. rewrite <- Hid, Z.eqb_refl in Hsup. exact Hsup.
Qed.

Lemma nms_results_separated_witness :
  F32.gt (calculateIoU (box best_class_3) (box far_class_3))
         (F32.of_double default_nms_threshold) = false.
Proof.
  apply (nms_results_separated stable_sort [far_class_3; best_class_3]
           (F32.of_double default_nms_threshold) 0%nat 1%nat
           best_class_3 far_class_3).
  - apply stable_sort_contract.
  - repeat constructor.
  - discriminate.
  - vm_compute. reflexivity.
  - vm_compute. reflexivity.
  - reflexivity.
Defined.

(** X7.  [optimizedNMS] drops a candidate only for a reason: every
    candidate either is returned or has the class of a returned detection
    whose confidence is not lower and whose box has an intersection over
    union with its box above the threshold. *)
Theorem nms_drops_only_suppressed std_sort l thr d :
  std_sort_contract std_sort -> no_nan l ->
  d ∈ l ->
  d ∈ optimizedNMS std_sort l thr
  \/ exists c, c ∈ optimizedNMS std_sort l thr
       /\ id c = id d
       /\ F32.gt (calculateIoU (box c) (box d)) thr = true
       /\ F32.le (confidence d) (confidence c) = true.
Proof.
  intros Hsort Hnn Hd.
  destruct (Hsort l Hnn) as [Hp Hs].
  pose proof (no_nan_sorted _ Hsort l Hnn) as Hnns.
  rewrite (optimizedNMS_keep _ Hsort) by assumption.
  rewrite Hp in Hd.
  destruct (nms_keep_complete thr _ _ Hs d Hd) as [Hin|(c & Hc & Hsup & Hr)].
  - by left.
  - right. exists c. split; [assumption|].
    unfold suppresses in Hsup. apply andb_true_iff in Hsup as [Hid Hiou].
    apply Z.eqb_eq in Hid. split; [by symmetry|]. split; [assumption|].
    unfold no_nan in Hnns. rewrite Forall_forall in Hnns.
    apply not_gt_le; [apply Hnns | by apply Hnns | exact Hr].
    eapply elem_of_sublist; [exact Hc | apply nms_keep_sublist].
Qed.

Lemma nms_drops_only_suppressed_witness :
  let d := mkDetectionResult 3 (mkBoxRect 0 10 0 7) (f32_decimal 6 1) in
  d ∈ optimizedNMS stable_sort three_candidates
        (F32.of_double default_nms_threshold)
  \/ exists c, c ∈ optimizedNMS stable_sort three_candidates
                     (F32.of_double default_nms_threshold)
       /\ id c = id d
       /\ F32.gt (calculateIoU (box c) (box d))
                 (F32.of_double default_nms_threshold) = true
       /\ F32.le (confidence d) (confidence c) = true.
Proof.
  apply (nms_drops_only_suppressed stable_sort three_candidates
           (F32.of_double default_nms_threshold)).
  - apply stable_sort_contract.
  - repeat constructor.
  - by left.
Defined.

(** X8.  When no candidate suppresses a candidate that stands after it in
    the list, in particular when the threshold is a NaN, [optimizedNMS]
    returns all candidates: the result is the sorted candidate list, a
    permutation of the candidates. *)
Theorem nms_keeps_all_without_overlap std_sort l thr :
  std_sort_contract std_sort -> no_nan l ->
  (F32.is_nan thr = true
   \/ forall i j a b, (i < j)%nat -> l !! i = Some a -> l !! j = Some b ->
        suppresses thr a b = false) ->
  optimizedNMS std_sort l thr = std_sort l
  /\ optimizedNMS std_sort l thr ≡ₚ l.
Proof.
  intros Hsort Hnn H.
  destruct (Hsort l Hnn) as [Hp _].
  assert (Heq : optimizedNMS std_sort l thr = std_sort l).
  { rewrite (optimizedNMS_keep _ Hsort) by assumption.
    apply nms_keep_fixed.
    eapply StronglySorted_Permutation; [|exact Hp|].
    - intros x y Hxy. by rewrite suppresses_sym.
    - apply StronglySorted_of_lookup. destruct H as [Hnan|H]; [|exact H].
      intros i j a b _ _ _. unfold suppresses, F32.gt, SFltb.
      destruct thr; try discriminate. by rewrite andb_false_r. }
  split; [exact Heq | by rewrite Heq].
Qed.

Lemma nms_keeps_all_without_overlap_witness :
  optimizedNMS stable_sort three_candidates S754_nan
  = stable_sort three_candidates
  /\ optimizedNMS stable_sort three_candidates S754_nan ≡ₚ three_candidates.
Proof.
  apply (nms_keeps_all_without_overlap stable_sort three_candidates S754_nan).
  - apply stable_sort_contract.
  - repeat constructor.
  - by left.
Defined.

Lemma shr_1_nonneg mrs : 0 <= shr_m mrs -> 0 <= shr_m (shr_1 mrs).
Proof.
  destruct mrs as [m r s]. cbn [shr_m]. intros Hm.
  destruct m as [|p|p]; [done| |lia].
  destruct p; cbn [shr_1 shr_m]; lia.
Qed.

Lemma iter_pos_invariant {A} (P : A -> Prop) (f : A -> A) :
  (forall x, P x -> P (f x)) -> forall n x, P x -> P (SpecFloat.iter_pos f n x).
Proof.
  intros Hf. induction n as [n IH|n IH|]; intros x Hx; cbn [SpecFloat.iter_pos]; auto.
Qed.

Lemma shr_nonneg mrs e n : 0 <= shr_m mrs -> 0 <= shr_m (shr mrs e n).1.
Proof.
  intros Hm. destruct n as [|p|p]; cbn [shr fst]; try assumption.
  by apply (iter_pos_invariant (fun x => 0 <= shr_m x) shr_1 shr_1_nonneg).
Qed.

Lemma shr_fexp_nonneg m e l :
  0 <= m -> 0 <= shr_m (shr_fexp F32.prec F32.emax m e l).1.
Proof.
  intros Hm. unfold shr_fexp. apply shr_nonneg. by destruct l as [|[| |]].
Qed.

(** Rounding a non-negative mantissa never yields a NaN, and a finite or
    infinite result has the sign that was passed in. *)
Lemma binary_round_aux_sign sx mx ex lx :
  0 <= mx ->
  match binary_round_aux F32.prec F32.emax sx mx ex lx with
  | S754_nan => False
  | S754_zero s | S754_infinity s | S754_finite s _ _ => s = sx
  end.
Proof.
  intros Hm. unfold binary_round_aux.
  pose proof (shr_fexp_nonneg mx ex lx Hm) as H1.
  destruct (shr_fexp F32.prec F32.emax mx ex lx) as [mrs' e'].
  cbn [fst] in H1.
  assert (H2 : 0 <= round_nearest_even (shr_m mrs') (loc_of_shr_record mrs')).
  { unfold round_nearest_even.
    destruct (loc_of_shr_record mrs') as [|[| |]]; try lia.
    destruct (Z.even (shr_m mrs')); lia. }
  pose proof (shr_fexp_nonneg _ e' loc_Exact H2) as H3.
  destruct (shr_fexp F32.prec F32.emax _ e' loc_Exact) as [mrs'' e''].
  cbn [fst] in H3.
  destruct (shr_m mrs'') as [|p|p]; [reflexivity| |lia].
  by destruct (e'' <=? F32.emax - F32.prec).
Qed.

Lemma binary_round_sign sx mx ex :
  match binary_round F32.prec F32.emax sx mx ex with
  | S754_nan => False
  | S754_zero s | S754_infinity s | S754_finite s _ _ => s = sx
  end.
Proof.
  unfold binary_round.
  destruct (shl_align mx ex _) as [mz ez].
  apply binary_round_aux_sign. lia.
Qed.

Lemma binary_normalize_not_nan m e sz :
  F32.is_nan (binary_normalize F32.prec F32.emax m e sz) = false.
Proof.
  destruct m as [|p|p]; cbn [binary_normalize]; [reflexivity| |].
  - pose proof (binary_round_sign false p e) as H.
    by destruct (binary_round _ _ false p e).
  - pose proof (binary_round_sign true p e) as H.
    by destruct (binary_round _ _ true p e).
Qed.

Lemma binary_normalize_nonneg m e :
  0 <= m -> nonneg_float (binary_normalize F32.prec F32.emax m e false).
Proof.
  intros Hm. destruct m as [|p|p]; cbn [binary_normalize]; [exact I| |lia].
  pose proof (binary_round_sign false p e) as H.
  by destruct (binary_round _ _ false p e).
Qed.

Lemma to_int_nonneg x : nonneg_float x -> 0 <= F32.to_int x.
Proof.
  destruct x as [s|s| |s m e]; cbn [nonneg_float F32.to_int]; try lia.
  intros ->. unfold F32.trunc_mag. destruct e as [|p|p].
  - apply Z.shiftl_nonneg. lia.
  - apply Z.shiftl_nonneg. lia.
  - apply Z.shiftr_nonneg. lia.
Qed.

Lemma round_nonneg x : nonneg_float x -> nonneg_float (F32.round x).
Proof.
  destruct x as [s|s| |s m e]; cbn [nonneg_float F32.round]; try done.
  intros ->. destruct e as [|p|p]; try reflexivity.
  apply binary_normalize_nonneg.
  pose proof (Z.shiftr_nonneg (Zpos m) (Zpos p)) as [_ H].
  specialize (H ltac:(lia)).
  destruct (Z.testbit (Zpos m) (Zpos p - 1)); lia.
Qed.

Lemma clamp_nonneg x bound : nonneg_float (clamp x bound).
Proof.
  unfold clamp, F32.std_max.
  destruct (F32.lt F32.zero _) eqn:Hlt; [|exact I].
  unfold F32.lt, SFltb, F32.zero in Hlt.
  destruct (F32.std_min x (F32.of_int bound)) as [s|s| |s m e];
    try discriminate; cbn [SFcompare nonneg_float] in *;
    by destruct s.
Qed.

(** ** The candidate loop of [detect] *)

Lemma detect_candidate_body_app b s c w h t acc i :
  detect_candidate_body b s c w h t acc i = acc ++ detect_emit b s c w h t i.
Proof.
  unfold detect_emit, detect_candidate_body. cbv zeta.
  destruct (F64.lt _ t); [by rewrite app_nil_r|].
  destruct (_ || _); [by rewrite app_nil_r|reflexivity].
Qed.

Lemma detect_candidates_bind b s c w h t :
  detect_candidates b s c w h t
  = seqZ 0 (TfLiteTensorDim b 1) ≫= detect_emit b s c w h t.
Proof.
  unfold detect_candidates. cbv zeta.
  generalize (seqZ 0 (TfLiteTensorDim b 1)). intros l.
  rewrite <- (app_nil_l (l ≫= _)). generalize (@nil DetectionResult).
  induction l as [|i l IH]; intros acc; cbn [foldl].
  - by rewrite app_nil_r.
  - rewrite IH, detect_candidate_body_app, bind_cons, app_assoc. reflexivity.
Qed.

Lemma detect_emit_length b s c w h t i :
  (length (detect_emit b s c w h t i) <= 1)%nat.
Proof.
  unfold detect_emit, detect_candidate_body. cbv zeta.
  destruct (F64.lt _ t); [simpl; lia|].
  destruct (_ || _); simpl; lia.
Qed.

Lemma bind_length_le {A B} (f : A -> list B) (l : list A) :
  (forall x, (length (f x) <= 1)%nat) ->
  (length (l ≫= f) <= length l)%nat.
Proof.
  intros Hf. induction l as [|x l IH]; [simpl; lia|].
  rewrite bind_cons, length_app. specialize (Hf x). simpl. lia.
Qed.

Lemma detect_emit_inv b s c w h t i d :
  d ∈ detect_emit b s c w h t i ->
  id d = load_u8 (tensor_data c) i
  /\ confidence d
     = get_dequant_value (tensor_data s) kTfLiteUInt8 i
         (F32.of_int (zero_point (tensor_params s))) (scale (tensor_params s))
  /\ F64.lt (F32.to_double (confidence d)) t = false
  /\ 0 <= left (box d) /\ 0 <= top (box d)
  /\ 0 <= right (box d) /\ 0 <= bottom (box d).
Proof.
  unfold detect_emit, detect_candidate_body. cbv zeta.
  destruct (F64.lt _ t) eqn:Hlt; [by rewrite elem_of_nil|].
  destruct (_ || _); [by rewrite elem_of_nil|].
  rewrite app_nil_l, list_elem_of_singleton. intros ->.
  cbn [id confidence box left top right bottom].
  repeat split; try exact Hlt;
    apply to_int_nonneg, round_nonneg, clamp_nonneg.
Qed.

(** X9.  The candidate loop emits at most one candidate per box index and
    no candidate for a number of boxes that is zero or negative.  Every
    candidate stems from a box index within range: its class id is the
    byte of the class tensor at that index, its confidence the dequantized
    score at that index, which is not below the box threshold, and none of
    its four box coordinates is negative. *)
Theorem detect_candidates_sound b s c w h t d :
  d ∈ detect_candidates b s c w h t ->
  (length (detect_candidates b s c w h t)
   <= Z.to_nat (TfLiteTensorDim b 1))%nat
  /\ exists i,
       0 <= i < TfLiteTensorDim b 1
       /\ id d = load_u8 (tensor_data c) i
       /\ confidence d
          = get_dequant_value (tensor_data s) kTfLiteUInt8 i
              (F32.of_int (zero_point (tensor_params s)))
              (scale (tensor_params s))
       /\ F64.lt (F32.to_double (confidence d)) t = false
       /\ 0 <= left (box d) /\ 0 <= top (box d)
       /\ 0 <= right (box d) /\ 0 <= bottom (box d).
Proof.
  rewrite detect_candidates_bind. intros Hd. split.
  - etransitivity; [apply bind_length_le, detect_emit_length|].
    by rewrite length_seqZ.
  - apply list_elem_of_bind in Hd as (i & Hd & Hi).
    apply elem_of_seqZ in Hi. exists i. split; [lia|].
    by apply detect_emit_inv in Hd.
Qed.

Lemma detect_candidates_sound_witness :
  let d := mkDetectionResult 7 (mkBoxRect 1 1 1 1)
             (S754_finite false 16711680 (-24)) in
  (length (detect_candidates thin_boxes thin_scores thin_classes 4 4
             default_box_threshold)
   <= Z.to_nat (TfLiteTensorDim thin_boxes 1))%nat
  /\ exists i,
       0 <= i < TfLiteTensorDim thin_boxes 1
       /\ id d = load_u8 (tensor_data thin_classes) i
       /\ confidence d
          = get_dequant_value (tensor_data thin_scores) kTfLiteUInt8 i
              (F32.of_int (zero_point (tensor_params thin_scores)))
              (scale (tensor_params thin_scores))
       /\ F64.lt (F32.to_double (confidence d)) default_box_threshold = false
       /\ 0 <= left (box d) /\ 0 <= top (box d)
       /\ 0 <= right (box d) /\ 0 <= bottom (box d).
Proof.
  apply (detect_candidates_sound thin_boxes thin_scores thin_classes 4 4
           default_box_threshold).
  vm_compute. by left.
Defined.

(** ** The outcomes of [detect] and [get_input_shape] *)

(** When [tensor_image_dims] succeeds, the three objects have been written,
    from the first, the second and, if there is one, the third
    non-singleton dimension. *)
Lemma tensor_image_dims_success tensor o :
  (tensor_image_dims tensor o).1 = true ->
  exists w h rest,
    non_singleton (tensor_dims tensor) = w :: h :: rest
    /\ (length rest <= 1)%nat
    /\ resolved_channels (tensor_dims tensor) <= 4
    /\ (tensor_image_dims tensor o).2
       = mkImageDims (Some w) (Some h)
           (Some (resolved_channels (tensor_dims tensor))).
Proof.
  unfold tensor_image_dims, resolved_channels.
  pose proof (tensor_image_dims_loop_spec (tensor_dims tensor) 0 o ltac:(lia))
    as Hloop.
  destruct (tensor_image_dims_loop (tensor_dims tensor) 0 o) as [[cursor|] o1];
    [|discriminate].
  destruct Hloop as (_ & Hcur & Hle & Ho1).
  destruct (non_singleton (tensor_dims tensor)) as [|a [|b [|c [|e ns']]]];
    cbn [length] in *; try lia; subst cursor o1; simpl; try discriminate.
  - intros _. exists a, b, []. repeat split; simpl; lia.
  - destruct (c >? 4) eqn:Hc; simpl; [discriminate|].
    intros _. exists a, b, [c]. repeat split; simpl; lia.
Qed.

Lemma detect_unfold std_sort cv_resize interpreter image bt nt :
  detect std_sort cv_resize interpreter image bt nt
  = match shape image with
    | [shape_0; shape_1; shape_2] =>
        if (tensor_image_dims (input_tensor interpreter) uninitialised).1
        then
          match detect_invoked_input cv_resize interpreter image with
          | Some input =>
              match invoke interpreter input with
              | None => inl Interpreter_invocation_failed
              | Some (b, s, c) =>
                  inr (optimizedNMS std_sort
                         (detect_candidates b s c
                            (wrap32 shape_1) (wrap32 shape_0) bt)
                         (F32.of_double nt))
              end
          | None => inl (OpenCV_error StsAssert)
          end
        else inl Invalid_input_tensor_shape
    | _ => inl Image_must_be_3_dimensional
    end.
Proof.
  unfold detect, detect_invoked_input.
  destruct (shape image) as [|h [|w [|c [|]]]]; try reflexivity.
  pose proof (tensor_image_dims_success (input_tensor interpreter)
                uninitialised) as Hok.
  destruct (tensor_image_dims (input_tensor interpreter) uninitialised)
    as [[] o]; cbn [fst snd] in *.
  - destruct (Hok eq_refl) as (in_w & in_h & rest & _ & _ & _ & ->).
    by destruct (detect_fill_input cv_resize (input_tensor interpreter)
                   (ptr image) (wrap32 h) (wrap32 w) in_w in_h) as [[]|t].
  - by destruct o as [[?|] [?|] [?|]].
Qed.

(** When the two checks of [detect] pass, the input tensor is handed to the
    interpreter unless an OpenCV call throws. *)
Lemma detect_invoked_input_cases cv_resize interpreter image shape_0 shape_1
    shape_2 :
  shape image = [shape_0; shape_1; shape_2] ->
  (tensor_image_dims (input_tensor interpreter) uninitialised).1 = true ->
  exists in_w in_h rest,
    non_singleton (tensor_dims (input_tensor interpreter))
    = in_w :: in_h :: rest
    /\ detect_invoked_input cv_resize interpreter image
       = if detect_opencv_throws (wrap32 shape_0) (wrap32 shape_1) in_w in_h
         then None
         else Some (mkTensor (tensor_type (input_tensor interpreter))
                      (tensor_dims (input_tensor interpreter))
                      (tensor_params (input_tensor interpreter))
                      (memcpy (tensor_data (input_tensor interpreter))
                         (mat_bytes
                            (cvtColor_BGR2RGB
                               (mat_of_buffer (wrap32 shape_0) (wrap32 shape_1)
                                  CV_8UC3 (ptr image))))
                         (TfLiteTensorByteSize (input_tensor interpreter)))).
Proof.
  intros Hs Hd. unfold detect_invoked_input. rewrite Hs.
  destruct (tensor_image_dims_success _ _ Hd)
    as (in_w & in_h & rest & Hns & _ & _ & Ho).
  exists in_w, in_h, rest. split; [exact Hns|].
  destruct (tensor_image_dims (input_tensor interpreter) uninitialised)
    as [ok o]. cbn [fst snd] in *. subst ok o.
  rewrite detect_fill_input_outcome.
  by destruct (detect_opencv_throws (wrap32 shape_0) (wrap32 shape_1) in_w in_h).
Qed.

(** X10.  The outcomes of [detect], decided in this order: the error
    "Image must be 3-dimensional" exactly when the image does not have
    three dimensions; "Invalid input tensor shape" exactly when it has and
    [tensor_image_dims] rejects the input tensor; the [cv::Exception] of an
    OpenCV assertion exactly when both checks pass and the image, its
    dimensions narrowed to [int], is empty or has another size than the
    model input and cannot be letterboxed; "Interpreter invocation failed"
    exactly when the input tensor has been filled and the invocation on it
    fails.  In every other case [detect] returns the result of
    [optimizedNMS] on the candidates built from the three output tensors,
    with the image width and height taken from the second and the first
    dimension of the image. *)
Theorem detect_outcomes std_sort cv_resize interpreter image bt nt :
  let out := detect std_sort cv_resize interpreter image bt nt in
  let dims := tensor_dims (input_tensor interpreter) in
  let dims_ok := (tensor_image_dims (input_tensor interpreter) uninitialised).1 in
  let img_h := wrap32 (default 0 (shape image !! 0%nat)) in
  let img_w := wrap32 (default 0 (shape image !! 1%nat)) in
  let in_w := default 0 (non_singleton dims !! 0%nat) in
  let in_h := default 0 (non_singleton dims !! 1%nat) in
  let throws := detect_opencv_throws img_h img_w in_w in_h in
  (out = inl Image_must_be_3_dimensional <-> length (shape image) <> 3%nat)
  /\ (out = inl Invalid_input_tensor_shape <->
      length (shape image) = 3%nat /\ dims_ok = false)
  /\ (out = inl (OpenCV_error StsAssert) <->
      length (shape image) = 3%nat /\ dims_ok = true /\ throws = true)
  /\ (out = inl Interpreter_invocation_failed <->
      exists t, detect_invoked_input cv_resize interpreter image = Some t
                /\ invoke interpreter t = None)
  /\ (forall r, out = inr r <->
      exists t b s c,
        detect_invoked_input cv_resize interpreter image = Some t
        /\ invoke interpreter t = Some (b, s, c)
        /\ r = optimizedNMS std_sort (detect_candidates b s c img_w img_h bt)
                 (F32.of_double nt))
  /\ (detect_invoked_input cv_resize interpreter image = None <->
      length (shape image) <> 3%nat \/ dims_ok = false \/ throws = true).
Proof.
  cbv zeta. rewrite detect_unfold.
  assert (Hshort : length (shape image) <> 3%nat ->
            detect_invoked_input cv_resize interpreter image = None
            /\ match shape image with
               | [img_h; img_w; img_c] => False
               | _ => True
               end).
  { unfold detect_invoked_input.
    destruct (shape image) as [|h [|w [|c [|x l]]]]; cbn [length]; try done. }
  destruct (decide (length (shape image) = 3%nat)) as [Hlen|Hlen].
  2:{ destruct (Hshort Hlen) as [Hnone Hm]. rewrite Hnone.
      destruct (shape image) as [|h [|w [|c [|x l]]]]; try done;
        (split; [done|]; split; [split; [done|tauto]|];
         split; [split; [done|tauto]|];
         split; [split; [done|by intros (? & ? & ?)]|];
         split; [intros r; split; [done|by intros (? & ? & ? & ? & ? & ?)]|];
         split; [by left|done]). }
  clear Hshort.
  destruct (shape image) as [|h [|w [|c [|x l]]]] eqn:Hshape; try done.
  cbn [lookup list_lookup default from_option]. unfold Datatypes.id.
  destruct ((tensor_image_dims (input_tensor interpreter) uninitialised).1)
    eqn:Hdims.
  - destruct (detect_invoked_input_cases cv_resize interpreter image h w c
                Hshape Hdims) as (in_w & in_h & rest & Hns & Ht).
    rewrite Hns. cbn [lookup list_lookup default from_option].
    unfold Datatypes.id.
    rewrite Ht.
    destruct (detect_opencv_throws (wrap32 h) (wrap32 w) in_w in_h).
    { split; [split; [done|by intros []]|].
      split; [split; [done|by intros [_ ?]]|].
      split; [done|].
      split; [split; [done|by intros (? & ? & ?)]|].
      split; [|split; [tauto|done]].
      intros r. split; [done|by intros (? & ? & ? & ? & ? & ?)]. }
    match goal with |- context [Some ?t0] => set (t := t0) end.
    destruct (invoke interpreter t) as [[[b s] c']|] eqn:Hinv.
    + split; [split; [done|by intros []]|].
      split; [split; [done|by intros [_ ?]]|].
      split; [split; [done|by intros (_ & _ & ?)]|].
      split; [split; [done|intros (t' & [= <-] & ?); congruence]|].
      split; [|split; [done|intros [?|[?|?]]; done]].
      intros r. split.
      * intros [= <-]. by exists t, b, s, c'.
      * intros (t' & b' & s' & c'' & [= <-] & Hi & ->).
        rewrite Hinv in Hi. by injection Hi as <- <- <-.
    + split; [split; [done|by intros []]|].
      split; [split; [done|by intros [_ ?]]|].
      split; [split; [done|by intros (_ & _ & ?)]|].
      split; [split; [by exists t|done]|].
      split; [|split; [done|intros [?|[?|?]]; done]].
      intros r. split; [done|].
      intros (t' & b' & s' & c'' & [= <-] & Hi & _). congruence.
  - assert (Hnone : detect_invoked_input cv_resize interpreter image = None).
    { unfold detect_invoked_input. rewrite Hshape.
      destruct (tensor_image_dims (input_tensor interpreter) uninitialised)
        as [ok o]. cbn [fst] in Hdims. subst ok.
      by destruct o as [[?|] [?|] [?|]]. }
    rewrite Hnone.
    split; [split; [done|by intros []]|].
    split; [done|].
    split; [split; [done|by intros (_ & ? & _)]|].
    split; [split; [done|by intros (? & ? & ?)]|].
    split; [|split; [tauto|done]].
    intros r. split; [done|by intros (? & ? & ? & ? & ? & ?)].
Qed.

Lemma detect_invalid_shape_iff std_sort cv_resize interpreter image bt nt :
  length (shape image) = 3%nat ->
  (detect std_sort cv_resize interpreter image bt nt
   = inl Invalid_input_tensor_shape <->
   (tensor_image_dims (input_tensor interpreter) uninitialised).1 = false).
Proof.
  intros Hlen. rewrite detect_unfold.
  destruct (shape image) as [|h [|w [|c [|x l]]]] eqn:Hshape; try done.
  destruct ((tensor_image_dims (input_tensor interpreter) uninitialised).1)
    eqn:Hd; [|done].
  destruct (detect_invoked_input cv_resize interpreter image) as [t|];
    [|done].
  by destruct (invoke interpreter t) as [[[b s] c']|].
Qed.

(** X11.  [get_input_shape] fails exactly when [tensor_image_dims] rejects
    the input tensor, which is exactly when [detect] fails with "Invalid
    input tensor shape" on an image of three dimensions.  Otherwise its
    tuple holds, in this order, the second non-singleton dimension of the
    tensor, the first one, and the resolved channel count. *)
Theorem get_input_shape_outcomes std_sort cv_resize interpreter image bt nt :
  let dims := tensor_dims (input_tensor interpreter) in
  let dims_ok := (tensor_image_dims (input_tensor interpreter) uninitialised).1 in
  (get_input_shape interpreter = inl Failed_to_get_input_dimensions <->
     dims_ok = false)
  /\ (forall h w c,
        get_input_shape interpreter = inr (h, w, c) <->
        dims_ok = true
        /\ c = resolved_channels dims
        /\ exists rest, non_singleton dims = w :: h :: rest)
  /\ (length (shape image) = 3%nat ->
      (detect std_sort cv_resize interpreter image bt nt
       = inl Invalid_input_tensor_shape <->
       get_input_shape interpreter = inl Failed_to_get_input_dimensions)).
Proof.
  cbv zeta.
  assert (Hget :
    if (tensor_image_dims (input_tensor interpreter) uninitialised).1
    then exists w h rest,
           non_singleton (tensor_dims (input_tensor interpreter)) = w :: h :: rest
           /\ get_input_shape interpreter
              = inr (h, w, resolved_channels (tensor_dims (input_tensor interpreter)))
    else get_input_shape interpreter = inl Failed_to_get_input_dimensions).
  { unfold get_input_shape.
    destruct ((tensor_image_dims (input_tensor interpreter) uninitialised).1)
      eqn:Hd.
    - destruct (tensor_image_dims_success _ _ Hd)
        as (w & h & rest & Hns & _ & _ & Ho).
      exists w, h, rest. split; [exact Hns|].
      destruct (tensor_image_dims (input_tensor interpreter) uninitialised)
        as [ok o]. cbn [fst snd] in *. by subst ok o.
    - destruct (tensor_image_dims (input_tensor interpreter) uninitialised)
        as [ok o]. cbn [fst] in Hd. by subst ok. }
  destruct ((tensor_image_dims (input_tensor interpreter) uninitialised).1)
    eqn:Hd.
  - destruct Hget as (w0 & h0 & rest0 & Hns & Hg). rewrite Hg.
    split; [done|]. split.
    + intros h w c. split.
      * intros [= <- <- <-]. split; [done|]. split; [done|by exists rest0].
      * intros (_ & -> & rest & Hns'). rewrite Hns in Hns'.
        by injection Hns' as <- <- _.
    + intros Hlen. rewrite detect_invalid_shape_iff, Hd by assumption. done.
  - rewrite Hget. split; [done|]. split.
    + intros h w c. split; [done|by intros [? _]].
    + intros Hlen. rewrite detect_invalid_shape_iff, Hd by assumption. done.
Qed.

(** X12.  For an input tensor of the dimensions [1, H, W, C], the usual
    layout of an image tensor, [get_input_shape] returns [(W, H, C)]: the
    first component of its tuple is the third dimension of the tensor and
    the second component is the second one, because [tensor_image_dims]
    stores the first non-singleton dimension as the width. *)
Theorem get_input_shape_nhwc interpreter H W C :
  tensor_dims (input_tensor interpreter) = [1; H; W; C] ->
  2 <= H -> 2 <= W -> 2 <= C <= 4 ->
  get_input_shape interpreter = inr (W, H, C)
  /\ (tensor_image_dims (input_tensor interpreter) uninitialised).2
     = mkImageDims (Some H) (Some W) (Some C).
Proof.
  intros Hdims HH HW HC.
  assert (Hns : non_singleton [1; H; W; C] = [H; W; C]).
  { unfold non_singleton. cbn [List.filter].
    assert (E2 : (H =? 1) = false) by lia.
    assert (E4 : (W =? 1) = false) by lia.
    assert (E6 : (C =? 1) = false) by lia.
    change (1 =? 1) with true. rewrite E2, E4, E6. reflexivity. }
  assert (Hdim : tensor_image_dims (input_tensor interpreter) uninitialised
                 = (true, mkImageDims (Some H) (Some W) (Some C))).
  { unfold tensor_image_dims. rewrite Hdims.
    pose proof (tensor_image_dims_loop_spec [1; H; W; C] 0 uninitialised
                  ltac:(lia)) as Hloop.
    rewrite Hns in Hloop.
    destruct (tensor_image_dims_loop [1; H; W; C] 0 uninitialised)
      as [[cursor|] o1].
    - destruct Hloop as (_ & -> & _ & ->). simpl.
      assert (E7 : (C >? 4) = false) by lia. by rewrite E7.
    - exfalso. destruct Hloop as [Hin|Hgt]; [|simpl in Hgt; lia].
      rewrite !elem_of_cons, elem_of_nil in Hin. lia. }
  unfold get_input_shape. rewrite Hdim. done.
Qed.

Lemma get_input_shape_nhwc_witness :
  get_input_shape (interpreter_with
                     (mkTensor kTfLiteUInt8 [1; 480; 640; 3]
                        (mkQuantizationParams F32.zero 0) [])
                     (thin_boxes, thin_scores, thin_classes))
  = inr (640, 480, 3)
  /\ (tensor_image_dims (mkTensor kTfLiteUInt8 [1; 480; 640; 3]
                           (mkQuantizationParams F32.zero 0) [])
        uninitialised).2
     = mkImageDims (Some 480) (Some 640) (Some 3).
Proof.
  apply (get_input_shape_nhwc
           (interpreter_with
              (mkTensor kTfLiteUInt8 [1; 480; 640; 3]
                 (mkQuantizationParams F32.zero 0) [])
              (thin_boxes, thin_scores, thin_classes)) 480 640 3);
    [reflexivity | lia | lia | lia].
Defined.

Lemma load_u8_byte data i : bytes_ok data -> 0 <= load_u8 data i < 256.
Proof.
  intros Hb. unfold load_u8.
  destruct (data !! Z.to_nat i) as [v|] eqn:Hv; cbn [default from_option id];
    [|lia].
  unfold bytes_ok in Hb. rewrite Forall_forall in Hb.
  eapply Hb, list_elem_of_lookup_2, Hv.
Qed.

Lemma sub_of_int_not_nan raw zp :
  0 <= raw < 256 ->
  F32.is_nan (F32.sub (F32.of_int raw) (F32.of_int zp)) = false.
Proof.
  intros Hraw.
  pose proof (binary_normalize_not_nan zp 0 false) as Hzp.
  fold (F32.of_int zp) in Hzp.
  assert (Hx : F32.of_int raw = S754_zero false
               \/ exists m e, F32.of_int raw = S754_finite false m e).
  { destruct (decide (raw = 0)) as [->|Hne]; [by left|right].
    destruct (of_int_small raw ltac:(lia)) as (m & e & H & _). eauto. }
  unfold F32.sub.
  destruct Hx as [->|(m & e & ->)];
    destruct (F32.of_int zp) as [s|s| |s m' e']; try discriminate;
    cbn [SFsub F32.is_nan]; try reflexivity;
    try (by destruct s); apply binary_normalize_not_nan.
Qed.

Lemma mul_finite_not_nan x s m e :
  F32.is_nan x = false ->
  F32.is_nan (F32.mul x (S754_finite s m e)) = false.
Proof.
  destruct x as [sx|sx| |sx mx ex]; try discriminate; intros _;
    unfold F32.mul; cbn [SFmul F32.is_nan]; try reflexivity.
  pose proof (binary_round_aux_sign (xorb sx s) (Zpos (mx * m)) (ex + e)
                loc_Exact ltac:(lia)) as H.
  by destruct (binary_round_aux _ _ _ _ _ _).
Qed.

Lemma detect_candidates_no_nan b s c w h t :
  bytes_ok (tensor_data s) -> finite_scale (tensor_params s) ->
  no_nan (detect_candidates b s c w h t).
Proof.
  intros Hb Hs. apply Forall_forall. intros d Hd.
  rewrite detect_candidates_bind in Hd.
  apply list_elem_of_bind in Hd as (i & Hd & _).
  apply detect_emit_inv in Hd as (_ & -> & _).
  unfold finite_scale in Hs. unfold get_dequant_value.
  destruct (scale (tensor_params s)) as [| | |sg m e]; try done.
  apply mul_finite_not_nan, sub_of_int_not_nan. by apply load_u8_byte.
Qed.

(** X13.  With a [std::sort] that meets its contract and a model whose
    score and class tensors hold bytes and whose score scale is finite,
    every detection that [detect] returns stems from a box index of the
    output tensors: its class id is the class byte at that index, a number
    from 0 to 255, its confidence is the dequantized score at that index
    and is not below the box threshold, and no coordinate of its box is
    negative.  There are at most as many detections as the box tensor
    declares boxes. *)
Theorem detect_results_sound std_sort cv_resize interpreter image bt nt r d :
  std_sort_contract std_sort ->
  quantized_outputs interpreter ->
  detect std_sort cv_resize interpreter image bt nt = inr r ->
  d ∈ r ->
  exists t b s c i,
    detect_invoked_input cv_resize interpreter image = Some t
    /\ invoke interpreter t = Some (b, s, c)
    /\ (length r <= Z.to_nat (TfLiteTensorDim b 1))%nat
    /\ 0 <= i < TfLiteTensorDim b 1
    /\ id d = load_u8 (tensor_data c) i /\ 0 <= id d < 256
    /\ confidence d
       = get_dequant_value (tensor_data s) kTfLiteUInt8 i
           (F32.of_int (zero_point (tensor_params s)))
           (scale (tensor_params s))
    /\ F64.lt (F32.to_double (confidence d)) bt = false
    /\ 0 <= left (box d) /\ 0 <= top (box d)
    /\ 0 <= right (box d) /\ 0 <= bottom (box d).
Proof.
  intros Hsort Hq Hdet Hd. rewrite detect_unfold in Hdet.
  destruct (shape image) as [|h [|w [|ch [|x l]]]]; try discriminate.
  destruct ((tensor_image_dims (input_tensor interpreter) uninitialised).1);
    [|discriminate].
  destruct (detect_invoked_input cv_resize interpreter image) as [t|];
    [|discriminate].
  destruct (invoke interpreter t) as [[[b s] c]|] eqn:Hinv; [|discriminate].
  injection Hdet as <-.
  destruct (Hq t b s c Hinv) as (Hbs & Hbc & Hfs).
  pose proof (detect_candidates_no_nan b s c (wrap32 w) (wrap32 h) bt Hbs Hfs) as Hnn.
  destruct (Hsort _ Hnn) as [Hp _].
  pose proof (optimizedNMS_sublist _ Hsort (F32.of_double nt) _ Hnn) as Hsub.
  assert (Hin : d ∈ detect_candidates b s c (wrap32 w) (wrap32 h) bt).
  { rewrite Hp. eapply elem_of_sublist; eassumption. }
  assert (Hlen : (length (optimizedNMS std_sort (detect_candidates b s c (wrap32 w) (wrap32 h) bt)
                            (F32.of_double nt))
                  <= Z.to_nat (TfLiteTensorDim b 1))%nat).
  { apply sublist_length in Hsub. apply Permutation_length in Hp.
    rewrite <- Hp in Hsub. etransitivity; [exact Hsub|].
    rewrite detect_candidates_bind.
    etransitivity; [apply bind_length_le, detect_emit_length|].
    by rewrite length_seqZ. }
  rewrite detect_candidates_bind in Hin.
  apply list_elem_of_bind in Hin as (i & Hin & Hi).
  apply elem_of_seqZ in Hi.
  apply detect_emit_inv in Hin as (Hid & Hconf & Hthr & Hl & Ht & Hr & Hbt).
  exists t, b, s, c, i.
  split; [reflexivity|]. split; [exact Hinv|]. split; [exact Hlen|].
  split; [lia|]. split; [exact Hid|].
  split; [rewrite Hid; by apply load_u8_byte|].
  by repeat split.
Qed.

Lemma detect_results_sound_witness :
  let d := mkDetectionResult 7 (mkBoxRect 1 1 1 1)
             (S754_finite false 16711680 (-24)) in
  let interpreter :=
    interpreter_with input_4x4 (thin_boxes, thin_scores, thin_classes) in
  exists t b s c i,
    detect_invoked_input (fun img _ _ => img) interpreter image_4x4 = Some t
    /\ invoke interpreter t = Some (b, s, c)
    /\ (length [d] <= Z.to_nat (TfLiteTensorDim b 1))%nat
    /\ 0 <= i < TfLiteTensorDim b 1
    /\ id d = load_u8 (tensor_data c) i /\ 0 <= id d < 256
    /\ confidence d
       = get_dequant_value (tensor_data s) kTfLiteUInt8 i
           (F32.of_int (zero_point (tensor_params s)))
           (scale (tensor_params s))
    /\ F64.lt (F32.to_double (confidence d)) default_box_threshold = false
    /\ 0 <= left (box d) /\ 0 <= top (box d)
    /\ 0 <= right (box d) /\ 0 <= bottom (box d).
Proof.
  apply (detect_results_sound stable_sort (fun img _ _ => img)
           (interpreter_with input_4x4 (thin_boxes, thin_scores, thin_classes))
           image_4x4 default_box_threshold default_nms_threshold).
  - apply stable_sort_contract.
  - intros t b s c [= <- <- <-].
    split; [|split]; [repeat constructor; lia..|exact I].
  - vm_compute. reflexivity.
  - by left.
Defined.

(** ** The bytes copied into the input tensor *)

Lemma bind_uniform_length {A B} (f : A -> list B) (n : nat) (l : list A) :
  (forall x, length (f x) = n) -> length (l ≫= f) = (length l * n)%nat.
Proof.
  intros Hf. induction l as [|x l IH]; [reflexivity|].
  rewrite bind_cons, length_app, Hf, IH. simpl. lia.
Qed.

Lemma bind_uniform_lookup {B} (f : Z -> list B) (n : nat) :
  (forall x, length (f x) = n) ->
  forall len s i j, (i < len)%nat -> (j < n)%nat ->
    (seqZ s (Z.of_nat len) ≫= f) !! (i * n + j)%nat = f (s + Z.of_nat i) !! j.
Proof.
  intros Hf. induction len as [|len IH]; intros s i j Hi Hj; [lia|].
  rewrite seqZ_cons by lia.
  replace (Z.pred (Z.of_nat (S len))) with (Z.of_nat len) by lia.
  rewrite bind_cons. destruct i as [|i].
  - rewrite lookup_app_l by (rewrite Hf; lia).
    simpl. by rewrite Z.add_0_r.
  - rewrite lookup_app_r by (rewrite Hf; lia).
    rewrite Hf. replace (S i * n + j - n)%nat with (i * n + j)%nat by lia.
    rewrite IH by lia.
    replace (Z.succ s + Z.of_nat i) with (s + Z.of_nat (S i)) by lia.
    reflexivity.
Qed.

Lemma mat_bytes_lookup m r c k :
  0 <= r < rows m -> 0 <= c < cols m -> 0 <= k < mat_channels (mat_type m) ->
  load_u8 (mat_bytes m) ((r * cols m + c) * mat_channels (mat_type m) + k)
  = mat_at m r c k.
Proof.
  intros Hr Hc Hk. unfold load_u8, mat_bytes.
  set (ch := mat_channels (mat_type m)) in *.
  set (inner := fun r c => seqZ 0 ch ≫= (fun k => [mat_at m r c k])).
  set (middle := fun r => seqZ 0 (cols m) ≫= inner r).
  assert (Hinner : forall r c, length (inner r c) = Z.to_nat ch).
  { intros. unfold inner.
    rewrite (bind_uniform_length _ 1%nat) by done. rewrite length_seqZ. lia. }
  assert (Hmiddle : forall r, length (middle r)
                              = (Z.to_nat (cols m) * Z.to_nat ch)%nat).
  { intros. unfold middle.
    rewrite (bind_uniform_length _ (Z.to_nat ch)) by apply Hinner.
    by rewrite length_seqZ. }
  change (default 0
            ((seqZ 0 (rows m) ≫= middle)
               !! Z.to_nat ((r * cols m + c) * ch + k)) = mat_at m r c k).
  replace (Z.to_nat ((r * cols m + c) * ch + k))
    with (Z.to_nat r * (Z.to_nat (cols m) * Z.to_nat ch)
          + (Z.to_nat c * Z.to_nat ch + Z.to_nat k))%nat by nia.
  rewrite <- (Z2Nat.id (rows m)) at 1 by lia.
  rewrite (bind_uniform_lookup middle _ Hmiddle) by nia.
  unfold middle at 1.
  rewrite <- (Z2Nat.id (cols m)) at 1 by lia.
  rewrite (bind_uniform_lookup (inner _) _ (Hinner _)) by lia.
  unfold inner at 1.
  replace (Z.to_nat k) with (Z.to_nat k * 1 + 0)%nat by lia.
  rewrite <- (Z2Nat.id ch) at 1 by lia.
  rewrite (bind_uniform_lookup _ 1%nat) by (done || lia).
  simpl. f_equal; lia.
Qed.

Lemma load_u8_memcpy dst src n i :
  0 <= i < n -> load_u8 (memcpy dst src n) i = load_u8 src i.
Proof.
  intros Hi.
  assert (H : (memcpy dst src n : list Z) !! Z.to_nat i
              = Some (load_u8 src i)).
  { unfold memcpy.
    rewrite lookup_app_l by (rewrite length_fmap, length_seqZ; lia).
    rewrite list_lookup_fmap, lookup_seqZ_lt by lia.
    simpl. do 2 f_equal. lia. }
  unfold load_u8 at 1. unfold buffer in *. by rewrite H.
Qed.

Lemma memcpy_length dst src :
  length (memcpy dst src (Z.of_nat (length dst))) = length dst.
Proof.
  unfold memcpy.
  rewrite length_app, length_fmap, length_seqZ, length_drop. lia.
Qed.

(** X14.  When no OpenCV call throws, so that [detect] fills the input
    tensor, and neither the image buffer nor the tensor is read or written
    past its end (the buffer holds three bytes for every pixel and the
    tensor has no more bytes than the image), the tensor keeps its type, its
    dimensions, its quantization parameters and its byte size, and every
    byte of it is the byte of the unscaled image at the same pixel with the
    first and the third channel exchanged. *)
Theorem detect_fill_input_layout cv_resize input buf_ptr img_h img_w in_w in_h
    filled r c k :
  detect_fill_input cv_resize input buf_ptr img_h img_w in_w in_h = inr filled ->
  img_h * img_w * 3 <= Z.of_nat (length buf_ptr) ->
  TfLiteTensorByteSize input <= img_h * img_w * 3 ->
  0 <= r < img_h -> 0 <= c < img_w -> 0 <= k < 3 ->
  (r * img_w + c) * 3 + k < TfLiteTensorByteSize input ->
  load_u8 (tensor_data filled) ((r * img_w + c) * 3 + k)
  = load_u8 buf_ptr ((r * img_w + c) * 3 + (2 - k))
  /\ TfLiteTensorByteSize filled = TfLiteTensorByteSize input
  /\ tensor_type filled = tensor_type input
  /\ tensor_dims filled = tensor_dims input
  /\ tensor_params filled = tensor_params input.
Proof.
  intros Hfill _ _ Hr Hc Hk Hsize.
  rewrite detect_fill_input_outcome in Hfill.
  destruct (detect_opencv_throws img_h img_w in_w in_h); [discriminate|].
  injection Hfill as <-.
  cbn [tensor_data tensor_type tensor_dims tensor_params].
  split; [|split; [|done]].
  - rewrite load_u8_memcpy by nia.
    pose proof (mat_bytes_lookup
                  (cvtColor_BGR2RGB (mat_of_buffer img_h img_w CV_8UC3 buf_ptr))
                  r c k) as H.
    cbn [rows cols mat_type cvtColor_BGR2RGB mat_of_buffer mat_channels
         CV_8UC3 mat_at] in H.
    by rewrite H.
  - unfold TfLiteTensorByteSize. cbn [tensor_data].
    by rewrite memcpy_length.
Qed.

Lemma detect_fill_input_layout_witness :
  exists filled,
    detect_fill_input nearest_resize input_4x4 (seqZ 0 48) 4 4 4 4 = inr filled
    /\ load_u8 (tensor_data filled) ((1 * 4 + 2) * 3 + 0)
       = load_u8 (seqZ 0 48) ((1 * 4 + 2) * 3 + (2 - 0))
    /\ TfLiteTensorByteSize filled = TfLiteTensorByteSize input_4x4
    /\ tensor_type filled = tensor_type input_4x4
    /\ tensor_dims filled = tensor_dims input_4x4
    /\ tensor_params filled = tensor_params input_4x4.
Proof.
  eexists. split; [rewrite detect_fill_input_outcome; reflexivity|].
  apply (detect_fill_input_layout nearest_resize input_4x4 (seqZ 0 48)
           4 4 4 4 _ 1 2 0);
    [rewrite detect_fill_input_outcome; reflexivity
    | vm_compute; congruence | vm_compute; congruence
    | lia | lia | lia | vm_compute; reflexivity].
Defined.

(** ** Exact cases of the arithmetic *)

Lemma sub_self_zero x :
  match x with S754_zero false | S754_finite _ _ _ => True | _ => False end ->
  F32.sub x x = S754_zero false.
Proof.
  destruct x as [[]| | |s m e]; try done. intros _.
  unfold F32.sub. cbn [SFsub]. by rewrite Z.sub_diag.
Qed.

(** X15.  A raw byte equal to the zero point dequantizes to zero, whatever
    the finite scale is: the result is the zero that carries the sign of
    the scale. *)
Theorem dequant_at_zero_point data idx sg m e :
  bytes_ok data ->
  get_dequant_value data kTfLiteUInt8 idx
    (F32.of_int (load_u8 data idx)) (S754_finite sg m e)
  = S754_zero sg.
Proof.
  intros Hb. pose proof (load_u8_byte data idx Hb) as Hraw.
  unfold get_dequant_value. rewrite sub_self_zero.
  - by destruct sg.
  - destruct (decide (load_u8 data idx = 0)) as [->|Hne]; [done|].
    by destruct (of_int_small (load_u8 data idx) ltac:(lia)) as (? & ? & -> & _).
Qed.

Lemma dequant_at_zero_point_witness :
  get_dequant_value [128; 255] kTfLiteUInt8 0
    (F32.of_int (load_u8 [128; 255] 0)) (S754_finite false 8421507 (-31))
  = S754_zero false.
Proof.
  apply (dequant_at_zero_point [128; 255] 0 false 8421507 (-31)).
  repeat constructor; lia.
Defined.

Lemma shr_shl_23 m :
  SpecFloat.iter_pos shr_1 23
    {| shr_m := Zpos (8388608 * m); shr_r := false; shr_s := false |}
  = {| shr_m := Zpos m; shr_r := false; shr_s := false |}.
Proof. reflexivity. Qed.

Lemma digits_mul_23 m :
  Zpos (digits2_pos (8388608 * m)) = Zpos (digits2_pos m) + 23.
Proof.
  change (8388608 * m)%positive with (Pos.iter xO m 23).
  apply digits2_pos_iter.
Qed.

Lemma mul_one m e :
  bounded F32.prec F32.emax m e = true ->
  F32.mul (S754_finite false m e) (F32.of_int 1) = S754_finite false m e.
Proof.
  intros Hb. pose proof Hb as Hb'.
  unfold bounded, canonical_mantissa in Hb'.
  apply andb_true_iff in Hb' as [Hc Hle]. apply Z.eqb_eq in Hc.
  change (F32.of_int 1) with (S754_finite false 8388608 (-23)).
  unfold F32.mul. cbn [SFmul xorb].
  rewrite Pos.mul_comm.
  unfold binary_round_aux at 1. unfold shr_fexp at 1.
  cbn [Zdigits2 shr_record_of_loc]. rewrite digits_mul_23.
  replace (Zpos (digits2_pos m) + 23 + (e + -23))
    with (Zpos (digits2_pos m) + e) by lia.
  rewrite Hc. replace (e - (e + -23)) with 23 by lia.
  cbn [shr]. rewrite shr_shl_23.
  cbn [shr_m loc_of_shr_record round_nearest_even].
  replace (e + -23 + 23) with e by lia.
  unfold shr_fexp. cbn [Zdigits2 shr_record_of_loc].
  rewrite Hc, Z.sub_diag. cbn [shr shr_m]. by rewrite Hle.
Qed.

Lemma to_int_of_int n : 0 < n < 2 ^ 24 -> F32.to_int (F32.of_int n) = n.
Proof.
  intros Hn. destruct (of_int_small n Hn) as (m & e & -> & _ & He & Hm).
  cbn [F32.to_int]. unfold F32.trunc_mag. destruct e as [|p|p]; try lia.
  - rewrite Z.shiftl_mul_pow2 by lia. simpl in Hm. lia.
  - rewrite Z.shiftr_div_pow2 by lia. rewrite Hm.
    change (- Zneg p) with (Zpos p). apply Z.div_mul. lia.
Qed.

(** X16.  An image whose longer side already has the target size is not
    rescaled by [letterbox]: for a height and a width below 2^24 the scale
    is exactly 1.0, the resized image keeps the width and the height of the
    image, and only the margins of the shorter side remain. *)
Theorem letterbox_longer_side_fits h w :
  0 < h < 2 ^ 24 -> 0 < w < 2 ^ 24 ->
  letterbox_geom h w (Z.max h w)
  = mkGeometry (F32.of_int 1) w h
      (Z.quot (Z.max h w - h) 2) (Z.quot (Z.max h w - w) 2).
Proof.
  intros Hh Hw. unfold letterbox_geom. cbv zeta.
  assert (Hscale : F32.div (F32.of_int (Z.max h w)) (F32.of_int (Z.max h w))
                   = F32.of_int 1).
  { destruct (of_int_small (Z.max h w) ltac:(lia)) as (m & e & -> & _).
    apply SFdiv_self. }
  rewrite Hscale.
  assert (Hmul : forall n, 0 < n < 2 ^ 24 ->
             F32.to_int (F32.mul (F32.of_int n) (F32.of_int 1)) = n).
  { intros n Hn. rewrite <- (to_int_of_int n Hn) at 2.
    destruct (of_int_small n Hn) as (m & e & -> & Hb & _).
    by rewrite mul_one. }
  by rewrite !Hmul.
Qed.

Lemma letterbox_longer_side_fits_witness :
  letterbox_geom 480 640 (Z.max 480 640)
  = mkGeometry (F32.of_int 1) 640 480
      (Z.quot (Z.max 480 640 - 480) 2) (Z.quot (Z.max 480 640 - 640) 2).
Proof. apply (letterbox_longer_side_fits 480 640); lia. Defined.

Lemma detect_inr_inv std_sort cv_resize interpreter image bt nt r :
  detect std_sort cv_resize interpreter image bt nt = inr r ->
  exists h w ch t b s c,
    shape image = [h; w; ch]
    /\ detect_invoked_input cv_resize interpreter image = Some t
    /\ invoke interpreter t = Some (b, s, c)
    /\ r = optimizedNMS std_sort (detect_candidates b s c (wrap32 w) (wrap32 h) bt)
             (F32.of_double nt).
Proof.
  intros Hdet. rewrite detect_unfold in Hdet.
  destruct (shape image) as [|h [|w [|ch [|x l]]]]; try discriminate.
  destruct ((tensor_image_dims (input_tensor interpreter) uninitialised).1);
    [|discriminate].
  destruct (detect_invoked_input cv_resize interpreter image) as [t|];
    [|discriminate].
  destruct (invoke interpreter t) as [[[b s] c]|] eqn:Hinv; [|discriminate].
  injection Hdet as <-. by exists h, w, ch, t, b, s, c.
Qed.

(** X17.  With a [std::sort] that meets its contract and a quantized model
    as above, the list that [detect] returns is ordered by confidence, the
    highest first, and no two of its detections at different positions
    have the same class and an intersection over union above the
    threshold, which is the [double] threshold rounded to [float]. *)
Theorem detect_results_ordered std_sort cv_resize interpreter image bt nt r
    i j a b :
  std_sort_contract std_sort ->
  quantized_outputs interpreter ->
  detect std_sort cv_resize interpreter image bt nt = inr r ->
  (i < j)%nat -> r !! i = Some a -> r !! j = Some b ->
  F32.le (confidence b) (confidence a) = true
  /\ (id a = id b ->
      F32.gt (calculateIoU (box a) (box b)) (F32.of_double nt) = false).
Proof.
  intros Hsort Hq Hdet Hij Hi Hj.
  destruct (detect_inr_inv _ _ _ _ _ _ _ Hdet)
    as (h & w & ch & t & bx & s & c & _ & _ & Hinv & ->).
  destruct (Hq t bx s c Hinv) as (Hbs & _ & Hfs).
  pose proof (detect_candidates_no_nan bx s c (wrap32 w) (wrap32 h) bt Hbs Hfs) as Hnn.
  set (cands := detect_candidates bx s c (wrap32 w) (wrap32 h) bt) in *.
  pose proof (no_nan_optimizedNMS _ Hsort (F32.of_double nt) _ Hnn) as Hout.
  pose proof (optimizedNMS_sorted _ Hsort (F32.of_double nt) _ Hnn) as Hs.
  unfold no_nan in Hout. rewrite Forall_forall in Hout.
  split.
  - apply not_gt_le.
    + eapply Hout, list_elem_of_lookup_2, Hi.
    + eapply Hout, list_elem_of_lookup_2, Hj.
    + by apply (StronglySorted_lookup _ _ i j a b Hs).
  - intros Hid.
    rewrite (optimizedNMS_keep _ Hsort) in Hi, Hj by assumption.
    pose proof (nms_keep_unsuppressed (F32.of_double nt) (std_sort cands))
      as Hu.
    pose proof (StronglySorted_lookup _ _ i j a b Hu Hij Hi Hj) as Hsup.
    unfold suppresses in Hsup. by rewrite <- Hid, Z.eqb_refl in Hsup.
Qed.

Lemma detect_results_ordered_witness :
  let a := mkDetectionResult 7 (mkBoxRect 2 4 2 4)
             (S754_finite false 16711680 (-24)) in
  let b := mkDetectionResult 7 (mkBoxRect 0 2 0 2)
             (S754_finite false 13107200 (-24)) in
  F32.le (confidence b) (confidence a) = true
  /\ (id a = id b ->
      F32.gt (calculateIoU (box a) (box b))
             (F32.of_double default_nms_threshold) = false).
Proof.
  apply (detect_results_ordered stable_sort (fun img _ _ => img)
           (interpreter_with input_4x4 (pair_boxes, pair_scores, pair_classes))
           image_4x4 default_box_threshold default_nms_threshold
           [mkDetectionResult 7 (mkBoxRect 2 4 2 4)
              (S754_finite false 16711680 (-24));
            mkDetectionResult 7 (mkBoxRect 0 2 0 2)
              (S754_finite false 13107200 (-24))]
           0%nat 1%nat).
  - apply stable_sort_contract.
  - intros t bx s c [= <- <- <-].
    split; [|split]; [repeat constructor; lia..|exact I].
  - vm_compute. reflexivity.
  - lia.
  - reflexivity.
  - reflexivity.
Defined.

(** ** The sign of the intersection over union *)

Lemma mul_bounds x y u v B :
  0 < x <= u -> u <= B -> 0 < y <= v -> v <= B ->
  0 < x * y /\ x * y <= u * v /\ u * v <= B * B.
Proof.
  intros Hx Hu Hy Hv. split; [|split].
  - apply Z.mul_pos_pos; lia.
  - apply Z.mul_le_mono_nonneg; lia.
  - apply Z.mul_le_mono_nonneg; lia.
Qed.

Lemma SFdiv_nonneg m1 e1 m2 e2 :
  nonneg_float (F32.div (S754_finite false m1 e1) (S754_finite false m2 e2)).
Proof.
  unfold F32.div, SFdiv, SFdiv_core_binary.
  set (m' := match _ - _ - _ with Zpos _ => _ | Z0 => _ | Zneg _ => _ end).
  assert (Hm' : 0 <= m').
  { subst m'. destruct (_ - _ - _); try lia. apply Z.shiftl_nonneg. lia. }
  pose proof (Z.div_pos m' (Zpos m2) Hm' ltac:(lia)) as Hq.
  unfold Z.div in Hq.
  change (IntDef.Z.div_eucl m' (Zpos m2)) with (Z.div_eucl m' (Zpos m2)).
  destruct (Z.div_eucl m' (Zpos m2)) as [q r].
  pose proof (binary_round_aux_sign false q
                (Z.min (fexp F32.prec F32.emax
                          (Zdigits2 (Zpos m1) + e1 - (Zdigits2 (Zpos m2) + e2)))
                       (e1 - e2))
                (new_location (Zpos m2) r) Hq) as H.
  cbn [xorb].
  by destruct (binary_round_aux _ _ _ _ _ _).
Qed.

(** X18.  For two boxes inside a square of side [B] with [B * B] at most
    2^22, [calculateIoU] is a number that is not negative: it is never a
    NaN, which would make every comparison with the threshold false. *)
Theorem calculateIoU_not_nan B a b :
  B * B <= 2 ^ 22 -> box_within B a -> box_within B b ->
  nonneg_float (calculateIoU a b)
  /\ F32.is_nan (calculateIoU a b) = false.
Proof.
  intros HB (Ha1 & Ha2 & Ha3 & Ha4) (Hb1 & Hb2 & Hb3 & Hb4).
  assert (Hnn : nonneg_float (calculateIoU a b)).
  { unfold calculateIoU.
    set (x1 := Z.max (left a) (left b)). set (y1 := Z.max (top a) (top b)).
    set (x2 := Z.min (right a) (right b)).
    set (y2 := Z.min (bottom a) (bottom b)).
    destruct ((x2 <=? x1) || (y2 <=? y1)) eqn:Hc; [exact I|].
    apply orb_false_iff in Hc as [Hx Hy]. apply Z.leb_gt in Hx, Hy.
    assert (HBpos : 0 < B <= 2048) by nia.
    set (wa := right a - left a). set (ha := bottom a - top a).
    set (wb := right b - left b). set (hb := bottom b - top b).
    set (wi := x2 - x1). set (hi := y2 - y1).
    assert (Hwi : 0 < wi <= B) by lia. assert (Hhi : 0 < hi <= B) by lia.
    assert (Hwa : wi <= wa <= B) by lia. assert (Hha : hi <= ha <= B) by lia.
    assert (Hwb : wi <= wb <= B) by lia. assert (Hhb : hi <= hb <= B) by lia.
    destruct (mul_bounds wi hi wi hi B) as (Hi & _ & Hi'); [lia..|].
    destruct (mul_bounds wi hi wa ha B) as (_ & Haa & Haa'); [lia..|].
    destruct (mul_bounds wi hi wb hb B) as (_ & Hab & Hab'); [lia..|].
    unfold int_sub, int_mul, int_add.
    fold wa ha wb hb wi hi.
    rewrite (wrap32_small wa), (wrap32_small ha), (wrap32_small wb),
      (wrap32_small hb), (wrap32_small wi), (wrap32_small hi) by lia.
    rewrite (wrap32_small (wa * ha)), (wrap32_small (wb * hb)),
      (wrap32_small (wi * hi)) by lia.
    rewrite (wrap32_small (wa * ha + wb * hb)) by lia.
    rewrite (wrap32_small (wa * ha + wb * hb - wi * hi)) by lia.
    destruct (of_int_small (wi * hi) ltac:(lia)) as (m1 & e1 & -> & _).
    destruct (of_int_small (wa * ha + wb * hb - wi * hi) ltac:(lia))
      as (m2 & e2 & -> & _).
    apply SFdiv_nonneg. }
  split; [exact Hnn|]. by destruct (calculateIoU a b).
Qed.

Lemma calculateIoU_not_nan_witness :
  nonneg_float (calculateIoU (mkBoxRect 0 10 0 10) (mkBoxRect 0 10 0 7))
  /\ F32.is_nan (calculateIoU (mkBoxRect 0 10 0 10) (mkBoxRect 0 10 0 7))
     = false.
Proof.
  apply (calculateIoU_not_nan 2048 (mkBoxRect 0 10 0 10) (mkBoxRect 0 10 0 7));
    [lia | unfold box_within; simpl; lia..].
Defined.

(** ** Boxes within the image *)

Lemma shr_1_div2 mrs : 0 <= shr_m mrs -> shr_m (shr_1 mrs) = Z.div2 (shr_m mrs).
Proof.
  destruct mrs as [m r s]. cbn [shr_m]. intros Hm.
  destruct m as [|p|p]; [reflexivity| |lia].
  destruct p; reflexivity.
Qed.

Lemma iter_shr_1_shiftr n : forall mrs,
  0 <= shr_m mrs ->
  shr_m (SpecFloat.iter_pos shr_1 n mrs) = Z.shiftr (shr_m mrs) (Zpos n).
Proof.
  induction n as [n IH|n IH|]; intros mrs Hm; cbn [SpecFloat.iter_pos].
  - pose proof (shr_1_nonneg mrs Hm) as H1.
    pose proof (iter_pos_invariant (fun x => 0 <= shr_m x) shr_1 shr_1_nonneg
                  n _ H1) as H2.
    rewrite IH, IH, shr_1_div2 by assumption.
    rewrite Z.div2_spec, !Z.shiftr_shiftr by lia. f_equal. lia.
  - pose proof (iter_pos_invariant (fun x => 0 <= shr_m x) shr_1 shr_1_nonneg
                  n _ Hm) as H2.
    rewrite IH, IH by assumption.
    rewrite Z.shiftr_shiftr by lia. f_equal. lia.
  - rewrite shr_1_div2 by assumption. apply Z.div2_spec.
Qed.

Lemma digits2_pos_bounds p :
  2 ^ (Zpos (digits2_pos p) - 1) <= Zpos p < 2 ^ Zpos (digits2_pos p).
Proof.
  rewrite digits2_pos_size. split.
  - pose proof (Pos.size_le p) as H. apply Pos2Z.pos_le_pos in H.
    rewrite Pos2Z.inj_pow, (Pos2Z.inj_xO p) in H.
    assert (E : 2 ^ Zpos (Pos.size p) = 2 * 2 ^ (Zpos (Pos.size p) - 1)).
    { rewrite <- Z.pow_succ_r by lia. f_equal. lia. }
    rewrite E in H. lia.
  - pose proof (Pos.size_gt p) as H. apply Pos2Z.pos_lt_pos in H.
    by rewrite Pos2Z.inj_pow in H.
Qed.

Lemma digits_le_of_lt p k : 0 <= k -> Zpos p < 2 ^ k -> Zpos (digits2_pos p) <= k.
Proof.
  intros Hk Hp. pose proof (digits2_pos_bounds p) as [Hlo _].
  destruct (Z.le_gt_cases (Zpos (digits2_pos p)) k) as [|Hgt]; [assumption|].
  pose proof (Z.pow_le_mono_r 2 k (Zpos (digits2_pos p) - 1) ltac:(lia)
                ltac:(lia)). lia.
Qed.

(** The mantissa of a rounded result has at most 24 binary digits. *)
Lemma binary_round_aux_digits sx mx ex lx :
  0 <= mx ->
  match binary_round_aux F32.prec F32.emax sx mx ex lx with
  | S754_finite _ m _ => Zpos (digits2_pos m) <= 24
  | _ => True
  end.
Proof.
  intros Hm. unfold binary_round_aux.
  pose proof (shr_fexp_nonneg mx ex lx Hm) as H1.
  destruct (shr_fexp F32.prec F32.emax mx ex lx) as [mrs' e'].
  cbn [fst] in H1.
  set (m1 := round_nearest_even (shr_m mrs') (loc_of_shr_record mrs')).
  assert (H2 : 0 <= m1).
  { subst m1. unfold round_nearest_even.
    destruct (loc_of_shr_record mrs') as [|[| |]]; try lia.
    destruct (Z.even (shr_m mrs')); lia. }
  unfold shr_fexp. destruct m1 as [|p1|p1]; [| |lia].
  { cbn [Zdigits2 shr_record_of_loc].
    destruct (fexp F32.prec F32.emax (0 + e') - e') as [|n|n];
      cbn [shr shr_m]; try exact I.
    rewrite iter_shr_1_shiftr by (cbn; lia). cbn [shr_m].
    by rewrite Z.shiftr_0_l. }
  cbn [Zdigits2 shr_record_of_loc].
  set (D := Zpos (digits2_pos p1)).
  assert (Hf : D - 24 <= fexp F32.prec F32.emax (D + e') - e').
  { unfold fexp, emin, F32.prec, F32.emax. lia. }
  pose proof (digits2_pos_bounds p1) as [_ Hhi]. fold D in Hhi.
  destruct (fexp F32.prec F32.emax (D + e') - e') as [|n|n] eqn:Hn;
    cbn [shr shr_m].
  - destruct (e' <=? F32.emax - F32.prec); [|exact I]. fold D. lia.
  - rewrite iter_shr_1_shiftr by (cbn; lia). cbn [shr_m].
    destruct (Z.shiftr (Zpos p1) (Zpos n)) as [|q|q] eqn:Hq; try exact I.
    destruct (e' + Zpos n <=? F32.emax - F32.prec); [|exact I].
    apply digits_le_of_lt; [lia|].
    rewrite <- Hq, Z.shiftr_div_pow2 by lia.
    apply Z.div_lt_upper_bound; [lia|].
    rewrite <- Z.pow_add_r by lia.
    eapply Z.lt_le_trans; [exact Hhi|].
    apply Z.pow_le_mono_r; lia.
  - destruct (e' <=? F32.emax - F32.prec); [|exact I]. fold D. lia.
Qed.

Lemma mul_digits a b :
  match F32.mul a b with
  | S754_finite _ m _ => Zpos (digits2_pos m) <= 24
  | _ => True
  end.
Proof.
  destruct a as [sa|sa| |sa ma ea], b as [sb|sb| |sb mb eb];
    unfold F32.mul; cbn [SFmul]; try exact I.
  apply binary_round_aux_digits. lia.
Qed.

Lemma of_int_normal n :
  0 < n < 2 ^ 24 ->
  exists m k,
    F32.of_int n = S754_finite false m (- k)
    /\ 0 <= k <= 23 /\ Zpos m = n * 2 ^ k /\ 2 ^ 23 <= Zpos m < 2 ^ 24.
Proof.
  intros Hn. destruct (of_int_small n Hn) as (m & e & Hof & Hb & He & Hm).
  exists m, (- e). rewrite Z.opp_involutive.
  split; [exact Hof|]. split; [lia|]. split; [exact Hm|].
  unfold bounded, canonical_mantissa in Hb.
  apply andb_true_iff in Hb as [Hc _]. apply Z.eqb_eq in Hc.
  unfold fexp, emin, F32.prec, F32.emax in Hc.
  assert (Hd : Zpos (digits2_pos m) = 24) by lia.
  pose proof (digits2_pos_bounds m) as Hbd. by rewrite Hd in Hbd.
Qed.

Lemma round_to_int_neg m p :
  Zpos m < 2 ^ 24 ->
  let q := Z.shiftr (Zpos m) (Zpos p) in
  let n := if Z.testbit (Zpos m) (Zpos p - 1) then q + 1 else q in
  F32.to_int (F32.round (S754_finite false m (Zneg p))) = n.
Proof.
  intros Hm q n. cbn [F32.round]. fold q. fold n.
  assert (Hq : 0 <= q < 2 ^ 23).
  { subst q. rewrite Z.shiftr_div_pow2 by lia. split.
    - apply Z.div_pos; lia.
    - apply Z.div_lt_upper_bound; [lia|].
      assert (2 ^ 1 <= 2 ^ Zpos p) by (apply Z.pow_le_mono_r; lia).
      change (2 ^ 1) with 2 in H. nia. }
  assert (Hn : 0 <= n < 2 ^ 24).
  { subst n. destruct (Z.testbit _ _); lia. }
  destruct (decide (n = 0)) as [->|Hne]; [reflexivity|].
  apply (to_int_of_int n). lia.
Qed.

(** A clamped coordinate, rounded, does not exceed the bound. *)
Lemma round_clamp_le x N :
  0 < N < 2 ^ 24 ->
  match x with
  | S754_finite _ m _ => Zpos (digits2_pos m) <= 24
  | _ => True
  end ->
  F32.to_int (F32.round (clamp x N)) <= N.
Proof.
  intros HN Hx.
  destruct (of_int_normal N HN) as (mW & k & HW & Hk & HmW & HmW').
  unfold clamp, F32.std_max, F32.std_min. rewrite HW.
  assert (HroundW :
    F32.to_int (F32.round (S754_finite false mW (- k))) <= N).
  { destruct k as [|k|k]; try lia.
    - change (- 0) with 0.
      cbn [F32.round F32.to_int F32.trunc_mag].
      rewrite Z.shiftl_0_r. lia.
    - change (- Zpos k) with (Zneg k).
      rewrite round_to_int_neg by lia.
      rewrite HmW, Z.mul_pow2_bits_low by lia.
      rewrite Z.shiftr_div_pow2, Z.div_mul by lia. lia. }
  destruct (F32.lt (S754_finite false mW (- k)) x) eqn:HltW.
  { destruct (F32.lt F32.zero _); [exact HroundW | simpl; lia]. }
  destruct (F32.lt F32.zero x) eqn:Hlt0; [|simpl; lia].
  unfold F32.lt, SFltb, F32.zero in *.
  destruct x as [s|s| |s m e]; try discriminate.
  { destruct s; discriminate. }
  destruct s; [discriminate|].
  cbn [SFcompare] in HltW.
  pose proof (digits2_pos_bounds m) as [_ Hmhi].
  assert (Hm24 : Zpos m < 2 ^ 24).
  { eapply Z.lt_le_trans; [exact Hmhi|]. apply Z.pow_le_mono_r; lia. }
  destruct (Z.compare_spec (- k) e) as [He|He|He]; try discriminate.
  - (* the same exponent: the mantissa is not larger *)
    assert (Hle : Zpos m <= Zpos mW).
    { destruct (Pos.compare_spec mW m) as [E|E|E]; try lia.
      change (PosDef.Pos.compare_cont Eq mW m) with (Pos.compare mW m) in HltW.
      rewrite (proj2 (Pos.compare_lt_iff mW m) E) in HltW. discriminate. }
    subst e. destruct k as [|k|k]; try lia.
    + change (- 0) with 0.
      cbn [F32.round F32.to_int F32.trunc_mag].
      rewrite Z.shiftl_0_r. lia.
    + change (- Zpos k) with (Zneg k).
      rewrite round_to_int_neg by lia.
      assert (Hq : Z.shiftr (Zpos m) (Zpos k) <= N).
      { rewrite Z.shiftr_div_pow2 by lia.
        rewrite <- (Z.div_mul N (2 ^ Zpos k)) by lia.
        apply Z.div_le_mono; lia. }
      destruct (decide (Zpos m = Zpos mW)) as [E|E].
      * rewrite E, HmW, Z.mul_pow2_bits_low by lia.
        rewrite Z.shiftr_div_pow2, Z.div_mul by lia. lia.
      * assert (Z.shiftr (Zpos m) (Zpos k) < N).
        { rewrite Z.shiftr_div_pow2 by lia.
          apply Z.div_lt_upper_bound; lia. }
        destruct (Z.testbit _ _); lia.
  - (* a smaller exponent: at most 24 digits stay below the bound *)
    destruct e as [|p|p]; try lia.
    rewrite round_to_int_neg by lia.
    assert (Hq : Z.shiftr (Zpos m) (Zpos p) < N).
    { rewrite Z.shiftr_div_pow2 by lia.
      apply Z.div_lt_upper_bound; [lia|].
      assert (Hp : 2 ^ Zpos p = 2 ^ k * 2 ^ (Zpos p - k)).
      { rewrite <- Z.pow_add_r by lia. f_equal. lia. }
      assert (2 ^ 1 <= 2 ^ (Zpos p - k)) by (apply Z.pow_le_mono_r; lia).
      change (2 ^ 1) with 2 in H.
      rewrite Hp. nia. }
    destruct (Z.testbit _ _); lia.
Qed.

Lemma detect_emit_within b s c w h t i d :
  0 < w < 2 ^ 24 -> 0 < h < 2 ^ 24 ->
  d ∈ detect_emit b s c w h t i ->
  left (box d) <= w /\ right (box d) <= w
  /\ top (box d) <= h /\ bottom (box d) <= h.
Proof.
  intros Hw Hh. unfold detect_emit, detect_candidate_body. cbv zeta.
  destruct (F64.lt _ t); [by rewrite elem_of_nil|].
  destruct (_ || _); [by rewrite elem_of_nil|].
  rewrite app_nil_l, list_elem_of_singleton. intros ->.
  cbn [box left top right bottom].
  repeat split; apply round_clamp_le; try assumption;
    unfold dequant_coord, get_dequant_value; apply mul_digits.
Qed.

(** X19.  With a [std::sort] that meets its contract and a quantized model
    as above, every box that [detect] returns for an image of height [h]
    and width [w] below 2^24 lies within the image: its left and right
    coordinates are between 0 and [w], its top and bottom coordinates
    between 0 and [h]. *)
Theorem detect_boxes_within_image std_sort cv_resize interpreter image bt nt
    r d h w ch :
  std_sort_contract std_sort ->
  quantized_outputs interpreter ->
  shape image = [h; w; ch] ->
  0 < h < 2 ^ 24 -> 0 < w < 2 ^ 24 ->
  detect std_sort cv_resize interpreter image bt nt = inr r ->
  d ∈ r ->
  0 <= left (box d) <= w /\ 0 <= right (box d) <= w
  /\ 0 <= top (box d) <= h /\ 0 <= bottom (box d) <= h.
Proof.
  intros Hsort Hq Hshape Hh Hw Hdet Hd.
  destruct (detect_inr_inv _ _ _ _ _ _ _ Hdet)
    as (h' & w' & ch' & t & bx & s & c & Hshape' & _ & Hinv & ->).
  rewrite Hshape in Hshape'. injection Hshape' as <- <- <-.
  rewrite (wrap32_small h), (wrap32_small w) in Hd by lia.
  destruct (Hq t bx s c Hinv) as (Hbs & _ & Hfs).
  pose proof (detect_candidates_no_nan bx s c w h bt Hbs Hfs) as Hnn.
  apply (elem_of_optimizedNMS _ Hsort) in Hd; [|assumption].
  rewrite detect_candidates_bind in Hd.
  apply list_elem_of_bind in Hd as (i & Hd & _).
  pose proof (detect_emit_within _ _ _ _ _ _ _ _ Hw Hh Hd) as (? & ? & ? & ?).
  apply detect_emit_inv in Hd as (_ & _ & _ & ? & ? & ? & ?).
  lia.
Qed.

Lemma detect_boxes_within_image_witness :
  let d := mkDetectionResult 7 (mkBoxRect 2 4 2 4)
             (S754_finite false 16711680 (-24)) in
  0 <= left (box d) <= 4 /\ 0 <= right (box d) <= 4
  /\ 0 <= top (box d) <= 4 /\ 0 <= bottom (box d) <= 4.
Proof.
  apply (detect_boxes_within_image stable_sort (fun img _ _ => img)
           (interpreter_with input_4x4 (pair_boxes, pair_scores, pair_classes))
           image_4x4 default_box_threshold default_nms_threshold
           [mkDetectionResult 7 (mkBoxRect 2 4 2 4)
              (S754_finite false 16711680 (-24));
            mkDetectionResult 7 (mkBoxRect 0 2 0 2)
              (S754_finite false 13107200 (-24))]
           _ 4 4 3).
  - apply stable_sort_contract.
  - intros t bx s c [= <- <- <-].
    split; [|split]; [repeat constructor; lia..|exact I].
  - reflexivity.
  - lia.
  - lia.
  - vm_compute. reflexivity.
  - by left.
Defined.

(** ** Rounded results are in the binary32 format *)

Lemma fexp_eq k : fexp F32.prec F32.emax k = Z.max (k - 24) (-149).
Proof. reflexivity. Qed.

Lemma digits_unique p k :
  2 ^ (k - 1) <= Zpos p < 2 ^ k -> Zpos (digits2_pos p) = k.
Proof.
  intros [Hlo Hhi]. pose proof (digits2_pos_bounds p) as [Hlo' Hhi'].
  assert (0 < k).
  { destruct (Z.lt_ge_cases 0 k); [assumption|].
    assert (2 ^ k <= 2 ^ 0) by (apply Z.pow_le_mono_r; lia).
    change (2 ^ 0) with 1 in *. lia. }
  destruct (Z.lt_trichotomy (Zpos (digits2_pos p)) k) as [Hlt|[Heq|Hgt]];
    [exfalso|assumption|exfalso].
  - pose proof (Z.pow_le_mono_r 2 (Zpos (digits2_pos p)) (k - 1)
                  ltac:(lia) ltac:(lia)). lia.
  - pose proof (Z.pow_le_mono_r 2 k (Zpos (digits2_pos p) - 1)
                  ltac:(lia) ltac:(lia)). lia.
Qed.

Lemma digits_mono p q :
  Zpos p <= Zpos q -> Zpos (digits2_pos p) <= Zpos (digits2_pos q).
Proof.
  intros Hpq. pose proof (digits2_pos_bounds p) as [Hlo _].
  pose proof (digits2_pos_bounds q) as [_ Hhi].
  destruct (Z.le_gt_cases (Zpos (digits2_pos p)) (Zpos (digits2_pos q)))
    as [|Hgt]; [assumption|exfalso].
  pose proof (Z.pow_le_mono_r 2 (Zpos (digits2_pos q))
                (Zpos (digits2_pos p) - 1) ltac:(lia) ltac:(lia)). lia.
Qed.

Lemma digits_shiftr m n q :
  Z.shiftr (Zpos m) (Zpos n) = Zpos q ->
  Zpos (digits2_pos q) = Zpos (digits2_pos m) - Zpos n.
Proof.
  intros Hq. rewrite Z.shiftr_div_pow2 in Hq by lia.
  pose proof (digits2_pos_bounds m) as [Hlo Hhi].
  set (d := Zpos (digits2_pos m)) in *.
  assert (Hn : Zpos n < d).
  { destruct (Z.lt_ge_cases (Zpos n) d); [assumption|exfalso].
    assert (2 ^ d <= 2 ^ Zpos n) by (apply Z.pow_le_mono_r; lia).
    rewrite Z.div_small in Hq by lia. discriminate. }
  apply digits_unique. rewrite <- Hq. split.
  - apply Z.div_le_lower_bound; [lia|].
    rewrite <- Z.pow_add_r by lia.
    replace (Zpos n + (d - Zpos n - 1)) with (d - 1) by lia. exact Hlo.
  - apply Z.div_lt_upper_bound; [lia|].
    rewrite <- Z.pow_add_r by lia.
    replace (Zpos n + (d - Zpos n)) with d by lia. exact Hhi.
Qed.

Lemma shiftr_zero_digits m n :
  Z.shiftr (Zpos m) (Zpos n) = 0 -> Zpos (digits2_pos m) <= Zpos n.
Proof.
  intros Hq. rewrite Z.shiftr_div_pow2 in Hq by lia.
  pose proof (digits2_pos_bounds m) as [Hlo _].
  destruct (Z.le_gt_cases (Zpos (digits2_pos m)) (Zpos n)) as [|Hgt];
    [assumption|exfalso].
  assert (2 ^ Zpos n <= 2 ^ (Zpos (digits2_pos m) - 1))
    by (apply Z.pow_le_mono_r; lia).
  assert (1 <= Zpos m / 2 ^ Zpos n).
  { apply Z.div_le_lower_bound; lia. }
  lia.
Qed.

Lemma round_nearest_even_bounds m l :
  m <= round_nearest_even m l <= m + 1.
Proof.
  unfold round_nearest_even. destruct l as [|[| |]]; try lia.
  destruct (Z.even m); lia.
Qed.

(** The first shift of the rounding, for a positive mantissa whose exponent
    is not above the one the format asks for. *)
Lemma shr_fexp_first mx ex lx :
  ex <= fexp F32.prec F32.emax (Zpos (digits2_pos mx) + ex) ->
  let res := shr_fexp F32.prec F32.emax (Zpos mx) ex lx in
  res.2 = fexp F32.prec F32.emax (Zpos (digits2_pos mx) + ex)
  /\ (shr_m res.1 = 0 /\ res.2 = -149
      \/ exists q, shr_m res.1 = Zpos q
           /\ Zpos (digits2_pos q) + res.2 = Zpos (digits2_pos mx) + ex).
Proof.
  intros Hpre. cbv zeta. unfold shr_fexp. cbn [Zdigits2].
  set (D := Zpos (digits2_pos mx)) in *.
  destruct (fexp F32.prec F32.emax (D + ex) - ex) as [|n|n] eqn:Hn;
    cbn [shr fst snd]; try lia.
  - split; [lia|]. right. exists mx. split; [by destruct lx as [|[| |]]|].
    fold D. lia.
  - split; [lia|].
    rewrite iter_shr_1_shiftr by (destruct lx as [|[| |]]; cbn; lia).
    replace (shr_m (shr_record_of_loc (Zpos mx) lx)) with (Zpos mx)
      by (by destruct lx as [|[| |]]).
    destruct (Z.shiftr (Zpos mx) (Zpos n)) as [|q|q] eqn:Hq.
    + left. split; [reflexivity|].
      apply shiftr_zero_digits in Hq. fold D in Hq.
      rewrite fexp_eq in Hn. lia.
    + right. exists q. split; [reflexivity|].
      apply digits_shiftr in Hq. fold D in Hq. lia.
    + pose proof (Z.shiftr_nonneg (Zpos mx) (Zpos n)) as [_ H].
      specialize (H ltac:(lia)). lia.
Qed.

Lemma binary_round_aux_canonical_out sx mx ex lx :
  ex <= fexp F32.prec F32.emax (Zpos (digits2_pos mx) + ex) ->
  canonical32 (binary_round_aux F32.prec F32.emax sx (Zpos mx) ex lx).
Proof.
  intros Hpre. unfold binary_round_aux.
  pose proof (shr_fexp_first mx ex lx Hpre) as Hfirst. cbv zeta in Hfirst.
  destruct (shr_fexp F32.prec F32.emax (Zpos mx) ex lx) as [mrs' e'].
  cbn [fst snd] in Hfirst. destruct Hfirst as [He' Hm0].
  pose proof (round_nearest_even_bounds (shr_m mrs') (loc_of_shr_record mrs'))
    as Hr.
  set (m1 := round_nearest_even (shr_m mrs') (loc_of_shr_record mrs')) in *.
  assert (Hge : forall p1, m1 = Zpos p1 ->
            e' <= fexp F32.prec F32.emax (Zpos (digits2_pos p1) + e')).
  { intros p1 Hp1. rewrite fexp_eq. destruct Hm0 as [[_ ->]|(q & Hq & Hd)];
      [lia|].
    assert (Zpos (digits2_pos q) <= Zpos (digits2_pos p1))
      by (apply digits_mono; lia).
    rewrite fexp_eq in He'. lia. }
  unfold shr_fexp. destruct m1 as [|p1|p1] eqn:Hm1.
  - cbn [Zdigits2 shr_record_of_loc].
    destruct (fexp F32.prec F32.emax (0 + e') - e') as [|n|n];
      cbn [shr shr_m]; try exact I.
    rewrite iter_shr_1_shiftr by (cbn; lia). cbn [shr_m].
    by rewrite Z.shiftr_0_l.
  - specialize (Hge p1 eq_refl). cbn [Zdigits2 shr_record_of_loc].
    destruct (fexp F32.prec F32.emax (Zpos (digits2_pos p1) + e') - e')
      as [|n|n] eqn:Hn; cbn [shr shr_m]; try lia.
    + destruct (e' <=? F32.emax - F32.prec); [|exact I].
      cbn [canonical32]. unfold canonical_mantissa. apply Z.eqb_eq. lia.
    + rewrite iter_shr_1_shiftr by (cbn; lia). cbn [shr_m].
      destruct (Z.shiftr (Zpos p1) (Zpos n)) as [|q|q] eqn:Hq; try exact I.
      destruct (e' + Zpos n <=? F32.emax - F32.prec); [|exact I].
      cbn [canonical32]. unfold canonical_mantissa. apply Z.eqb_eq.
      apply digits_shiftr in Hq.
      replace (Zpos (digits2_pos q) + (e' + Zpos n))
        with (Zpos (digits2_pos p1) + e') by lia.
      lia.
  - pose proof (shr_m mrs'). destruct Hm0 as [[H0 _]|(q & Hq & _)]; lia.
Qed.

Lemma binary_round_canonical sx mx ex :
  canonical32 (binary_round F32.prec F32.emax sx mx ex).
Proof.
  unfold binary_round, shl_align.
  set (f := fexp F32.prec F32.emax (Zpos (digits2_pos mx) + ex)).
  destruct (f - ex) as [|d|d] eqn:Hd.
  - apply binary_round_aux_canonical_out. fold f. lia.
  - apply binary_round_aux_canonical_out. fold f. lia.
  - apply binary_round_aux_canonical_out.
    rewrite digits2_pos_iter.
    replace (Zpos (digits2_pos mx) + Zpos d + f)
      with (Zpos (digits2_pos mx) + ex) by lia.
    fold f. lia.
Qed.

Lemma binary_normalize_canonical m e sz :
  canonical32 (binary_normalize F32.prec F32.emax m e sz).
Proof.
  destruct m; cbn [binary_normalize]; [exact I|apply binary_round_canonical..].
Qed.

Lemma digits_ge_of_le p k :
  0 <= k -> 2 ^ k <= Zpos p -> k + 1 <= Zpos (digits2_pos p).
Proof.
  intros Hk Hp. pose proof (digits2_pos_bounds p) as [_ Hhi].
  destruct (Z.le_gt_cases (k + 1) (Zpos (digits2_pos p))) as [|Hgt];
    [assumption|exfalso].
  pose proof (Z.pow_le_mono_r 2 (Zpos (digits2_pos p)) k ltac:(lia) ltac:(lia)).
  lia.
Qed.

Lemma digits_mul_ge p q :
  Zpos (digits2_pos p) + Zpos (digits2_pos q) - 1
  <= Zpos (digits2_pos (p * q)).
Proof.
  pose proof (digits2_pos_bounds p) as [Hp _].
  pose proof (digits2_pos_bounds q) as [Hq _].
  set (a := Zpos (digits2_pos p)) in *. set (b := Zpos (digits2_pos q)) in *.
  assert (Ha : 1 <= a) by (subst a; lia).
  assert (Hb : 1 <= b) by (subst b; lia).
  pose proof (digits_ge_of_le (p * q) (a - 1 + (b - 1)) ltac:(lia)) as H.
  rewrite Z.pow_add_r, Pos2Z.inj_mul in H by lia.
  assert (0 < 2 ^ (a - 1)) by (apply Z.pow_pos_nonneg; lia).
  assert (0 < 2 ^ (b - 1)) by (apply Z.pow_pos_nonneg; lia).
  specialize (H ltac:(apply Z.mul_le_mono_nonneg; lia)). lia.
Qed.

Lemma mul_canonical a b :
  canonical32 a -> canonical32 b -> canonical32 (F32.mul a b).
Proof.
  destruct a as [sa|sa| |sa ma ea], b as [sb|sb| |sb mb eb];
    unfold F32.mul; cbn [SFmul canonical32]; try (intros; exact I).
  unfold canonical_mantissa. intros Ha%Z.eqb_eq Hb%Z.eqb_eq.
  apply binary_round_aux_canonical_out.
  rewrite fexp_eq in *. pose proof (digits_mul_ge ma mb).
  pose proof (Pos2Z.is_pos (digits2_pos ma)).
  pose proof (Pos2Z.is_pos (digits2_pos mb)).
  lia.
Qed.

Lemma sub_canonical a b :
  canonical32 a -> canonical32 b -> canonical32 (F32.sub a b).
Proof.
  destruct a as [sa|sa| |sa ma ea], b as [sb|sb| |sb mb eb];
    unfold F32.sub; cbn [SFsub canonical32]; try (intros; exact I);
    try (intros; assumption).
  - by destruct sa, sb.
  - by destruct sa, sb.
  - intros _ _. apply binary_normalize_canonical.
Qed.

Lemma dequant_coord_canonical raw params :
  canonical32 (scale params) -> canonical32 (dequant_coord raw params).
Proof.
  intros Hs. unfold dequant_coord, get_dequant_value.
  apply mul_canonical; [|exact Hs].
  apply sub_canonical; apply binary_normalize_canonical.
Qed.

(** A clamped coordinate is zero or a positive number of the format. *)
Lemma clamp_shape x N :
  0 < N < 2 ^ 24 -> canonical32 x ->
  clamp x N = F32.zero
  \/ exists m e, clamp x N = S754_finite false m e
       /\ canonical_mantissa F32.prec F32.emax m e = true.
Proof.
  intros HN Hx.
  destruct (of_int_small N HN) as (mW & eW & HW & Hb & _).
  apply andb_true_iff in Hb as [HcW _].
  unfold clamp, F32.std_max, F32.std_min. rewrite HW.
  destruct (F32.lt (S754_finite false mW eW) x) eqn:HltW.
  { right. exists mW, eW. by split. }
  destruct (F32.lt F32.zero x) eqn:Hlt0; [|by left].
  unfold F32.lt, SFltb, F32.zero in Hlt0, HltW.
  destruct x as [s|s| |s m e]; try destruct s;
    cbn [SFcompare] in Hlt0, HltW; try discriminate.
  right. exists m, e. by split.
Qed.

(** The integer that [std::round] and the conversion to [int] give for a
    positive number with at most 24 digits. *)
Lemma round_to_int_pos m e :
  Zpos m < 2 ^ 24 ->
  F32.to_int (F32.round (S754_finite false m e))
  = if 0 <=? e then Zpos m * 2 ^ e
    else (Zpos m + 2 ^ (- e - 1)) / 2 ^ (- e).
Proof.
  intros Hm. destruct e as [|p|p].
  - cbn [F32.round F32.to_int F32.trunc_mag Z.leb Z.compare].
    rewrite Z.shiftl_0_r. change (2 ^ 0) with 1. lia.
  - cbn [F32.round F32.to_int F32.trunc_mag].
    rewrite Z.shiftl_mul_pow2 by lia. reflexivity.
  - rewrite round_to_int_neg by assumption.
    change (0 <=? Zneg p) with false. cbv iota.
    change (- Zneg p) with (Zpos p).
    rewrite Z.testbit_odd, !Z.shiftr_div_pow2 by lia.
    set (h := Zpos m / 2 ^ (Zpos p - 1)).
    assert (Hpow : 2 ^ Zpos p = 2 ^ (Zpos p - 1) * 2).
    { replace (Zpos p) with (Z.succ (Zpos p - 1)) at 1 by lia.
      rewrite Z.pow_succ_r by lia. lia. }
    assert (Hpos : 0 < 2 ^ (Zpos p - 1)) by (apply Z.pow_pos_nonneg; lia).
    assert (Hq : Zpos m / 2 ^ Zpos p = h / 2).
    { rewrite Hpow, <- Z.div_div by lia. reflexivity. }
    assert (Hn : (Zpos m + 2 ^ (Zpos p - 1)) / 2 ^ Zpos p = (h + 1) / 2).
    { rewrite Hpow, <- Z.div_div by lia. f_equal.
      rewrite <- (Z.mul_1_l (2 ^ (Zpos p - 1))) at 1.
      rewrite Z.div_add by lia. reflexivity. }
    rewrite Hq, Hn. pose proof (Zmod_odd h) as Hodd.
    destruct (Z.odd h); Z.div_mod_to_equations; lia.
Qed.

Lemma canonical_bounds m e :
  canonical_mantissa F32.prec F32.emax m e = true ->
  Zpos m < 2 ^ 24 /\ - 149 <= e /\ (- 149 < e -> 2 ^ 23 <= Zpos m).
Proof.
  unfold canonical_mantissa. intros H%Z.eqb_eq. rewrite fexp_eq in H.
  pose proof (digits2_pos_bounds m) as [Hlo Hhi].
  split; [|split].
  - eapply Z.lt_le_trans; [exact Hhi|]. apply Z.pow_le_mono_r; lia.
  - lia.
  - intros He. assert (Hd : Zpos (digits2_pos m) = 24) by lia.
    by rewrite Hd in Hlo.
Qed.

(** Rounding to an integer keeps the order of two positive numbers of the
    format. *)
Lemma round_to_int_mono m1 e1 m2 e2 :
  canonical_mantissa F32.prec F32.emax m1 e1 = true ->
  canonical_mantissa F32.prec F32.emax m2 e2 = true ->
  F32.ge (S754_finite false m1 e1) (S754_finite false m2 e2) = false ->
  F32.to_int (F32.round (S754_finite false m1 e1))
  <= F32.to_int (F32.round (S754_finite false m2 e2)).
Proof.
  intros [Hm1 [He1 _]]%canonical_bounds [Hm2 [_ Hn2]]%canonical_bounds Hge.
  rewrite !round_to_int_pos by assumption.
  unfold F32.ge, SFleb in Hge. cbn [SFcompare] in Hge.
  destruct (Z.compare_spec e2 e1) as [He|He|He]; try discriminate.
  - subst e2.
    assert (Hlt : Zpos m1 < Zpos m2).
    { change (PosDef.Pos.compare_cont Eq m2 m1) with (Pos.compare m2 m1) in Hge.
      destruct (Pos.compare_spec m2 m1) as [E|E|E]; try discriminate. lia. }
    destruct (0 <=? e1) eqn:Hs.
    + apply Z.leb_le in Hs. apply Z.mul_le_mono_nonneg_r; [|lia].
      apply Z.pow_nonneg; lia.
    + apply Z.leb_gt in Hs. apply Z.div_le_mono; [|lia].
      apply Z.pow_pos_nonneg; lia.
  - specialize (Hn2 ltac:(lia)).
    destruct (0 <=? e1) eqn:Hs1; [apply Z.leb_le in Hs1|apply Z.leb_gt in Hs1].
    + replace (0 <=? e2) with true by (symmetry; apply Z.leb_le; lia).
      replace e2 with (e1 + (e2 - e1)) by lia.
      rewrite Z.pow_add_r by lia.
      assert (0 < 2 ^ e1) by (apply Z.pow_pos_nonneg; lia).
      assert (2 ^ 1 <= 2 ^ (e2 - e1)) by (apply Z.pow_le_mono_r; lia).
      change (2 ^ 1) with 2 in *.
      rewrite (Z.mul_comm (2 ^ e1)), Z.mul_assoc.
      apply Z.mul_le_mono_nonneg_r; [lia|].
      transitivity (Zpos m2 * 2); [lia|].
      apply Z.mul_le_mono_nonneg_l; lia.
    + set (p1 := - e1) in *.
      assert (Hp1 : 2 ^ p1 = 2 ^ (p1 - 1) * 2).
      { replace p1 with (Z.succ (p1 - 1)) at 1 by lia.
        rewrite Z.pow_succ_r by lia. lia. }
      assert (Hpos1 : 0 < 2 ^ (p1 - 1)) by (apply Z.pow_pos_nonneg; lia).
      destruct (0 <=? e2) eqn:Hs2;
        [apply Z.leb_le in Hs2|apply Z.leb_gt in Hs2].
      * transitivity (2 ^ 23).
        -- assert ((Zpos m1 + 2 ^ (p1 - 1)) / 2 ^ p1 < 2 ^ 23 + 1); [|lia].
           apply Z.div_lt_upper_bound; [lia|]. lia.
        -- assert (1 <= 2 ^ e2) by (apply (Z.pow_le_mono_r 2 0 e2); lia).
           transitivity (Zpos m2 * 1); [lia|].
           apply Z.mul_le_mono_nonneg_l; lia.
      * set (p2 := - e2) in *. set (j := p1 - p2).
        assert (Hj : 2 ^ 1 <= 2 ^ j) by (apply Z.pow_le_mono_r; lia).
        change (2 ^ 1) with 2 in Hj.
        assert (Hpos2 : 0 < 2 ^ (p2 - 1)) by (apply Z.pow_pos_nonneg; lia).
        assert (Hposj : 0 < 2 ^ j) by lia.
        rewrite <- (Z.div_mul_cancel_r (Zpos m2 + 2 ^ (p2 - 1)) (2 ^ p2)
                      (2 ^ j)) by lia.
        rewrite <- !Z.pow_add_r, Z.mul_add_distr_r, <- Z.pow_add_r by lia.
        replace (p2 + j) with p1 by lia.
        replace (p2 - 1 + j) with (p1 - 1) by lia.
        apply Z.div_le_mono; [lia|].
        apply Z.add_le_mono_r.
        transitivity (Zpos m2 * 2); [lia|].
        apply Z.mul_le_mono_nonneg_l; lia.
Qed.

Lemma round_clamp_mono x1 x2 N :
  0 < N < 2 ^ 24 -> canonical32 x1 -> canonical32 x2 ->
  F32.ge (clamp x1 N) (clamp x2 N) = false ->
  F32.to_int (F32.round (clamp x1 N)) <= F32.to_int (F32.round (clamp x2 N)).
Proof.
  intros HN H1 H2 Hge.
  destruct (clamp_shape x2 N HN H2) as [E2|(m2 & e2 & E2 & Hc2)];
    rewrite E2 in *.
  { destruct (clamp_shape x1 N HN H1) as [E1|(m1 & e1 & E1 & _)];
      rewrite E1 in Hge; discriminate. }
  destruct (clamp_shape x1 N HN H1) as [E1|(m1 & e1 & E1 & Hc1)];
    rewrite E1 in *.
  - apply canonical_bounds in Hc2 as [Hm2 _].
    rewrite round_to_int_pos by assumption.
    change (F32.to_int (F32.round F32.zero)) with 0.
    destruct (0 <=? e2) eqn:Hs; [apply Z.leb_le in Hs|apply Z.leb_gt in Hs].
    + apply Z.mul_nonneg_nonneg; [lia|apply Z.pow_nonneg; lia].
    + apply Z.div_pos; [|apply Z.pow_pos_nonneg; lia].
      assert (0 <= 2 ^ (- e2 - 1)) by (apply Z.pow_nonneg; lia). lia.
  - by apply round_to_int_mono.
Qed.

Lemma detect_emit_ordered_box b s c w h t i d :
  0 < w < 2 ^ 24 -> 0 < h < 2 ^ 24 ->
  canonical32 (scale (tensor_params b)) ->
  d ∈ detect_emit b s c w h t i ->
  left (box d) <= right (box d) /\ top (box d) <= bottom (box d).
Proof.
  intros Hw Hh Hs. unfold detect_emit, detect_candidate_body. cbv zeta.
  destruct (F64.lt _ t); [by rewrite elem_of_nil|].
  destruct (_ || _) eqn:Hguard; [by rewrite elem_of_nil|].
  apply orb_false_iff in Hguard as [Hx Hy].
  rewrite app_nil_l, list_elem_of_singleton. intros ->.
  cbn [box left top right bottom].
  split; apply round_clamp_mono; try assumption;
    by apply dequant_coord_canonical.
Qed.

(** X20.  With a [std::sort] that meets its contract, a quantized model as
    above whose boxes tensor has a binary32 scale, and an image of height
    and width below 2^24, no box that [detect] returns is inverted: its
    left coordinate does not exceed its right one, nor its top coordinate
    its bottom one. *)
Theorem detect_boxes_not_inverted std_sort cv_resize interpreter image bt nt
    r d h w ch :
  std_sort_contract std_sort ->
  quantized_outputs interpreter ->
  binary32_box_scale interpreter ->
  shape image = [h; w; ch] ->
  0 < h < 2 ^ 24 -> 0 < w < 2 ^ 24 ->
  detect std_sort cv_resize interpreter image bt nt = inr r ->
  d ∈ r ->
  left (box d) <= right (box d) /\ top (box d) <= bottom (box d).
Proof.
  intros Hsort Hq Hsc Hshape Hh Hw Hdet Hd.
  destruct (detect_inr_inv _ _ _ _ _ _ _ Hdet)
    as (h' & w' & ch' & t & bx & s & c & Hshape' & _ & Hinv & ->).
  rewrite Hshape in Hshape'. injection Hshape' as <- <- <-.
  rewrite (wrap32_small h), (wrap32_small w) in Hd by lia.
  destruct (Hq t bx s c Hinv) as (Hbs & _ & Hfs).
  pose proof (detect_candidates_no_nan bx s c w h bt Hbs Hfs) as Hnn.
  apply (elem_of_optimizedNMS _ Hsort) in Hd; [|assumption].
  rewrite detect_candidates_bind in Hd.
  apply list_elem_of_bind in Hd as (i & Hd & _).
  exact (detect_emit_ordered_box _ _ _ _ _ _ _ _ Hw Hh (Hsc _ _ _ _ Hinv) Hd).
Qed.

Lemma detect_boxes_not_inverted_witness :
  let d := mkDetectionResult 7 (mkBoxRect 0 2 0 2)
             (S754_finite false 13107200 (-24)) in
  left (box d) <= right (box d) /\ top (box d) <= bottom (box d).
Proof.
  apply (detect_boxes_not_inverted stable_sort (fun img _ _ => img)
           (interpreter_with input_4x4 (pair_boxes, pair_scores, pair_classes))
           image_4x4 default_box_threshold default_nms_threshold
           [mkDetectionResult 7 (mkBoxRect 2 4 2 4)
              (S754_finite false 16711680 (-24));
            mkDetectionResult 7 (mkBoxRect 0 2 0 2)
              (S754_finite false 13107200 (-24))]
           _ 4 4 3).
  - apply stable_sort_contract.
  - intros t bx s c [= <- <- <-].
    split; [|split]; [repeat constructor; lia..|exact I].
  - intros t bx s c [= <- <- <-]. reflexivity.
  - reflexivity.
  - lia.
  - lia.
  - vm_compute. reflexivity.
  - right. by left.
Defined.

